(** * Selection sets to type expressions, and federation key translation

    A shallow embedding of
    [packages/plugins/other/visitor-plugin-common/src/selection-set-to-object.ts]
    and [packages/utils/plugins-helpers/src/federation.ts], and the
    properties of the two that the specification states.  The last
    part, "Further properties of the code", adds what the code shows
    beyond them, also for the functions of the federation helper that
    rewrite the document of a schema and for the type modifiers of the
    Flow and TypeScript documents visitors.

    Conventions of the embedding.
    - A JavaScript string is a [string]; each [ascii] stands for one code
      unit below 256.
    - A thrown exception is the [Throw] branch of [result].  [OutOfFuel] is
      the only exception that belongs to the model and not to the program:
      the recursions over nested selections take a [fuel], and
      [transformSelectionSet_enough_fuel] shows that the depth of the
      selection plus two is enough.
    - A [Map] and a plain object used as a dictionary are association lists
      in insertion order with unique keys.  Names of schema types are
      GraphQL names: they are no array indices, so that the keys of a
      plain object keep the order of insertion.  A plain object answers
      for a member that it inherits ([constructor], [toString], ...) as
      an association list does not: the theorems on the functions that
      key a plain object by the names of types take these names to be
      [ordinary], and say so.
    - Schema types refer to each other by name and are looked up in the
      schema; the parent type of a transformation is the type the schema
      has under a name, or nothing when the name is unknown.
    - In [SelectionSet] AST nodes are values.  [mergeSelectionSets]
      updates the selection set of the first field node in place in the
      program; there the updated node is stored back in the map of link
      fields.  The first loop of [buildSelectionSetString] is given a
      second time in [InPlace], on node objects in a store: there the
      merge changes the selection set where it is, and a node can be an
      item of several concrete types, or several times of one.  What is
      said of the merged link fields is said of [InPlace].
    - The helpers of [./utils] ([getPossibleTypes], [separateSelectionSet],
      [getFieldNodeNameValue], [mergeSelectionSets], [getBaseType]) follow
      the specification; each says so where it is defined.  The
      processor, the name conversion and the configuration are fields of
      the instance, as in the class. *)

From Stdlib Require Import List String Ascii Bool Arith Lia.
Import ListNotations.
Open Scope string_scope.

(** ** Exceptions *)

Inductive exn : Type :=
| TypeError (msg : string)
| Error (msg : string)
| OutOfFuel.

Inductive result (A : Type) : Type :=
| Ok (a : A)
| Throw (e : exn).

Arguments Ok {A} a.
Arguments Throw {A} e.

Definition bind {A B : Type} (r : result A) (k : A -> result B) : result B :=
  match r with
  | Ok a => k a
  | Throw e => Throw e
  end.

Notation "x <- r ;; k" := (bind r (fun x => k))
  (at level 61, r at next level, right associativity).

Fixpoint mapM {A B : Type} (f : A -> result B) (l : list A) : result (list B) :=
  match l with
  | [] => Ok []
  | a :: l' => b <- f a ;; bs <- mapM f l' ;; Ok (b :: bs)
  end.

Fixpoint foldM {A S : Type} (f : S -> A -> result S) (l : list A) (s : S) : result S :=
  match l with
  | [] => Ok s
  | a :: l' => s' <- f s a ;; foldM f l' s'
  end.

(** ** JavaScript strings, arrays and dictionaries *)

Module JS.

Definition nonEmpty {A : Type} (l : list A) : bool :=
  match l with [] => false | _ => true end.

(** Truthiness of a string: every string but the empty one. *)
Definition truthy (s : string) : bool :=
  match s with EmptyString => false | _ => true end.

(** [\s] of a regular expression, on code units below 256. *)
Definition isSpace (c : ascii) : bool :=
  let n := nat_of_ascii c in
  ((n =? 9) || (n =? 10) || (n =? 11) || (n =? 12) || (n =? 13) || (n =? 32) || (n =? 160))%nat.

Definition isBrace (c : ascii) : bool :=
  let n := nat_of_ascii c in
  ((n =? 123) || (n =? 125))%nat.

(** [/[\{\}]+/gi.test(value)] on a fresh regular expression. *)
Fixpoint testBraces (s : string) : bool :=
  match s with
  | EmptyString => false
  | String c s' => isBrace c || testBraces s'
  end.

(** [value.split(/\s+/g)]: [skipping] holds while a run of white space is
    being consumed, [cur] is the piece read so far. *)
Fixpoint splitSpacesFrom (skipping : bool) (cur : string) (s : string) : list string :=
  match s with
  | EmptyString => [cur]
  | String c s' =>
      if isSpace c then
        if skipping then splitSpacesFrom true cur s'
        else cur :: splitSpacesFrom true EmptyString s'
      else splitSpacesFrom false (cur ++ String c EmptyString) s'
  end.

Definition splitSpaces (s : string) : list string :=
  splitSpacesFrom false EmptyString s.

(** [items.indexOf(item)], with [None] for -1. *)
Fixpoint indexOf (items : list string) (item : string) : option nat :=
  match items with
  | [] => None
  | x :: items' =>
      if x =? item then Some 0
      else match indexOf items' item with
           | Some i => Some (S i)
           | None => None
           end
  end.

(** [items.filter((item, i) => p(item, i))], [i] counted from [start]. *)
Fixpoint filterIndexed {A : Type} (p : A -> nat -> bool) (start : nat) (l : list A) : list A :=
  match l with
  | [] => []
  | a :: l' =>
      if p a start then a :: filterIndexed p (S start) l'
      else filterIndexed p (S start) l'
  end.

Definition includes (l : list string) (s : string) : bool :=
  existsb (fun x => x =? s) l.

Definition toLowerCaseChar (c : ascii) : ascii :=
  let n := nat_of_ascii c in
  if (((65 <=? n) && (n <=? 90)) || ((192 <=? n) && (n <=? 222) && negb (n =? 215)))%nat
  then ascii_of_nat (n + 32)
  else c.

Fixpoint toLowerCase (s : string) : string :=
  match s with
  | EmptyString => EmptyString
  | String c s' => String (toLowerCaseChar c) (toLowerCase s')
  end.

Definition startsWith (s p : string) : bool := String.prefix p s.

Definition endsWith (s p : string) : bool :=
  let ls := String.length s in
  let lp := String.length p in
  (lp <=? ls)%nat && (substring (ls - lp) lp s =? p).

(** [s.split('\n').join(sep)]: every line feed replaced by [sep]. *)
Fixpoint replaceNewlines (sep : string) (s : string) : string :=
  match s with
  | EmptyString => EmptyString
  | String c s' =>
      if (nat_of_ascii c =? 10)%nat then sep ++ replaceNewlines sep s'
      else String c (replaceNewlines sep s')
  end.

(** Dictionaries in insertion order. *)
Definition dict (V : Type) : Type := list (string * V).

Fixpoint get {V : Type} (d : dict V) (k : string) : option V :=
  match d with
  | [] => None
  | (k', v) :: d' => if k' =? k then Some v else get d' k
  end.

Definition has {V : Type} (d : dict V) (k : string) : bool :=
  match get d k with Some _ => true | None => false end.

(** [d.set(k, v)] and [d[k] = v]: an existing key keeps its position. *)
Fixpoint set {V : Type} (d : dict V) (k : string) (v : V) : dict V :=
  match d with
  | [] => [(k, v)]
  | (k', v') :: d' => if k' =? k then (k', v) :: d' else (k', v') :: set d' k v
  end.

(** [if (!d[k]) d[k] = []], and [if (!d.has(k)) d.set(k, [])] *)
Definition ensure {V : Type} (d : dict (list V)) (k : string) : dict (list V) :=
  if has d k then d else set d k [].

(** [d[k].push(...vs)] where [d[k]] is an array. *)
Definition push {V : Type} (d : dict (list V)) (k : string) (vs : list V) : dict (list V) :=
  match get d k with
  | Some l => set d k (l ++ vs)%list
  | None => d
  end.

Definition keys {V : Type} (d : dict V) : list string := map fst d.
Definition values {V : Type} (d : dict V) : list V := map snd d.

(** The members that every plain object inherits from [Object.prototype].
    A plain object that has no property of its own under one of these
    names answers a read with the inherited member, and an association
    list does not: a dictionary that is a plain object in the program is
    modelled for the other keys only. *)
Definition objectPrototypeMembers : list string :=
  ["constructor"; "__defineGetter__"; "__defineSetter__"; "hasOwnProperty";
   "__lookupGetter__"; "__lookupSetter__"; "isPrototypeOf"; "propertyIsEnumerable";
   "toString"; "valueOf"; "__proto__"; "toLocaleString"].

Definition inherited (k : string) : bool := includes objectPrototypeMembers k.

End JS.

Definition nl : string := String (ascii_of_nat 10) EmptyString.

(** ** The part of graphql-js the program reads *)

Module GraphQL.

Inductive GraphQLOutputType : Type :=
| NamedTypeRef (name : string)
| GraphQLList (ofType : GraphQLOutputType)
| GraphQLNonNull (ofType : GraphQLOutputType).

Definition isNonNullType (t : GraphQLOutputType) : bool :=
  match t with GraphQLNonNull _ => true | _ => false end.

(** Argument values of the federation directives are string value nodes,
    as the cast in [extractFieldSet] takes them to be. *)
Record ArgumentNode : Type := {
  arg_name : string;
  arg_value : string
}.

Record DirectiveNode : Type := {
  directive_name : string;
  directive_arguments : list ArgumentNode
}.

(** A field definition node or an object type definition node, reduced to
    its name and directives. *)
Record DefinitionNode : Type := {
  node_name : string;
  node_directives : option (list DirectiveNode)
}.

Record GraphQLField : Type := {
  field_name : string;
  field_type : GraphQLOutputType;
  field_astNode : option DefinitionNode
}.

(** [isTypeOf] is the optional predicate of an object type that tells
    whether a runtime value belongs to it; the value it is given stands
    here by its name. *)
Record GraphQLObjectType : Type := {
  object_name : string;
  object_fields : list GraphQLField;
  object_interfaces : list string;
  object_isTypeOf : option (string -> bool);
  object_astNode : option DefinitionNode
}.

Inductive GraphQLNamedType : Type :=
| ObjectType (o : GraphQLObjectType)
| InterfaceType (name : string) (fields : list GraphQLField)
| UnionType (name : string) (types : list string)
| ScalarType (name : string)
| EnumType (name : string)
| InputObjectType (name : string).

Definition typeName (t : GraphQLNamedType) : string :=
  match t with
  | ObjectType o => object_name o
  | InterfaceType n _ | UnionType n _ | ScalarType n | EnumType n | InputObjectType n => n
  end.

(** [type.getFields()[name]] *)
Fixpoint getField (fields : list GraphQLField) (name : string) : option GraphQLField :=
  match fields with
  | [] => None
  | f :: fields' => if field_name f =? name then Some f else getField fields' name
  end.

Record GraphQLSchema : Type := {
  typeMap : list GraphQLNamedType
}.

(** [schema.getType(name)] *)
Definition getType (schema : GraphQLSchema) (name : string) : option GraphQLNamedType :=
  find (fun t => typeName t =? name) (typeMap schema).

Definition getObjectType (schema : GraphQLSchema) (name : string) : option GraphQLObjectType :=
  match getType schema name with
  | Some (ObjectType o) => Some o
  | _ => None
  end.

(** [union.getTypes()]: the member object types. *)
Fixpoint getTypes (schema : GraphQLSchema) (members : list string) : list GraphQLObjectType :=
  match members with
  | [] => []
  | m :: members' =>
      match getObjectType schema m with
      | Some o => o :: getTypes schema members'
      | None => getTypes schema members'
      end
  end.

(** The object types of the schema that declare interface [iface]. *)
Fixpoint getImplementations (iface : string) (types : list GraphQLNamedType) : list GraphQLObjectType :=
  match types with
  | [] => []
  | ObjectType o :: types' =>
      if JS.includes (object_interfaces o) iface then o :: getImplementations iface types'
      else getImplementations iface types'
  | _ :: types' => getImplementations iface types'
  end.

End GraphQL.

Import GraphQL.

(** ** Helpers of the repository kept outside the two files *)

Module Utils.

(** Modelled from the spec: [getBaseType] of [./utils], which is not part
    of the sources at hand; a declared output type "unwrapped of
    list/non-null wrappers". *)
Fixpoint getBaseType (t : GraphQLOutputType) : string :=
  match t with
  | NamedTypeRef n => n
  | GraphQLList t' => getBaseType t'
  | GraphQLNonNull t' => getBaseType t'
  end.

End Utils.

(** ** federation.ts *)

Module Federation.

Record FieldSetItem : Type := {
  item_name : string;
  item_required : bool
}.

Record ApolloFederation : Type := {
  enabled : bool;
  schema : GraphQLSchema;
  providesMap : JS.dict (list string)
}.

(** What [getDirectivesByName] and [isFederationObjectType] are handed: a
    schema type, or a definition node that may be missing. *)
Inductive DirectiveHost : Type :=
| HostType (t : GraphQLNamedType)
| HostNode (n : option DefinitionNode).

Definition deduplicate (items : list string) : list string :=
  JS.filterIndexed
    (fun item i => match JS.indexOf items item with
                   | Some j => (j =? i)%nat
                   | None => false
                   end)
    0 items.

Definition getDirectivesByName (name : string) (node : DirectiveHost) : list DirectiveNode :=
  let astNode :=
    match node with
    | HostType (ObjectType o) => object_astNode o
    | HostType _ => None
    | HostNode n => n
    end in
  match astNode with
  | Some n =>
      match node_directives n with
      | Some ds => filter (fun d => directive_name d =? name) ds
      | None => []
      end
  | None => []
  end.

Definition isFederationObjectType (node : DefinitionNode + GraphQLObjectType) : result bool :=
  let name := match node with inl n => node_name n | inr o => object_name o end in
  directives <-
    match node with
    | inl n =>
        match node_directives n with
        | Some ds => Ok ds
        | None => Throw (TypeError "Cannot read property 'some' of undefined")
        end
    | inr o =>
        match object_astNode o with
        | Some n =>
            match node_directives n with
            | Some ds => Ok ds
            | None => Throw (TypeError "Cannot read property 'some' of undefined")
            end
        | None => Throw (TypeError "Cannot read property 'directives' of undefined")
        end
    end ;;
  let isNotRoot := negb (JS.includes ["Query"; "Mutation"; "Subscription"] name) in
  let isNotIntrospection := negb (JS.startsWith name "__") in
  let hasKeyDirective := existsb (fun d => directive_name d =? "key") directives in
  Ok (isNotRoot && isNotIntrospection && hasKeyDirective).

Definition extractFieldSet (directive : DirectiveNode) : result (list string) :=
  match find (fun arg => arg_name arg =? "fields") (directive_arguments directive) with
  | None => Throw (TypeError "Cannot read property 'value' of undefined")
  | Some arg =>
      let value := arg_value arg in
      if JS.testBraces value
      then Throw (Error "Nested fields in _FieldSet is not supported")
      else Ok (deduplicate (JS.splitSpaces value))
  end.

Definition translateFieldSet (fields : list FieldSetItem) (parentTypeRef : string) : string :=
  let keys := String.concat " | " (map (fun field => "'" ++ item_name field ++ "'") fields) in
  "Pick<" ++ parentTypeRef ++ ", " ++ keys ++ ">".

(** The loop of [createMapOfProvides] over the fields of one object type.
    [providesMap] is a plain object keyed by the names of types: the
    dictionary stands for it on names that are no inherited members
    ([JS.inherited]). *)
Definition provideField (providesMap : JS.dict (list string)) (field : GraphQLField)
  : result (JS.dict (list string)) :=
  sets <- mapM extractFieldSet (getDirectivesByName "provides" (HostNode (field_astNode field))) ;;
  let provides := List.concat sets in
  let ofType := Utils.getBaseType (field_type field) in
  Ok (JS.push (JS.ensure providesMap ofType) ofType provides).

Definition createMapOfProvides (schema : GraphQLSchema) : result (JS.dict (list string)) :=
  foldM
    (fun providesMap typename =>
       match getType schema typename with
       | Some (ObjectType o) => foldM provideField (object_fields o) providesMap
       | _ => Ok providesMap
       end)
    (map typeName (typeMap schema)) [].

(** The constructor. *)
Definition new (enabled : bool) (schema : GraphQLSchema) : result ApolloFederation :=
  m <- createMapOfProvides schema ;;
  Ok {| enabled := enabled; schema := schema; providesMap := m |}.

Definition filterTypeNames (this : ApolloFederation) (typeNames : list string) : list string :=
  if enabled this then filter (fun t => negb (t =? "_FieldSet")) typeNames else typeNames.

Definition filterFieldNames (this : ApolloFederation) (fieldNames : list string) : list string :=
  if enabled this then filter (fun t => negb (t =? "__resolveReference")) fieldNames else fieldNames.

Definition skipDirective (this : ApolloFederation) (name : string) : bool :=
  enabled this && JS.includes ["external"; "requires"; "provides"; "key"] name.

Definition skipScalar (this : ApolloFederation) (name : string) : bool :=
  enabled this && (name =? "_FieldSet").

Definition isExternal (node : DefinitionNode) : bool :=
  JS.nonEmpty (getDirectivesByName "external" (HostNode (Some node))).

(** [providesMap] is read as a plain object: the dictionary stands for
    it when the name of the object type is no inherited member. *)
Definition hasProvides (this : ApolloFederation) (objectType : GraphQLObjectType) (node : DefinitionNode) : bool :=
  match JS.get (providesMap this) (object_name objectType) with
  | Some fields => JS.nonEmpty fields && JS.includes fields (node_name node)
  | None => false
  end.

Definition isExternalAndNotProvided (this : ApolloFederation) (fieldNode : DefinitionNode)
  (objectType : GraphQLObjectType) : bool :=
  isExternal fieldNode && negb (hasProvides this objectType fieldNode).

Definition skipField (this : ApolloFederation) (fieldNode : DefinitionNode) (parentType : GraphQLNamedType)
  : result bool :=
  if negb (enabled this) then Ok false
  else match parentType with
       | ObjectType o =>
           fed <- isFederationObjectType (inr o) ;;
           if negb fed then Ok false
           else Ok (isExternalAndNotProvided this fieldNode o)
       | _ => Ok false
       end.

(** The field-set items of the [requires] directives of [fieldNode]. *)
Definition requiresItems (fieldNode : DefinitionNode) (parentType : GraphQLObjectType)
  : result (list FieldSetItem) :=
  sets <- mapM extractFieldSet (getDirectivesByName "requires" (HostNode (Some fieldNode))) ;;
  mapM
    (fun name =>
       match getField (object_fields parentType) name with
       | Some f => Ok {| item_name := name; item_required := isNonNullType (field_type f) |}
       | None => Throw (TypeError "Cannot read property 'type' of undefined")
       end)
    (List.concat sets).

(** The field-set items of one [key] directive. *)
Definition keyItems (def : DirectiveNode) : result (list FieldSetItem) :=
  names <- extractFieldSet def ;;
  Ok (map (fun name => {| item_name := name; item_required := true |}) names).

Definition translateParentType (this : ApolloFederation) (fieldNode : DefinitionNode)
  (parentType : GraphQLNamedType) (parentTypeSignature : string) : result string :=
  if negb (enabled this) then Ok parentTypeSignature
  else match parentType with
       | ObjectType o =>
           fed <- isFederationObjectType (inr o) ;;
           if fed && (node_name fieldNode =? "__resolveReference") then
             let keys := getDirectivesByName "key" (HostType parentType) in
             if JS.nonEmpty keys then
               requires <- requiresItems fieldNode o ;;
               let requiredFields := translateFieldSet requires parentTypeSignature in
               primaryKeys <-
                 mapM (fun def => fields <- keyItems def ;;
                                  Ok (translateFieldSet fields parentTypeSignature)) keys ;;
               let '(open, close) :=
                 if (1 <? List.length primaryKeys)%nat then ("(", ")") else ("", "") in
               let outputs :=
                 List.app [open ++ String.concat " | " primaryKeys ++ close]
                          (if JS.nonEmpty requires then ["& " ++ requiredFields] else []) in
               Ok (String.concat " " outputs)
             else Ok parentTypeSignature
           else Ok parentTypeSignature
       | _ => Ok parentTypeSignature
       end.

End Federation.

(** ** selection-set-to-object.ts: data *)

Module SelectionSet.

Record FieldNodeOf (S : Type) : Type := {
  fieldAlias : option string;
  fieldName : string;
  fieldSelectionSet : option (list S)
}.

Record InlineFragmentNodeOf (S : Type) : Type := {
  typeCondition : option string;
  selections : list S
}.

Arguments fieldAlias {S} _.
Arguments fieldName {S} _.
Arguments fieldSelectionSet {S} _.
Arguments typeCondition {S} _.
Arguments selections {S} _.

#[warnings="-register-all"] Inductive SelectionNode : Type :=
| Field (f : FieldNodeOf SelectionNode)
| FragmentSpread (name : string)
| InlineFragment (i : InlineFragmentNodeOf SelectionNode).

Definition FieldNode : Type := FieldNodeOf SelectionNode.
Definition InlineFragmentNode : Type := InlineFragmentNodeOf SelectionNode.
Definition FragmentSpreadNode : Type := string.
Definition SelectionSetNode : Type := list SelectionNode.

Definition mkField (alias : option string) (name : string) (ss : option SelectionSetNode) : FieldNode :=
  {| fieldAlias := alias; fieldName := name; fieldSelectionSet := ss |}.

Definition mkInline (cond : option string) (ss : SelectionSetNode) : InlineFragmentNode :=
  {| typeCondition := cond; selections := ss |}.

(** An entry of the per-type collection: [SelectionNode | string]. *)
Inductive SelectionItem : Type :=
| ItemNode (n : SelectionNode)
| ItemUsage (usage : string).

Definition TypeMap : Type := JS.dict (list SelectionItem).

Record LoadedFragment : Type := {
  fragment_name : string;
  fragment_onType : string
}.

Record ConvertOptions : Type := {
  useTypesPrefix : bool;
  suffix : string
}.

Record ParsedDocumentsConfig : Type := {
  nonOptionalTypename : bool;
  addTypename : bool;
  dedupeOperationSuffix : bool
}.

Record NameAndType : Type := {
  nt_name : string;
  nt_type : string
}.

Inductive ProcessResultItem : Type :=
| PString (s : string)
| PNameAndType (nt : NameAndType).

Definition ProcessResult : Type := list ProcessResultItem.

Record LinkField : Type := {
  link_alias : option string;
  link_name : string;
  link_type : string;
  link_selectionSet : string
}.

Record SelectionSetProcessorConfig : Type := {
  formatNamedField : string -> string;
  wrapTypeWithModifiers : string -> GraphQLOutputType -> string
}.

(** The processor is known to this file by its interface only. *)
Record BaseSelectionSetProcessor : Type := {
  config : SelectionSetProcessorConfig;
  transformTypenameField : string -> string -> result ProcessResult;
  transformPrimitiveFields : GraphQLObjectType -> list string -> result ProcessResult;
  transformAliasesPrimitiveFields : GraphQLObjectType -> list (string * string) -> result ProcessResult;
  transformLinkFields : list LinkField -> result ProcessResult
}.

(** The fields of an instance of the class. *)
Record SelectionSetToObject : Type := {
  _processor : BaseSelectionSetProcessor;
  _schema : GraphQLSchema;
  _convertName : string -> ConvertOptions -> string;
  _loadedFragments : list LoadedFragment;
  _config : ParsedDocumentsConfig;
  _parentSchemaType : option GraphQLNamedType;
  _selectionSet : option SelectionSetNode
}.

Definition createNext (this : SelectionSetToObject) (parentSchemaType : option GraphQLNamedType)
  (selectionSet : option SelectionSetNode) : SelectionSetToObject :=
  {| _processor := _processor this;
     _schema := _schema this;
     _convertName := _convertName this;
     _loadedFragments := _loadedFragments this;
     _config := _config this;
     _parentSchemaType := parentSchemaType;
     _selectionSet := selectionSet |}.

(** *** Helpers imported from [./utils] *)

Record Separated : Type := {
  fields : list FieldNode;
  inlines : list InlineFragmentNode;
  spreads : list FragmentSpreadNode
}.

(** Modelled from the spec: [separateSelectionSet] of [./utils], which is
    not part of the sources at hand; it "splits a raw selection into plain
    fields, inline fragments, and fragment spreads". *)
Fixpoint separateSelectionSet (selectionSet : SelectionSetNode) : Separated :=
  match selectionSet with
  | [] => {| fields := []; inlines := []; spreads := [] |}
  | n :: rest =>
      let r := separateSelectionSet rest in
      match n with
      | Field f => {| fields := f :: fields r; inlines := inlines r; spreads := spreads r |}
      | InlineFragment i => {| fields := fields r; inlines := i :: inlines r; spreads := spreads r |}
      | FragmentSpread s => {| fields := fields r; inlines := inlines r; spreads := s :: spreads r |}
      end
  end.

(** Modelled from the spec: [getFieldNodeNameValue] of [./utils], which is
    not part of the sources at hand; the response key of a field, "alias
    if present, else name". *)
Definition getFieldNodeNameValue (f : FieldNode) : string :=
  match fieldAlias f with
  | Some a => a
  | None => fieldName f
  end.

Fixpoint dedupeByName (seen : list string) (l : list GraphQLObjectType) : list GraphQLObjectType :=
  match l with
  | [] => []
  | o :: l' =>
      if JS.includes seen (object_name o) then dedupeByName seen l'
      else o :: dedupeByName (object_name o :: seen) l'
  end.

(** Modelled from the spec: [getPossibleTypes] of [./utils], which is not
    part of the sources at hand.  "Output: ordered, deduplicated list of
    concrete object-type names.  For an object type, returns itself.  For
    an interface, returns every object type declaring that interface.
    For a union, returns its member types.  Fails only if the name does
    not resolve in the schema." *)
Definition getPossibleTypes (schema : GraphQLSchema) (type : option GraphQLNamedType)
  : result (list GraphQLObjectType) :=
  match type with
  | None => Throw (Error "Unknown type")
  | Some (ObjectType o) => Ok [o]
  | Some (InterfaceType n _) => Ok (dedupeByName [] (getImplementations n (typeMap schema)))
  | Some (UnionType _ members) => Ok (dedupeByName [] (getTypes schema members))
  | Some _ => Ok []
  end.

(** The first element that [change] answers for is replaced by the answer. *)
Fixpoint replaceFirst {A : Type} (change : A -> option A) (l : list A) : list A :=
  match l with
  | [] => []
  | a :: l' =>
      match change a with
      | Some a' => a' :: l'
      | None => a :: replaceFirst change l'
      end
  end.

Definition sameResponseKey (k : string) (n : SelectionNode) : bool :=
  match n with
  | Field f => getFieldNodeNameValue f =? k
  | _ => false
  end.

(** Modelled from the spec: [mergeSelectionSets] of [./utils], which is
    not part of the sources at hand.  "When two items share a response
    key, their child selection sets are merged by recursively unioning
    their sub-selections (not by keeping the latter and discarding the
    former)."  [mergeSelection] adds one selection of the second set to
    the first set: a field whose response key the first set has is merged
    into the first field with that key, child selections into child
    selections; every other selection is added at the end. *)
Fixpoint mergeSelection (selectionSet1 : SelectionSetNode) (selection2 : SelectionNode) {struct selection2}
  : SelectionSetNode :=
  match selection2 with
  | Field f2 =>
      if existsb (sameResponseKey (getFieldNodeNameValue f2)) selectionSet1 then
        replaceFirst
          (fun selection1 =>
             match selection1 with
             | Field f1 =>
                 if getFieldNodeNameValue f1 =? getFieldNodeNameValue f2 then
                   match fieldSelectionSet f1, fieldSelectionSet f2 with
                   | Some ss1, Some ss2 =>
                       Some (Field (mkField (fieldAlias f1) (fieldName f1)
                                            (Some (fold_left mergeSelection ss2 ss1))))
                   | _, _ => Some (Field f1)
                   end
                 else None
             | _ => None
             end)
          selectionSet1
      else (selectionSet1 ++ [selection2])%list
  | _ => (selectionSet1 ++ [selection2])%list
  end.

Definition mergeSelectionSets (selectionSet1 selectionSet2 : SelectionSetNode) : SelectionSetNode :=
  fold_left mergeSelection selectionSet2 selectionSet1.

(** ** selection-set-to-object.ts: operations *)

Definition isMetadataFieldName (name : string) : bool :=
  JS.includes ["__schema"; "__type"] name.

(** [metadataFieldMap[name].type]: the declared types of the two
    introspection fields of graphql-js. *)
Definition metadataFieldMap (name : string) : option GraphQLOutputType :=
  if name =? "__schema" then Some (GraphQLNonNull (NamedTypeRef "__Schema"))
  else if name =? "__type" then Some (NamedTypeRef "__Type")
  else None.

Definition buildFragmentTypeName (this : SelectionSetToObject) (name : string) (suffix : string)
  (typeName : option string) : string :=
  _convertName this name
    {| useTypesPrefix := true;
       suffix := match typeName with
                 | Some t => if JS.truthy t then "_" ++ t ++ "_" ++ suffix else suffix
                 | None => suffix
                 end |}.

Definition _appendToTypeMap {T : Type} (types : JS.dict (list T)) (typeName : string)
  (nodes : option (list T)) : JS.dict (list T) :=
  let types := JS.ensure types typeName in
  match nodes with
  | Some (n :: nodes') => JS.push types typeName (n :: nodes')
  | _ => types
  end.

Definition _createInlineFragmentForFieldNodes (parentType : option GraphQLNamedType)
  (fieldNodes : list FieldNode) : result InlineFragmentNode :=
  match parentType with
  | Some t => Ok (mkInline (Some (typeName t)) (map Field fieldNodes))
  | None => Throw (TypeError "Cannot read property 'name' of undefined")
  end.

Definition fragmentSuffixOf (this : SelectionSetToObject) (spread : FragmentSpreadNode) : string :=
  if dedupeOperationSuffix (_config this) && JS.endsWith (JS.toLowerCase spread) "fragment"
  then "" else "Fragment".

(** [selectionNodesByTypeName] is a plain object keyed by the names of
    types: the dictionary stands for it on names that are no inherited
    members ([JS.inherited]). *)
Definition buildFragmentSpreadsUsage (this : SelectionSetToObject) (spreads : list FragmentSpreadNode)
  : result (JS.dict (list string)) :=
  foldM
    (fun selectionNodesByTypeName spread =>
       match find (fun lf => fragment_name lf =? spread) (_loadedFragments this) with
       | Some fragmentSpreadObject =>
           let schemaType := getType (_schema this) (fragment_onType fragmentSpreadObject) in
           possibleTypesForFragment <- getPossibleTypes (_schema this) schemaType ;;
           Ok (fold_left
                 (fun selectionNodesByTypeName possibleType =>
                    let fragmentSuffix := fragmentSuffixOf this spread in
                    let usage :=
                      buildFragmentTypeName this spread fragmentSuffix
                        (if (List.length possibleTypesForFragment =? 1)%nat then None
                         else Some (object_name possibleType)) in
                    JS.push (JS.ensure selectionNodesByTypeName (object_name possibleType))
                            (object_name possibleType) [usage])
                 possibleTypesForFragment selectionNodesByTypeName)
       | None => Ok selectionNodesByTypeName
       end)
    spreads [].

Definition fieldItems (fields : list FieldNode) : option (list SelectionItem) :=
  Some (map (fun f => ItemNode (Field f)) fields).

Definition usageItems (usage : option (list string)) : option (list SelectionItem) :=
  option_map (map ItemUsage) usage.

(** [parentType.isTypeOf(typeOnSchema, null, null)] *)
Definition callIsTypeOf (parentType : GraphQLObjectType) (value : string) : result bool :=
  match object_isTypeOf parentType with
  | Some isTypeOf => Ok (isTypeOf value)
  | None => Throw (TypeError "parentType.isTypeOf is not a function")
  end.

(** [parentType] is a named type, so the first branch of the program, for
    list and non-null wrappers, is never taken.  [fuel] bounds the depth
    of nested inline fragments.  [spreadsUsage] is a plain object: its
    reads are those of the dictionary for names of types that are no
    inherited members ([JS.inherited]). *)
Fixpoint _collectInlineFragments (fuel : nat) (this : SelectionSetToObject)
  (parentType : option GraphQLNamedType) (nodes : list InlineFragmentNode) (types : TypeMap)
  {struct fuel} : result TypeMap :=
  match fuel with
  | O => Throw OutOfFuel
  | S fuel' =>
      match parentType with
      | Some (ObjectType parent) =>
          foldM
            (fun types node =>
               let typeOnSchema :=
                 match typeCondition node with
                 | Some n => getType (_schema this) n
                 | None => parentType
                 end in
               let sep := separateSelectionSet (selections node) in
               spreadsUsage <- buildFragmentSpreadsUsage this (spreads sep) ;;
               match typeOnSchema with
               | Some (ObjectType o) =>
                   let types := _appendToTypeMap types (object_name o) (fieldItems (fields sep)) in
                   let types := _appendToTypeMap types (object_name o)
                                  (usageItems (JS.get spreadsUsage (object_name o))) in
                   _collectInlineFragments fuel' this typeOnSchema (inlines sep) types
               | Some (InterfaceType n _) =>
                   implemented <- callIsTypeOf parent n ;;
                   if implemented then
                     let types := _appendToTypeMap types (object_name parent) (fieldItems (fields sep)) in
                     let types := _appendToTypeMap types (object_name parent)
                                    (usageItems (JS.get spreadsUsage (object_name parent))) in
                     _collectInlineFragments fuel' this typeOnSchema (inlines sep) types
                   else Ok types
               | _ => Ok types
               end)
            nodes types
      | Some (InterfaceType parentName _) =>
          possibleTypes <- getPossibleTypes (_schema this) parentType ;;
          foldM
            (fun types node =>
               let schemaType :=
                 match typeCondition node with
                 | Some n => getType (_schema this) n
                 | None => parentType
                 end in
               let sep := separateSelectionSet (selections node) in
               spreadsUsage <- buildFragmentSpreadsUsage this (spreads sep) ;;
               match schemaType with
               | Some (ObjectType o) =>
                   if existsb (fun possibleType => object_name possibleType =? object_name o) possibleTypes
                   then
                     let types := _appendToTypeMap types (object_name o) (fieldItems (fields sep)) in
                     let types := _appendToTypeMap types (object_name o)
                                    (usageItems (JS.get spreadsUsage (object_name o))) in
                     _collectInlineFragments fuel' this schemaType (inlines sep) types
                   else Ok types
               | Some (InterfaceType n _) =>
                   if n =? parentName then
                     foldM
                       (fun types possibleType =>
                          let types := _appendToTypeMap types (object_name possibleType)
                                         (fieldItems (fields sep)) in
                          let types := _appendToTypeMap types (object_name possibleType)
                                         (usageItems (JS.get spreadsUsage (object_name possibleType))) in
                          _collectInlineFragments fuel' this schemaType (inlines sep) types)
                       possibleTypes types
                   else Ok types
               | _ => Ok types
               end)
            nodes types
      | Some (UnionType _ members) =>
          let possibleTypes := getTypes (_schema this) members in
          foldM
            (fun types node =>
               let schemaType :=
                 match typeCondition node with
                 | Some n => getType (_schema this) n
                 | None => parentType
                 end in
               let sep := separateSelectionSet (selections node) in
               spreadsUsage <- buildFragmentSpreadsUsage this (spreads sep) ;;
               match schemaType with
               | Some (ObjectType o) =>
                   if existsb (fun possibleType => object_name possibleType =? object_name o) possibleTypes
                   then
                     let types := _appendToTypeMap types (object_name o) (fieldItems (fields sep)) in
                     let types := _appendToTypeMap types (object_name o)
                                    (usageItems (JS.get spreadsUsage (object_name o))) in
                     _collectInlineFragments fuel' this schemaType (inlines sep) types
                   else Ok types
               | Some (InterfaceType _ _) =>
                   possibleInterfaceTypes <- getPossibleTypes (_schema this) schemaType ;;
                   foldM
                     (fun types possibleType =>
                        if existsb (fun possibleInterfaceType =>
                                      object_name possibleInterfaceType =? object_name possibleType)
                                   possibleInterfaceTypes
                        then
                          let types := _appendToTypeMap types (object_name possibleType)
                                         (fieldItems (fields sep)) in
                          let types := _appendToTypeMap types (object_name possibleType)
                                         (usageItems (JS.get spreadsUsage (object_name possibleType))) in
                          _collectInlineFragments fuel' this schemaType (inlines sep) types
                        else Ok types)
                     possibleTypes types
               | _ => Ok types
               end)
            nodes types
      | _ => Ok types
      end
  end.

Record Kinds : Type := {
  fieldNodes : list FieldNode;
  inlineFragmentSelections : list InlineFragmentNode;
  fragmentSpreads : list FragmentSpreadNode
}.

(** The [switch] over the kinds of the selections. *)
Definition splitKinds (selections : SelectionSetNode) : Kinds :=
  fold_left
    (fun k selection =>
       match selection with
       | Field f =>
           {| fieldNodes := (fieldNodes k ++ [f])%list;
              inlineFragmentSelections := inlineFragmentSelections k;
              fragmentSpreads := fragmentSpreads k |}
       | InlineFragment i =>
           {| fieldNodes := fieldNodes k;
              inlineFragmentSelections := (inlineFragmentSelections k ++ [i])%list;
              fragmentSpreads := fragmentSpreads k |}
       | FragmentSpread sp =>
           {| fieldNodes := fieldNodes k;
              inlineFragmentSelections := inlineFragmentSelections k;
              fragmentSpreads := (fragmentSpreads k ++ [sp])%list |}
       end)
    selections
    {| fieldNodes := []; inlineFragmentSelections := []; fragmentSpreads := [] |}.

Definition flattenSelectionSet (fuel : nat) (this : SelectionSetToObject) (selections : SelectionSetNode)
  : result TypeMap :=
  let k := splitKinds selections in
  inlineFragmentSelections <-
    (if JS.nonEmpty (fieldNodes k) then
       wrapped <- _createInlineFragmentForFieldNodes (_parentSchemaType this) (fieldNodes k) ;;
       Ok (inlineFragmentSelections k ++ [wrapped])%list
     else Ok (inlineFragmentSelections k)) ;;
  selectionNodesByTypeName <-
    _collectInlineFragments fuel this (_parentSchemaType this) inlineFragmentSelections [] ;;
  fragmentsUsage <- buildFragmentSpreadsUsage this (fragmentSpreads k) ;;
  Ok (fold_left
        (fun selectionNodesByTypeName typeName =>
           _appendToTypeMap selectionNodesByTypeName typeName (usageItems (JS.get fragmentsUsage typeName)))
        (JS.keys fragmentsUsage) selectionNodesByTypeName).

Definition buildTypeNameField (this : SelectionSetToObject) (type : GraphQLObjectType)
  (nonOptionalTypename addTypename queriedForTypename : bool) : option NameAndType :=
  if nonOptionalTypename || addTypename || queriedForTypename then
    let optionalTypename := negb queriedForTypename && negb nonOptionalTypename in
    Some {| nt_name := formatNamedField (config (_processor this)) "__typename"
                       ++ (if optionalTypename then "?" else "");
            nt_type := "'" ++ object_name type ++ "'" |}
  else None.

Record LinkFieldNode : Type := {
  selectedFieldType : GraphQLOutputType;
  field : FieldNode
}.

(** The local variables the first loop of [buildSelectionSetString] fills. *)
Record Classified : Type := {
  primitiveFields : JS.dict FieldNode;
  primitiveAliasFields : JS.dict FieldNode;
  linkFieldSelectionSets : JS.dict LinkFieldNode;
  requireTypename : bool;
  fragmentsSpreadUsages : list string
}.

Definition emptyClassified : Classified :=
  {| primitiveFields := []; primitiveAliasFields := []; linkFieldSelectionSets := [];
     requireTypename := false; fragmentsSpreadUsages := [] |}.

(** One turn of the first loop of [buildSelectionSetString], on values:
    the field node whose selection set the merge has changed is put back
    under its key.  [InPlace.classifyNode] is the same turn on node
    objects that can be shared. *)
Definition classifyNode (parentSchemaType : GraphQLObjectType) (c : Classified)
  (selectionNode : SelectionItem) : result Classified :=
  match selectionNode with
  | ItemUsage usage =>
      Ok {| primitiveFields := primitiveFields c;
            primitiveAliasFields := primitiveAliasFields c;
            linkFieldSelectionSets := linkFieldSelectionSets c;
            requireTypename := requireTypename c;
            fragmentsSpreadUsages := (fragmentsSpreadUsages c ++ [usage])%list |}
  | ItemNode (Field f) =>
      match fieldSelectionSet f with
      | None =>
          match fieldAlias f with
          | Some alias =>
              Ok {| primitiveFields := primitiveFields c;
                    primitiveAliasFields := JS.set (primitiveAliasFields c) alias f;
                    linkFieldSelectionSets := linkFieldSelectionSets c;
                    requireTypename := requireTypename c;
                    fragmentsSpreadUsages := fragmentsSpreadUsages c |}
          | None =>
              if fieldName f =? "__typename" then
                Ok {| primitiveFields := primitiveFields c;
                      primitiveAliasFields := primitiveAliasFields c;
                      linkFieldSelectionSets := linkFieldSelectionSets c;
                      requireTypename := true;
                      fragmentsSpreadUsages := fragmentsSpreadUsages c |}
              else
                Ok {| primitiveFields := JS.set (primitiveFields c) (fieldName f) f;
                      primitiveAliasFields := primitiveAliasFields c;
                      linkFieldSelectionSets := linkFieldSelectionSets c;
                      requireTypename := requireTypename c;
                      fragmentsSpreadUsages := fragmentsSpreadUsages c |}
          end
      | Some selectionSet =>
          let selectedField :=
            if isMetadataFieldName (fieldName f) then metadataFieldMap (fieldName f)
            else option_map field_type (getField (object_fields parentSchemaType) (fieldName f)) in
          match selectedField with
          | None =>
              Throw (TypeError ("Could not find field type. " ++ object_name parentSchemaType
                                ++ "." ++ fieldName f))
          | Some type =>
              let fieldName := getFieldNodeNameValue f in
              let links :=
                match JS.get (linkFieldSelectionSets c) fieldName with
                | None =>
                    JS.set (linkFieldSelectionSets c) fieldName
                           {| selectedFieldType := type; field := f |}
                | Some linkFieldNode =>
                    match fieldSelectionSet (field linkFieldNode) with
                    | Some first =>
                        JS.set (linkFieldSelectionSets c) fieldName
                               {| selectedFieldType := selectedFieldType linkFieldNode;
                                  field := mkField (fieldAlias (field linkFieldNode))
                                                   (SelectionSet.fieldName (field linkFieldNode))
                                                   (Some (mergeSelectionSets first selectionSet)) |}
                    | None => linkFieldSelectionSets c
                    end
                end in
              Ok {| primitiveFields := primitiveFields c;
                    primitiveAliasFields := primitiveAliasFields c;
                    linkFieldSelectionSets := links;
                    requireTypename := requireTypename c;
                    fragmentsSpreadUsages := fragmentsSpreadUsages c |}
          end
      end
  | ItemNode _ => Ok c
  end.

Definition classify (parentSchemaType : GraphQLObjectType) (selectionNodes : list SelectionItem)
  : result Classified :=
  foldM (classifyNode parentSchemaType) selectionNodes emptyClassified.

(** [.filter(Boolean)] on the processor's results. *)
Definition truthyItem (t : ProcessResultItem) : bool :=
  match t with
  | PString s => JS.truthy s
  | PNameAndType _ => true
  end.

Definition stringsOf (transformed : ProcessResult) : list string :=
  flat_map (fun t => match t with PString s => [s] | PNameAndType _ => [] end) transformed.

Definition objectsOf (transformed : ProcessResult) : list string :=
  flat_map (fun t => match t with
                     | PString _ => []
                     | PNameAndType nt => [nt_name nt ++ ": " ++ nt_type nt]
                     end) transformed.

(** The end of [buildSelectionSetString]: the operands of one concrete
    type joined into one expression. *)
Definition composeFields (transformed : ProcessResult) (fragmentsSpreadUsages : list string)
  : option string :=
  let allStrings := stringsOf transformed in
  let allObjectsMerged := objectsOf transformed in
  let mergedObjectsAsString :=
    if JS.nonEmpty allObjectsMerged
    then ["{ " ++ String.concat ", " allObjectsMerged ++ " }"] else [] in
  let fields := filter JS.truthy (allStrings ++ mergedObjectsAsString ++ fragmentsSpreadUsages)%list in
  match fields with
  | [] => None
  | [one] => Some one
  | _ => Some ("(" ++ nl ++ "  " ++ String.concat (nl ++ "  & ") fields ++ nl ++ ")")
  end.

(** [recur] is [transformSelectionSet] of the instance [createNext] makes. *)
Definition buildSelectionSetStringWith (recur : SelectionSetToObject -> result string)
  (this : SelectionSetToObject) (parentSchemaType : GraphQLObjectType)
  (selectionNodes : list SelectionItem) : result (option string) :=
  c <- classify parentSchemaType selectionNodes ;;
  linkFields <-
    mapM (fun l =>
            let realSelectedFieldType := Utils.getBaseType (selectedFieldType l) in
            let selectionSet :=
              createNext this (getType (_schema this) realSelectedFieldType)
                         (fieldSelectionSet (field l)) in
            text <- recur selectionSet ;;
            Ok {| link_alias := fieldAlias (field l);
                  link_name := fieldName (field l);
                  link_type := realSelectedFieldType;
                  link_selectionSet :=
                    wrapTypeWithModifiers (config (_processor this))
                      (JS.replaceNewlines (nl ++ "  ") text) (selectedFieldType l) |})
         (JS.values (linkFieldSelectionSets c)) ;;
  let typeInfoField :=
    buildTypeNameField this parentSchemaType (nonOptionalTypename (_config this))
                       (addTypename (_config this)) (requireTypename c) in
  t1 <- match typeInfoField with
        | Some f => transformTypenameField (_processor this) (nt_type f) (nt_name f)
        | None => Ok []
        end ;;
  t2 <- transformPrimitiveFields (_processor this) parentSchemaType
          (map fieldName (JS.values (primitiveFields c))) ;;
  t3 <- transformAliasesPrimitiveFields (_processor this) parentSchemaType
          (map (fun f => (match fieldAlias f with Some a => a | None => "" end, fieldName f))
               (JS.values (primitiveAliasFields c))) ;;
  t4 <- transformLinkFields (_processor this) linkFields ;;
  let transformed := filter truthyItem (t1 ++ t2 ++ t3 ++ t4)%list in
  Ok (composeFields transformed (fragmentsSpreadUsages c)).

(** The reducer of [_buildGroupedSelections]: one possible type added to
    [prev], a plain object keyed by the names of types; the dictionary
    stands for it on names that are no inherited members
    ([JS.inherited]). *)
Definition groupPossibleType (recur : SelectionSetToObject -> result string)
  (this : SelectionSetToObject) (selectionNodesByTypeName : TypeMap)
  (prev : JS.dict (list string)) (type : GraphQLObjectType) : result (JS.dict (list string)) :=
  let typeName := object_name type in
  match getType (_schema this) typeName with
  | Some (ObjectType schemaType) =>
      let selectionNodes :=
        match JS.get selectionNodesByTypeName typeName with
        | Some l => l
        | None => []
        end in
      let prev := JS.ensure prev typeName in
      transformedSet <- buildSelectionSetStringWith recur this schemaType selectionNodes ;;
      match transformedSet with
      | Some text => if JS.truthy text then Ok (JS.push prev typeName [text]) else Ok prev
      | None => Ok prev
      end
  | _ =>
      Throw (TypeError ("Invalid state! Schema type " ++ typeName
                        ++ " is not a valid GraphQL object!"))
  end.

Definition _buildGroupedSelectionsWith (recur : SelectionSetToObject -> result string)
  (fuel : nat) (this : SelectionSetToObject) : result (JS.dict (list string)) :=
  match _selectionSet this with
  | None => Ok []
  | Some [] => Ok []
  | Some selections =>
      selectionNodesByTypeName <- flattenSelectionSet fuel this selections ;;
      possibleTypes <- getPossibleTypes (_schema this) (_parentSchemaType this) ;;
      foldM (groupPossibleType recur this selectionNodesByTypeName) possibleTypes []
  end.

(** The body of [transformSelectionSet] once [grouped] is known. *)
Definition unionOfGrouped (grouped : JS.dict (list string)) : string :=
  String.concat " | "
    (filter JS.truthy
       (flat_map
          (fun typeName =>
             let relevant :=
               filter JS.truthy (match JS.get grouped typeName with Some l => l | None => [] end) in
             match relevant with
             | [] => []
             | [one] => [one]
             | _ => ["( " ++ String.concat " & " relevant ++ " )"]
             end)
          (JS.keys grouped))).

(** [fuel] bounds the depth of nested selection sets: each level of link
    fields hands one unit less to the transformation of its children. *)
Fixpoint transformSelectionSet (fuel : nat) (this : SelectionSetToObject) {struct fuel} : result string :=
  match fuel with
  | O => Throw OutOfFuel
  | S fuel' =>
      grouped <- _buildGroupedSelectionsWith (transformSelectionSet fuel') fuel this ;;
      Ok (unionOfGrouped grouped)
  end.

Definition buildSelectionSetString (fuel : nat) :=
  buildSelectionSetStringWith (transformSelectionSet fuel).


End SelectionSet.

Import SelectionSet.
Import Federation.

(** ** Concrete schemas, documents and processors *)

Module Fixtures.

(** [clearOptional] and [wrapTypeWithModifiers] of the Flow documents
    visitor. *)
Definition clearOptional (str : string) : string :=
  if JS.startsWith str "?" then substring 1 (String.length str - 1) str else str.

Fixpoint flowWrapTypeWithModifiers (baseType : string) (type : GraphQLOutputType) : string :=
  match type with
  | GraphQLNonNull ofType => clearOptional (flowWrapTypeWithModifiers baseType ofType)
  | GraphQLList ofType => "?Array<" ++ flowWrapTypeWithModifiers baseType ofType ++ ">"
  | NamedTypeRef _ => "?" ++ baseType
  end.

Definition flowConfig : SelectionSetProcessorConfig :=
  {| formatNamedField := fun name => name;
     wrapTypeWithModifiers := flowWrapTypeWithModifiers |}.

(** Modelled from the spec: a processor of the kind "project new fields
    onto a supertype"; the processors of the repository are not part of
    the sources at hand. *)
Definition pickProcessor : BaseSelectionSetProcessor :=
  {| config := flowConfig;
     transformTypenameField := fun type name =>
       Ok [PNameAndType {| nt_name := name; nt_type := type |}];
     transformPrimitiveFields := fun schemaType fields =>
       match fields with
       | [] => Ok []
       | _ => Ok [PString ("Pick<" ++ object_name schemaType ++ ", "
                           ++ String.concat " | " (map (fun f => "'" ++ f ++ "'") fields) ++ ">")]
       end;
     transformAliasesPrimitiveFields := fun schemaType fields =>
       Ok (map (fun af => PNameAndType {| nt_name := fst af;
                                          nt_type := object_name schemaType ++ "['" ++ snd af ++ "']" |})
               fields);
     transformLinkFields := fun fields =>
       Ok (map (fun l => PNameAndType {| nt_name := match link_alias l with
                                                    | Some a => a
                                                    | None => link_name l
                                                    end;
                                         nt_type := link_selectionSet l |})
               fields) |}.

Definition convertName (name : string) (options : ConvertOptions) : string :=
  name ++ suffix options.

Definition plainField (name : string) (type : GraphQLOutputType) : GraphQLField :=
  {| field_name := name; field_type := type; field_astNode := None |}.

Definition nodeFields : list GraphQLField := [plainField "id" (GraphQLNonNull (NamedTypeRef "ID"))].

Definition Node : GraphQLNamedType := InterfaceType "Node" nodeFields.

(** An object type as [buildASTSchema] makes it: no [isTypeOf]. *)
Definition sdlObject (name : string) (fields : list GraphQLField) (interfaces : list string)
  : GraphQLObjectType :=
  {| object_name := name; object_fields := fields; object_interfaces := interfaces;
     object_isTypeOf := None; object_astNode := None |}.

Definition Person : GraphQLObjectType :=
  sdlObject "Person" [plainField "name" (NamedTypeRef "String"); plainField "age" (NamedTypeRef "Int")] [].

Definition Dog : GraphQLObjectType :=
  sdlObject "Dog" [plainField "id" (GraphQLNonNull (NamedTypeRef "ID"));
                   plainField "bark" (NamedTypeRef "String");
                   plainField "owner" (NamedTypeRef "Person")] ["Node"].

Definition Cat : GraphQLObjectType :=
  sdlObject "Cat" [plainField "id" (GraphQLNonNull (NamedTypeRef "ID"));
                   plainField "meow" (NamedTypeRef "String")] ["Node"].

Definition Query : GraphQLObjectType :=
  sdlObject "Query" [plainField "pet" (NamedTypeRef "Node");
                     plainField "dog" (NamedTypeRef "Dog")] [].

Definition petSchema : GraphQLSchema :=
  {| typeMap := [ObjectType Query; Node; ObjectType Dog; ObjectType Cat; ObjectType Person;
                 ScalarType "ID"; ScalarType "String"; ScalarType "Int"] |}.

Definition defaultConfig : ParsedDocumentsConfig :=
  {| nonOptionalTypename := false; addTypename := false; dedupeOperationSuffix := false |}.

Definition instance (fragments : list LoadedFragment) (parent : option GraphQLNamedType)
  (selectionSet : option SelectionSetNode) : SelectionSetToObject :=
  {| _processor := pickProcessor;
     _schema := petSchema;
     _convertName := convertName;
     _loadedFragments := fragments;
     _config := defaultConfig;
     _parentSchemaType := parent;
     _selectionSet := selectionSet |}.

Definition leaf (name : string) : SelectionNode := Field (mkField None name None).
Definition link (name : string) (ss : SelectionSetNode) : SelectionNode := Field (mkField None name (Some ss)).
Definition on (cond : string) (ss : SelectionSetNode) : SelectionNode := InlineFragment (mkInline (Some cond) ss).

Definition fieldsArg (value : string) : ArgumentNode :=
  {| arg_name := "fields"; arg_value := value |}.

Definition directive (name : string) (value : string) : DirectiveNode :=
  {| directive_name := name; directive_arguments := [fieldsArg value] |}.

Definition keyIdNameId : DirectiveNode := directive "key" "id  name id".

(** [type User @key(fields: "id") @key(fields: "email name")] with the
    synthesized field [__resolveReference @requires(fields: "name age")]. *)
Definition User : GraphQLObjectType :=
  {| object_name := "User";
     object_fields := [plainField "id" (GraphQLNonNull (NamedTypeRef "ID"));
                       plainField "email" (GraphQLNonNull (NamedTypeRef "String"));
                       plainField "name" (GraphQLNonNull (NamedTypeRef "String"));
                       plainField "age" (NamedTypeRef "Int")];
     object_interfaces := [];
     object_isTypeOf := None;
     object_astNode :=
       Some {| node_name := "User";
               node_directives := Some [directive "key" "id"; directive "key" "email name"] |} |}.

(** [type Product @key(fields: "id")] *)
Definition Product : GraphQLObjectType :=
  {| object_name := "Product";
     object_fields := [plainField "id" (GraphQLNonNull (NamedTypeRef "ID"))];
     object_interfaces := [];
     object_isTypeOf := None;
     object_astNode :=
       Some {| node_name := "Product"; node_directives := Some [directive "key" "id"] |} |}.

(** [User] with a non-null [age]. *)
Definition UserStrict : GraphQLObjectType :=
  {| object_name := "User";
     object_fields := [plainField "id" (GraphQLNonNull (NamedTypeRef "ID"));
                       plainField "email" (GraphQLNonNull (NamedTypeRef "String"));
                       plainField "name" (GraphQLNonNull (NamedTypeRef "String"));
                       plainField "age" (GraphQLNonNull (NamedTypeRef "Int"))];
     object_interfaces := [];
     object_isTypeOf := None;
     object_astNode := object_astNode User |}.

Definition resolveReference (directives : list DirectiveNode) : DefinitionNode :=
  {| node_name := "__resolveReference"; node_directives := Some directives |}.

Definition federatedSchema : GraphQLSchema :=
  {| typeMap := [ObjectType User; ObjectType Product; ScalarType "ID"; ScalarType "String";
                 ScalarType "Int"] |}.

Definition federationOn : ApolloFederation :=
  {| enabled := true; schema := federatedSchema; providesMap := [("ID", []); ("String", []); ("Int", [])] |}.

Definition fragmentsFG : list LoadedFragment :=
  [ {| fragment_name := "F"; fragment_onType := "Node" |};
    {| fragment_name := "G"; fragment_onType := "Dog" |} ].

(** [Dog] with an [isTypeOf] that accepts no value. *)
Definition DogRejecting : GraphQLObjectType :=
  {| object_name := "Dog"; object_fields := object_fields Dog; object_interfaces := ["Node"];
     object_isTypeOf := Some (fun _ => false); object_astNode := None |}.

(** [Person], which does not declare [Node], with an [isTypeOf] that
    accepts every value. *)
Definition PersonAccepting : GraphQLObjectType :=
  {| object_name := "Person"; object_fields := object_fields Person; object_interfaces := [];
     object_isTypeOf := Some (fun _ => true); object_astNode := None |}.

Definition twoOwners : list SelectionItem :=
  [ItemNode (link "owner" [leaf "name"]); ItemNode (leaf "bark");
   ItemNode (link "owner" [leaf "age"; leaf "name"])].

(** [type Review @key(fields: "id") { id: ID!  author: User! @provides(fields: "name") }] *)
Definition Review : GraphQLObjectType :=
  {| object_name := "Review";
     object_fields :=
       [plainField "id" (GraphQLNonNull (NamedTypeRef "ID"));
        {| field_name := "author";
           field_type := GraphQLNonNull (NamedTypeRef "User");
           field_astNode :=
             Some {| node_name := "author"; node_directives := Some [directive "provides" "name"] |} |}];
     object_interfaces := [];
     object_isTypeOf := None;
     object_astNode :=
       Some {| node_name := "Review"; node_directives := Some [directive "key" "id"] |} |}.

Definition reviewSchema : GraphQLSchema :=
  {| typeMap := [ObjectType Review; ObjectType User; ScalarType "ID"; ScalarType "String";
                 ScalarType "Int"] |}.

(** [Review] with the nested field set [author @provides(fields: "name { first }")]. *)
Definition ReviewNested : GraphQLObjectType :=
  {| object_name := "Review";
     object_fields :=
       [ {| field_name := "author";
            field_type := NamedTypeRef "User";
            field_astNode :=
              Some {| node_name := "author";
                      node_directives := Some [directive "provides" "name { first }"] |} |}];
     object_interfaces := [];
     object_isTypeOf := None;
     object_astNode := Some {| node_name := "Review"; node_directives := Some [] |} |}.

Definition nestedSchema : GraphQLSchema :=
  {| typeMap := [ObjectType ReviewNested; ObjectType User; ScalarType "String"] |}.

(** A field definition node [name @external]. *)
Definition externalField (name : string) : DefinitionNode :=
  {| node_name := name; node_directives := Some [ {| directive_name := "external"; directive_arguments := [] |} ] |}.

(** [User] as a schema made in code has it: no definition node. *)
Definition UserInCode : GraphQLObjectType :=
  {| object_name := "User"; object_fields := object_fields User; object_interfaces := [];
     object_isTypeOf := None; object_astNode := None |}.

(** [type Query @key(fields: "id")]: a root type. *)
Definition QueryWithKey : GraphQLObjectType :=
  {| object_name := "Query"; object_fields := [plainField "id" (NamedTypeRef "ID")];
     object_interfaces := []; object_isTypeOf := None;
     object_astNode := Some {| node_name := "Query"; node_directives := Some [directive "key" "id"] |} |}.

(** An object type that [petSchema] does not have. *)
Definition Ghost : GraphQLObjectType := sdlObject "Ghost" [plainField "id" (NamedTypeRef "ID")] [].

(** A schema with two interfaces and a union:
    [interface Node { id }  interface Named { name }
     type Dog implements Node & Named  type Cat implements Node
     type Person implements Named  union SearchResult = Dog | Cat | Person] *)
Definition Named : GraphQLNamedType :=
  InterfaceType "Named" [plainField "name" (NamedTypeRef "String")].

Definition NamedDog : GraphQLObjectType :=
  sdlObject "Dog" [plainField "id" (GraphQLNonNull (NamedTypeRef "ID"));
                   plainField "name" (NamedTypeRef "String")] ["Node"; "Named"].

Definition NamedPerson : GraphQLObjectType :=
  sdlObject "Person" [plainField "name" (NamedTypeRef "String")] ["Named"].

Definition SearchResult : GraphQLNamedType := UnionType "SearchResult" ["Dog"; "Cat"; "Person"].

Definition zooSchema : GraphQLSchema :=
  {| typeMap := [Node; Named; ObjectType NamedDog; ObjectType Cat; ObjectType NamedPerson;
                 SearchResult; ScalarType "ID"; ScalarType "String"] |}.

Definition zooInstance (parent : option GraphQLNamedType) : SelectionSetToObject :=
  {| _processor := pickProcessor;
     _schema := zooSchema;
     _convertName := convertName;
     _loadedFragments := [];
     _config := defaultConfig;
     _parentSchemaType := parent;
     _selectionSet := None |}.

End Fixtures.

Import Fixtures.

(** ** Notions the properties are stated with *)

(** The string holds an opening or a closing brace. *)
Definition hasBrace (s : string) : Prop :=
  exists i : nat, String.get i s = Some "{"%char \/ String.get i s = Some "}"%char.

Definition spaceFree (s : string) : Prop :=
  forall c, In c (list_ascii_of_string s) -> JS.isSpace c = false.

Definition allSpace (s : string) : Prop :=
  forall c, In c (list_ascii_of_string s) -> JS.isSpace c = true.

(** [Splits s pieces]: [s] is the pieces with a run of white space, not
    empty, between each piece and the next; no piece holds white space,
    and only the first and the last piece may be empty. *)
Inductive Splits : string -> list string -> Prop :=
| Splits_last (p : string) :
    spaceFree p -> Splits p [p]
| Splits_cons (p w rest q : string) (qs : list string) :
    spaceFree p -> allSpace w -> w <> "" ->
    Splits rest (q :: qs) -> (q <> "" \/ qs = []) ->
    Splits (p ++ w ++ rest) (p :: q :: qs).

(** Keeping the first occurrences, [seen] being what came before. *)
Fixpoint firstOccurrences (seen : list string) (l : list string) : list string :=
  match l with
  | [] => []
  | a :: l' =>
      if JS.includes seen a then firstOccurrences (seen ++ [a]) l'
      else a :: firstOccurrences (seen ++ [a]) l'
  end.

(** The entry of a dictionary of arrays, the empty array when absent. *)
Definition entry {V : Type} (d : JS.dict (list V)) (k : string) : list V :=
  match JS.get d k with
  | Some l => l
  | None => []
  end.

(** An entry, present exactly when it is not empty. *)
Definition present {V : Type} (l : list V) : option (list V) :=
  match l with
  | [] => None
  | _ => Some l
  end.

(** The usage tokens a fragment spread gives to the concrete type
    [typeName]: none when the fragment is unknown; otherwise one for each
    possible type of the fragment's type condition that bears this name,
    the converted fragment name, with the type name in its suffix when
    the condition has more than one possible type. *)
Definition usagesOfSpread (this : SelectionSetToObject) (typeName : string)
  (spread : FragmentSpreadNode) : list string :=
  match find (fun lf => fragment_name lf =? spread) (_loadedFragments this) with
  | None => []
  | Some lf =>
      match getPossibleTypes (_schema this) (getType (_schema this) (fragment_onType lf)) with
      | Ok possible =>
          flat_map
            (fun o =>
               if object_name o =? typeName then
                 [_convertName this spread
                    {| useTypesPrefix := true;
                       suffix := if (1 <? List.length possible)%nat
                                 then "_" ++ typeName ++ "_" ++ fragmentSuffixOf this spread
                                 else fragmentSuffixOf this spread |}]
               else [])
            possible
      | Throw _ => []
      end
  end.

(** The fields of an item list that carry a nested selection set and
    answer to the response key [k], in the order of the list. *)
Definition linkOccurrences (k : string) (items : list SelectionItem) : list FieldNode :=
  flat_map
    (fun item =>
       match item with
       | ItemNode (Field f) =>
           match fieldSelectionSet f with
           | Some _ => if getFieldNodeNameValue f =? k then [f] else []
           | None => []
           end
       | _ => []
       end)
    items.

Definition childSelections (f : FieldNode) : SelectionSetNode :=
  match fieldSelectionSet f with
  | Some ss => ss
  | None => []
  end.

(** Every selection of [part] is in [whole]: a field by a field with its
    response key, a fragment spread or an inline fragment as it is. *)
Definition covers (part whole : SelectionSetNode) : Prop :=
  forall n, In n part ->
    match n with
    | Field f => exists f', In (Field f') whole
                            /\ getFieldNodeNameValue f' = getFieldNodeNameValue f
    | _ => In n whole
    end.

(** The map of link fields agrees with the items [seen]: a response key
    has an entry when a link field of [seen] answers to it, and the entry
    is the first such field, its child selections merged with those of
    the later ones in turn. *)
Definition linksOf (links : JS.dict LinkFieldNode) (seen : list SelectionItem) : Prop :=
  forall k,
    match linkOccurrences k seen with
    | [] => JS.get links k = None
    | first :: others =>
        exists l,
          JS.get links k = Some l
          /\ fieldAlias (field l) = fieldAlias first
          /\ fieldName (field l) = fieldName first
          /\ fieldSelectionSet (field l)
             = Some (fold_left mergeSelectionSets (map childSelections others)
                               (childSelections first))
    end.





(** The object type [o] declaring the interfaces [interfaces] instead of
    its own. *)
Definition withInterfaces (o : GraphQLObjectType) (interfaces : list string) : GraphQLObjectType :=
  {| object_name := object_name o;
     object_fields := object_fields o;
     object_interfaces := interfaces;
     object_isTypeOf := object_isTypeOf o;
     object_astNode := object_astNode o |}.

(** [r'] is the answer [r], unless [r] ran out of fuel. *)
Definition refines {A : Type} (r r' : result A) : Prop :=
  r = Throw OutOfFuel \/ r' = r.

(** The depth of nesting of a selection: a field without children and a
    fragment spread have depth 0, a field with children and an inline
    fragment are one deeper than their deepest child. *)
Fixpoint depth (n : SelectionNode) : nat :=
  match n with
  | Field f =>
      match fieldSelectionSet f with
      | Some ss => S (list_max (map depth ss))
      | None => 0
      end
  | FragmentSpread _ => 0
  | InlineFragment i => S (list_max (map depth (selections i)))
  end.

Definition depths (ss : SelectionSetNode) : nat := list_max (map depth ss).

Definition itemDepth (item : SelectionItem) : nat :=
  match item with
  | ItemNode n => depth n
  | ItemUsage _ => 0
  end.

(** No item of the collection is deeper than [b]. *)
Definition bounded (b : nat) (types : TypeMap) : Prop :=
  forall k l, JS.get types k = Some l -> Forall (fun item => itemDepth item <= b) l.

(** The answer is not the exhaustion of the fuel, and a returned
    collection is bounded by [b]. *)
Definition good (b : nat) (r : result TypeMap) : Prop :=
  r <> Throw OutOfFuel /\ forall types, r = Ok types -> bounded b types.

(** The child selections of every link field are less deep than [b]. *)
Definition linksBelow (b : nat) (links : JS.dict LinkFieldNode) : Prop :=
  Forall (fun kv => S (depths (childSelections (field (snd kv)))) <= b
                    \/ fieldSelectionSet (field (snd kv)) = None) links.

(** A processor of the program never raises the exception of the model. *)
Definition programProcessor (p : BaseSelectionSetProcessor) : Prop :=
  (forall type name, transformTypenameField p type name <> Throw OutOfFuel)
  /\ (forall type names, transformPrimitiveFields p type names <> Throw OutOfFuel)
  /\ (forall type names, transformAliasesPrimitiveFields p type names <> Throw OutOfFuel)
  /\ (forall links, transformLinkFields p links <> Throw OutOfFuel).

(** The projection of [parentTypeRef] onto the fields [names]. *)
Definition Pick (parentTypeRef : string) (names : list string) : string :=
  "Pick<" ++ parentTypeRef ++ ", "
  ++ String.concat " | " (map (fun n => "'" ++ n ++ "'") names) ++ ">".

(** One projection per key, bare when there is one key and a union in
    parentheses otherwise. *)
Definition unionOfPicks (parentTypeRef : string) (keySets : list (list string)) : string :=
  match keySets with
  | [names] => Pick parentTypeRef names
  | _ => "(" ++ String.concat " | " (map (Pick parentTypeRef) keySets) ++ ")"
  end.

(** ** Further notions: names as keys of plain objects *)

(** The name is no member that a plain object inherits, so that a plain
    object keyed by it behaves as a dictionary. *)
Definition ordinary (name : string) : Prop := JS.inherited name = false.

(** The names of the types of the schema are ordinary. *)
Definition ordinarySchema (schema : GraphQLSchema) : Prop :=
  forall t, In t (typeMap schema) -> ordinary (typeName t).

(** The names of the types that a transformation can meet are ordinary:
    those of the schema, and the parent type, which need not be a type
    of the schema. *)
Definition ordinaryTypes (this : SelectionSetToObject) : Prop :=
  ordinarySchema (_schema this)
  /\ forall t, _parentSchemaType this = Some t -> ordinary (typeName t).

(** ** Further notions: the federation component *)

(** The fields of the object types of the schema, in the order in which
    [createMapOfProvides] goes through them. *)
Definition objectFields (schema : GraphQLSchema) : list GraphQLField :=
  flat_map
    (fun typename =>
       match getType schema typename with
       | Some (ObjectType o) => object_fields o
       | _ => []
       end)
    (map typeName (typeMap schema)).

(** The names under which [createMapOfProvides] files the fields of
    the schema, the declared types without their wrappers, are
    ordinary. *)
Definition ordinaryFieldTypes (schema : GraphQLSchema) : Prop :=
  forall f, In f (objectFields schema) -> ordinary (Utils.getBaseType (field_type f)).

(** The names the [provides] directives of a field list. *)
Definition providesOf (field : GraphQLField) : result (list string) :=
  sets <- mapM extractFieldSet (getDirectivesByName "provides" (HostNode (field_astNode field))) ;;
  Ok (List.concat sets).

(** The names that the fields of [fields] whose declared type, without
    its wrappers, is [typeName] provide, in the order of the fields. *)
Definition providedTo (typeName : string) (fields : list GraphQLField) : list string :=
  flat_map
    (fun f =>
       if Utils.getBaseType (field_type f) =? typeName then
         match providesOf f with
         | Ok names => names
         | Throw _ => []
         end
       else [])
    fields.

(** The directive has a [fields] argument. *)
Definition hasFieldsArgument (d : DirectiveNode) : Prop :=
  exists arg, find (fun a => arg_name a =? "fields") (directive_arguments d) = Some arg.

(** The directive has a [fields] argument whose string holds a brace. *)
Definition nestedFieldSet (d : DirectiveNode) : Prop :=
  exists arg, find (fun a => arg_name a =? "fields") (directive_arguments d) = Some arg
              /\ hasBrace (arg_value arg).

(** * Schema documents

    The functions of the federation helper that rewrite the document of
    a schema.  A definition is reduced to the properties these functions
    read or write: its kind, its name, its directives and its fields.  A
    definition of a kind that has no name or no fields (a schema
    definition, a scalar) holds the empty name or no field; the code
    reads neither in that case.  The nodes are the parser's: the fields
    of a definition are an array. *)

Module Document.

Inductive Kind : Type :=
| OPERATION_DEFINITION
| FRAGMENT_DEFINITION
| SCHEMA_DEFINITION
| SCALAR_TYPE_DEFINITION
| OBJECT_TYPE_DEFINITION
| INTERFACE_TYPE_DEFINITION
| UNION_TYPE_DEFINITION
| ENUM_TYPE_DEFINITION
| INPUT_OBJECT_TYPE_DEFINITION
| DIRECTIVE_DEFINITION
| SCHEMA_EXTENSION
| SCALAR_TYPE_EXTENSION
| OBJECT_TYPE_EXTENSION
| INTERFACE_TYPE_EXTENSION
| UNION_TYPE_EXTENSION
| ENUM_TYPE_EXTENSION
| INPUT_OBJECT_TYPE_EXTENSION.

Definition isObjectTypeDefinition (k : Kind) : bool :=
  match k with OBJECT_TYPE_DEFINITION => true | _ => false end.

Definition isObjectTypeExtension (k : Kind) : bool :=
  match k with OBJECT_TYPE_EXTENSION => true | _ => false end.

Inductive TypeNode : Type :=
| NamedType (name : string)
| ListType (type : TypeNode)
| NonNullType (type : TypeNode).

Record FieldDefinitionNode : Type := {
  fd_name : string;
  fd_type : TypeNode;
  fd_arguments : list (string * TypeNode);
  fd_directives : option (list DirectiveNode)
}.

Record TypeDefinitionNode : Type := {
  def_kind : Kind;
  def_name : string;
  def_directives : option (list DirectiveNode);
  def_fields : list FieldDefinitionNode
}.

Record DocumentNode : Type := {
  definitions : list TypeDefinitionNode
}.

(** [{ ...def, kind }] *)
Definition withKind (def : TypeDefinitionNode) (kind : Kind) : TypeDefinitionNode :=
  {| def_kind := kind; def_name := def_name def; def_directives := def_directives def;
     def_fields := def_fields def |}.

(** [{ ...node, fields }] *)
Definition withFields (node : TypeDefinitionNode) (fields : list FieldDefinitionNode)
  : TypeDefinitionNode :=
  {| def_kind := def_kind node; def_name := def_name node;
     def_directives := def_directives node; def_fields := fields |}.

(** The name and the directives of a definition, which is what
    [isFederationObjectType] reads of it. *)
Definition nameAndDirectives (node : TypeDefinitionNode) : DefinitionNode :=
  {| node_name := def_name node; node_directives := def_directives node |}.

(** [visit(doc, visitor)] for a visitor that has callbacks for kinds of
    definitions only: the callbacks meet the definitions of the
    document, in order; the node a callback returns takes the place of
    the definition, and [None], the [null] of the code, deletes it. *)
Definition visit (visitor : TypeDefinitionNode -> result (option TypeDefinitionNode))
  (doc : DocumentNode) : result DocumentNode :=
  edits <- mapM visitor (definitions doc) ;;
  Ok {| definitions := flat_map (fun edit => match edit with Some n => [n] | None => [] end)
                                edits |}.

(** The field [__resolveReference: T] that [addFederationReferencesToSchema]
    makes: it has no directives property. *)
Definition resolveReferenceField (typeName : string) : FieldDefinitionNode :=
  {| fd_name := "__resolveReference"; fd_type := NamedType typeName; fd_arguments := [];
     fd_directives := None |}.

(** The visitor of [addFederationReferencesToSchema]. *)
Definition addFederationReferencesVisitor (node : TypeDefinitionNode)
  : result (option TypeDefinitionNode) :=
  match def_kind node with
  | OBJECT_TYPE_DEFINITION =>
      fed <- isFederationObjectType (inl (nameAndDirectives node)) ;;
      if negb fed then Ok (Some node)
      else Ok (Some (withFields node (resolveReferenceField (def_name node) :: def_fields node)))
  | _ => Ok (Some node)
  end.

(** [addFederationReferencesToSchema] between [parse] and
    [buildASTSchema]. *)
Definition addFederationReferences (doc : DocumentNode) : result DocumentNode :=
  visit addFederationReferencesVisitor doc.

Definition turnExtensionsIntoObjectTypes (ast : DocumentNode) : DocumentNode :=
  {| definitions :=
       map (fun def =>
              if negb (isObjectTypeExtension (def_kind def)) then def
              else
                let isDefined :=
                  existsb (fun d => isObjectTypeDefinition (def_kind d)
                                    && (def_name d =? def_name def))
                          (definitions ast) in
                if isDefined then def
                else withKind def OBJECT_TYPE_DEFINITION)
           (definitions ast) |}.

(** The visitor of [removeFederation]. *)
Definition removeFederationVisitor (queryTypeName : string) (node : TypeDefinitionNode)
  : result (option TypeDefinitionNode) :=
  match def_kind node with
  | SCALAR_TYPE_DEFINITION =>
      if def_name node =? "_Any" then Ok None else Ok (Some node)
  | UNION_TYPE_DEFINITION =>
      if def_name node =? "_Entity" then Ok None else Ok (Some node)
  | OBJECT_TYPE_DEFINITION =>
      if def_name node =? "_Service" then Ok None
      else if def_name node =? queryTypeName then
        Ok (Some (withFields node
                    (filter (fun field => negb (JS.includes ["_entities"; "_service"] (fd_name field)))
                            (def_fields node))))
      else Ok (Some node)
  | _ => Ok (Some node)
  end.

(** [removeFederation] between [parse] and [buildASTSchema]. *)
Definition removeFederationFromDocument (queryTypeName : string) (doc : DocumentNode)
  : result DocumentNode :=
  visit (removeFederationVisitor queryTypeName) doc.

End Document.

Import Document.

(** The object type definitions of a document that have a given name. *)
Definition objectDefinitionsNamed (name : string) (doc : DocumentNode) : list TypeDefinitionNode :=
  filter (fun d => isObjectTypeDefinition (def_kind d) && (def_name d =? name)) (definitions doc).

(** The object type extensions of a document that have a given name. *)
Definition objectExtensionsNamed (name : string) (doc : DocumentNode) : list TypeDefinitionNode :=
  filter (fun d => isObjectTypeExtension (def_kind d) && (def_name d =? name)) (definitions doc).

(** What federation adds to the document of a service: the scalar
    [_Any], the union [_Entity], the object type [_Service]. *)
Definition isFederationDefinition (d : TypeDefinitionNode) : bool :=
  match def_kind d with
  | SCALAR_TYPE_DEFINITION => def_name d =? "_Any"
  | UNION_TYPE_DEFINITION => def_name d =? "_Entity"
  | OBJECT_TYPE_DEFINITION => def_name d =? "_Service"
  | _ => false
  end.

(** The fields of the query type that federation adds. *)
Definition isFederationQueryField (field : FieldDefinitionNode) : bool :=
  JS.includes ["_entities"; "_service"] (fd_name field).

(** A definition without the federation fields when it defines the
    query type, as it is otherwise. *)
Definition withoutFederationFields (queryTypeName : string) (d : TypeDefinitionNode)
  : TypeDefinitionNode :=
  if isObjectTypeDefinition (def_kind d) && (def_name d =? queryTypeName)
  then withFields d (filter (fun field => negb (isFederationQueryField field)) (def_fields d))
  else d.

(** ** Documents to try the rewriting on *)

Definition objectDefinition (kind : Kind) (name : string) (directives : list DirectiveNode)
  (fields : list string) : TypeDefinitionNode :=
  {| def_kind := kind; def_name := name; def_directives := Some directives;
     def_fields := map (fun f => {| fd_name := f; fd_type := NamedType "String";
                                    fd_arguments := []; fd_directives := Some [] |}) fields |}.

(** [extend type User { age }  extend type User { email }  type Query { me }
    extend type Query { you }] *)
Definition extensionsDocument : DocumentNode :=
  {| definitions := [objectDefinition OBJECT_TYPE_EXTENSION "User" [] ["age"];
                     objectDefinition OBJECT_TYPE_EXTENSION "User" [] ["email"];
                     objectDefinition OBJECT_TYPE_DEFINITION "Query" [] ["me"];
                     objectDefinition OBJECT_TYPE_EXTENSION "Query" [] ["you"]] |}.

(** [scalar _Any  union _Entity  type _Service { sdl }
    type Query { _entities  me  _service }  type User @key(fields: "id") { id }] *)
Definition serviceDocument : DocumentNode :=
  {| definitions := [objectDefinition SCALAR_TYPE_DEFINITION "_Any" [] [];
                     objectDefinition UNION_TYPE_DEFINITION "_Entity" [] [];
                     objectDefinition OBJECT_TYPE_DEFINITION "_Service" [] ["sdl"];
                     objectDefinition OBJECT_TYPE_DEFINITION "Query" [] ["_entities"; "me"; "_service"];
                     objectDefinition OBJECT_TYPE_DEFINITION "User"
                       [ {| directive_name := "key";
                            directive_arguments := [ {| arg_name := "fields"; arg_value := "id" |} ] |} ]
                       ["id"]] |}.

(** ** Further notions: the leaves of an item list *)

(** The leaf fields without alias, [__typename] apart, under their
    names. *)
Definition plainLeaves (items : list SelectionItem) : list (string * FieldNode) :=
  flat_map
    (fun item =>
       match item with
       | ItemNode (Field f) =>
           match fieldSelectionSet f, fieldAlias f with
           | None, None => if fieldName f =? "__typename" then [] else [(fieldName f, f)]
           | _, _ => []
           end
       | _ => []
       end)
    items.

(** The leaf fields with an alias, under their aliases. *)
Definition aliasedLeaves (items : list SelectionItem) : list (string * FieldNode) :=
  flat_map
    (fun item =>
       match item with
       | ItemNode (Field f) =>
           match fieldSelectionSet f, fieldAlias f with
           | None, Some alias => [(alias, f)]
           | _, _ => []
           end
       | _ => []
       end)
    items.

(** The item is the leaf field [__typename], without alias. *)
Definition asksTypename (item : SelectionItem) : bool :=
  match item with
  | ItemNode (Field f) =>
      match fieldSelectionSet f, fieldAlias f with
      | None, None => fieldName f =? "__typename"
      | _, _ => false
      end
  | _ => false
  end.

(** The usage tokens of an item list. *)
Definition usageTokens (items : list SelectionItem) : list string :=
  flat_map (fun item => match item with ItemUsage usage => [usage] | _ => [] end) items.

(** The last value filed under a key. *)
Definition lastUnder {V : Type} (k : string) (kvs : list (string * V)) : option V :=
  option_map snd (find (fun kv => fst kv =? k) (rev kvs)).

(** * selection-set-to-object.ts: the declarations of a fragment

    [DeclarationBlock] of [./utils] is not part of the sources at hand,
    and the syntax of a declaration is its business.  [declare export
    name content] stands for
    [new DeclarationBlock(config).export(export).asKind('type').withName(name).withContent(content).string],
    where [export] is [None] when [export()] is called without an
    argument.  [exportFragmentSpreadSubTypes] is the member of that name
    of the configuration of the instance. *)

Section FragmentDeclarations.

Variable declare : option bool -> string -> string -> string.
Variable exportFragmentSpreadSubTypes : bool.



End FragmentDeclarations.



(** ** Further notions: white space at the ends of a string *)

Definition startsWithSpace (s : string) : bool :=
  match s with
  | EmptyString => false
  | String c _ => JS.isSpace c
  end.

Fixpoint endsWithSpace (s : string) : bool :=
  match s with
  | EmptyString => false
  | String c EmptyString => JS.isSpace c
  | String _ s' => endsWithSpace s'
  end.

(** * The modifiers of the TypeScript documents visitor

    [clearOptional] and [wrapTypeWithModifiers] of the constructor of
    the visitor, as functions of the two members of the configuration
    that they read.  [clearOptional] makes a regular expression of the
    name space as it is.  It is modelled for a name space that is a
    word, letters, digits and underscores: as a part of the regular
    expression such a name matches itself, and the dot after it, which
    the regular expression takes for any character, is the dot that
    [startsWith] has seen before.  For another name space (one that
    holds [$] or a parenthesis, say) the regular expression is another
    one, or none: the model then gives no answer, [None]. *)

Module TypeScriptVisitor.

(** [s] without its last character, and that character. *)
Fixpoint unsnoc (s : string) : option (string * ascii) :=
  match s with
  | EmptyString => None
  | String c s' =>
      match unsnoc s' with
      | None => Some (EmptyString, c)
      | Some (init, last) => Some (String c init, last)
      end
  end.

(** A letter, a digit or the underscore. *)
Definition wordChar (c : ascii) : bool :=
  let n := nat_of_ascii c in
  (((48 <=? n) && (n <=? 57)) || ((65 <=? n) && (n <=? 90))
   || ((97 <=? n) && (n <=? 122)) || (n =? 95))%nat.

Definition word (s : string) : bool := forallb wordChar (list_ascii_of_string s).

Section Config.

Variable namespacedImportName : option string.
Variable immutableTypes : bool.

(** The name space, when there is one, is a word. *)
Definition wordNamespace : bool :=
  match namespacedImportName with
  | Some ns => word ns
  | None => true
  end.

(** [this.config.namespacedImportName ? `${this.config.namespacedImportName}.` : ''] *)
Definition prefix : string :=
  match namespacedImportName with
  | Some ns => if JS.truthy ns then ns ++ "." else ""
  | None => ""
  end.

(** For a name space that is a word: on a string that starts with
    [prefix ++ "Maybe"], the regular expression [^<prefix>Maybe<(.*?)>$],
    with the flags [i] and [s], matches when the next character is [<]
    and the last one, further on, is [>]; the whole string is then
    replaced by what is between them. *)
Definition clearOptional (str : string) : option string :=
  if wordNamespace then
    if JS.startsWith str (prefix ++ "Maybe") then
      let seen := String.length prefix + 5 in
      match substring seen (String.length str - seen) str with
      | String "<" body =>
          match unsnoc body with
          | Some (inner, ">"%char) => Some inner
          | _ => Some str
          end
      | _ => Some str
      end
    else Some str
  else None.

Fixpoint wrapTypeWithModifiers (baseType : string) (type : GraphQLOutputType) : option string :=
  match type with
  | GraphQLNonNull ofType =>
      match wrapTypeWithModifiers baseType ofType with
      | Some wrapped => clearOptional wrapped
      | None => None
      end
  | GraphQLList ofType =>
      match wrapTypeWithModifiers baseType ofType with
      | Some innerType =>
          Some (prefix ++ "Maybe<"
                ++ ((if immutableTypes then "ReadonlyArray" else "Array")
                    ++ "<" ++ innerType ++ ">") ++ ">")
      | None => None
      end
  | NamedTypeRef _ => Some (prefix ++ "Maybe<" ++ baseType ++ ">")
  end.

End Config.

End TypeScriptVisitor.

(** ** Further notions: fragments of plain fields *)

(** The inline fragment [... on cond { fields }]. *)
Definition plainFragment (cl : string * list FieldNode) : InlineFragmentNode :=
  mkInline (Some (fst cl)) (map Field (snd cl)).

(** The fields of the fragments on the type [k], as items, in the order
    of the fragments. *)
Definition fragmentItems (k : string) (frags : list (string * list FieldNode)) : list SelectionItem :=
  flat_map (fun cl => if fst cl =? k then map (fun f => ItemNode (Field f)) (snd cl) else []) frags.

(** ** Further notions: the type of a selected link field *)

(** The declared type of the field [name] selected with children on
    [parentSchemaType]: the one of the metadata field for the two
    metadata names, the one of the field of the type otherwise. *)
Definition selectedType (parentSchemaType : GraphQLObjectType) (name : string)
  : option GraphQLOutputType :=
  if isMetadataFieldName name then metadataFieldMap name
  else option_map field_type (getField (object_fields parentSchemaType) name).

(** * selection-set-to-object.ts: the first loop, on node objects

    [mergeSelectionSets(linkFieldNode.field.selectionSet, selectionNode.selectionSet)]
    gives nothing back to the loop: the selection set of the first field
    is changed where it is.  The nodes of a document are objects, and
    one object can be an item of several concrete types, or more than
    once an item of one.  Here a selection set node is a reference into
    a store, which holds the selections of every selection set node; a
    field node is the value it is in the program, with the reference to
    its selection set.  The loop takes a store and gives the store it
    leaves. *)

Module InPlace.

(** A [SelectionSetNode] object. *)
Definition Ref : Type := nat.

Record FieldNode : Type := {
  fieldAlias : option string;
  fieldName : string;
  fieldSelectionSet : option Ref
}.

Inductive SelectionNode : Type :=
| Field (f : FieldNode)
| FragmentSpread (name : string)
| InlineFragment (typeCondition : option string) (selectionSet : Ref).

(** [selectionSet.selections], of every selection set node. *)
Definition Store : Type := Ref -> list SelectionNode.

(** [selectionSet.selections = selections] *)
Definition assign (store : Store) (selectionSet : Ref) (selections : list SelectionNode) : Store :=
  fun r => if Nat.eqb r selectionSet then selections else store r.

Inductive SelectionItem : Type :=
| ItemNode (n : SelectionNode)
| ItemUsage (usage : string).

(** Modelled from the spec: [getFieldNodeNameValue] of [./utils], the
    response key of a field, "alias if present, else name". *)
Definition getFieldNodeNameValue (f : FieldNode) : string :=
  match fieldAlias f with
  | Some a => a
  | None => fieldName f
  end.

Definition sameResponseKey (k : string) (n : SelectionNode) : bool :=
  match n with
  | Field f => getFieldNodeNameValue f =? k
  | _ => false
  end.

(** The first field of [selections] with the response key [k]. *)
Definition findField (k : string) (selections : list SelectionNode) : option FieldNode :=
  match find (sameResponseKey k) selections with
  | Some (Field f) => Some f
  | _ => None
  end.

(** One selection of the second set is added to the selections gathered
    for the first: a field whose response key they have is merged into
    the first field with that key, child selection set into child
    selection set, by [merge]; every other selection is added at the
    end. *)
Definition mergeSelection (merge : Store -> Ref -> Ref -> result Store)
  (state : Store * list SelectionNode) (selection2 : SelectionNode)
  : result (Store * list SelectionNode) :=
  let (store, newSelections) := state in
  match selection2 with
  | Field f2 =>
      match findField (getFieldNodeNameValue f2) newSelections with
      | Some f1 =>
          match fieldSelectionSet f1, fieldSelectionSet f2 with
          | Some selectionSet1, Some selectionSet2 =>
              store' <- merge store selectionSet1 selectionSet2 ;;
              Ok (store', newSelections)
          | _, _ => Ok (store, newSelections)
          end
      | None => Ok (store, (newSelections ++ [selection2])%list)
      end
  | _ => Ok (store, (newSelections ++ [selection2])%list)
  end.

(** Modelled from the spec: [mergeSelectionSets] of [./utils], which is
    not part of the sources at hand.  "When two items share a response
    key, their child selection sets are merged by recursively unioning
    their sub-selections (not by keeping the latter and discarding the
    former)."  The loop does not use what the call returns, so the call
    changes its first argument: the selections of the second set, as
    they are when the call begins, are added in turn to those of the
    first, and the first selection set node gets the selections
    gathered.  The fuel bounds the depth of the fields merged. *)
Fixpoint mergeSelectionSets (fuel : nat) (store : Store) (selectionSet1 selectionSet2 : Ref)
  : result Store :=
  match fuel with
  | 0 => Throw OutOfFuel
  | S fuel' =>
      state <- foldM (mergeSelection (mergeSelectionSets fuel'))
                     (store selectionSet2) (store, store selectionSet1) ;;
      Ok (assign (fst state) selectionSet1 (snd state))
  end.

Record LinkFieldNode : Type := {
  selectedFieldType : GraphQLOutputType;
  field : FieldNode
}.

(** The local variables the first loop of [buildSelectionSetString] fills. *)
Record Classified : Type := {
  primitiveFields : JS.dict FieldNode;
  primitiveAliasFields : JS.dict FieldNode;
  linkFieldSelectionSets : JS.dict LinkFieldNode;
  requireTypename : bool;
  fragmentsSpreadUsages : list string
}.

Definition emptyClassified : Classified :=
  {| primitiveFields := []; primitiveAliasFields := []; linkFieldSelectionSets := [];
     requireTypename := false; fragmentsSpreadUsages := [] |}.

(** One turn of the first loop of [buildSelectionSetString], on the
    local variables and the store. *)
Definition classifyNode (fuel : nat) (parentSchemaType : GraphQLObjectType)
  (state : Classified * Store) (selectionNode : SelectionItem) : result (Classified * Store) :=
  let (c, store) := state in
  match selectionNode with
  | ItemUsage usage =>
      Ok ({| primitiveFields := primitiveFields c;
             primitiveAliasFields := primitiveAliasFields c;
             linkFieldSelectionSets := linkFieldSelectionSets c;
             requireTypename := requireTypename c;
             fragmentsSpreadUsages := (fragmentsSpreadUsages c ++ [usage])%list |}, store)
  | ItemNode (Field f) =>
      match fieldSelectionSet f with
      | None =>
          match fieldAlias f with
          | Some alias =>
              Ok ({| primitiveFields := primitiveFields c;
                     primitiveAliasFields := JS.set (primitiveAliasFields c) alias f;
                     linkFieldSelectionSets := linkFieldSelectionSets c;
                     requireTypename := requireTypename c;
                     fragmentsSpreadUsages := fragmentsSpreadUsages c |}, store)
          | None =>
              if fieldName f =? "__typename" then
                Ok ({| primitiveFields := primitiveFields c;
                       primitiveAliasFields := primitiveAliasFields c;
                       linkFieldSelectionSets := linkFieldSelectionSets c;
                       requireTypename := true;
                       fragmentsSpreadUsages := fragmentsSpreadUsages c |}, store)
              else
                Ok ({| primitiveFields := JS.set (primitiveFields c) (fieldName f) f;
                       primitiveAliasFields := primitiveAliasFields c;
                       linkFieldSelectionSets := linkFieldSelectionSets c;
                       requireTypename := requireTypename c;
                       fragmentsSpreadUsages := fragmentsSpreadUsages c |}, store)
          end
      | Some selectionSet =>
          let selectedField :=
            if isMetadataFieldName (fieldName f) then metadataFieldMap (fieldName f)
            else option_map field_type (getField (object_fields parentSchemaType) (fieldName f)) in
          match selectedField with
          | None =>
              Throw (TypeError ("Could not find field type. " ++ object_name parentSchemaType
                                ++ "." ++ fieldName f))
          | Some type =>
              let fieldName := getFieldNodeNameValue f in
              match JS.get (linkFieldSelectionSets c) fieldName with
              | None =>
                  Ok ({| primitiveFields := primitiveFields c;
                         primitiveAliasFields := primitiveAliasFields c;
                         linkFieldSelectionSets :=
                           JS.set (linkFieldSelectionSets c) fieldName
                                  {| selectedFieldType := type; field := f |};
                         requireTypename := requireTypename c;
                         fragmentsSpreadUsages := fragmentsSpreadUsages c |}, store)
              | Some linkFieldNode =>
                  match fieldSelectionSet (field linkFieldNode) with
                  | Some first =>
                      store' <- mergeSelectionSets fuel store first selectionSet ;;
                      Ok (c, store')
                  | None => Ok (c, store)
                  end
              end
          end
      end
  | ItemNode _ => Ok (c, store)
  end.

Definition classify (fuel : nat) (parentSchemaType : GraphQLObjectType)
  (selectionNodes : list SelectionItem) (store : Store) : result (Classified * Store) :=
  foldM (classifyNode fuel parentSchemaType) selectionNodes (emptyClassified, store).

End InPlace.

(** ** Further notions: selection sets in a store *)

(** The link fields of an item list, each with its selection set node. *)
Definition linkItems (selectionNodes : list InPlace.SelectionItem)
  : list (InPlace.FieldNode * InPlace.Ref) :=
  flat_map (fun item =>
              match item with
              | InPlace.ItemNode (InPlace.Field f) =>
                  match InPlace.fieldSelectionSet f with
                  | Some selectionSet => [(f, selectionSet)]
                  | None => []
                  end
              | _ => []
              end) selectionNodes.

(** The first link field of the list that answers to the response key. *)
Definition firstLink (k : string) (selectionNodes : list InPlace.SelectionItem)
  : option (InPlace.FieldNode * InPlace.Ref) :=
  find (fun link => InPlace.getFieldNodeNameValue (fst link) =? k) (linkItems selectionNodes).

(** Every selection set node of [store'] begins with the selections it
    has in [store], in their order. *)
Definition extends (store store' : InPlace.Store) : Prop :=
  forall r, exists added, store' r = (store r ++ added)%list.

(** The selection sets are in levels: the selection set of a field is
    one level below the selection set the field is a selection of.  The
    selection sets of a parsed document are in levels, a selection set
    as many levels down as there are fields above it; the items of one
    concrete type are fields of one depth, since the flattening goes
    through inline fragments and not through fields. *)
Definition levelled (level : InPlace.Ref -> nat) (store : InPlace.Store) : Prop :=
  forall r f child,
    In (InPlace.Field f) (store r) -> InPlace.fieldSelectionSet f = Some child ->
    S (level child) = level r.

(** The selection is among [selections]: a fragment spread or an inline
    fragment as it is, a field by a field with its response key, and
    when both of these have a selection set, the one of the former is
    [below] the one of the latter. *)
Definition coveredBy (below : InPlace.Ref -> InPlace.Ref -> Prop)
  (selection : InPlace.SelectionNode) (selections : list InPlace.SelectionNode) : Prop :=
  match selection with
  | InPlace.Field f =>
      exists f',
        In (InPlace.Field f') selections
        /\ InPlace.getFieldNodeNameValue f' = InPlace.getFieldNodeNameValue f
        /\ match InPlace.fieldSelectionSet f, InPlace.fieldSelectionSet f' with
           | Some child, Some child' => below child child'
           | _, _ => True
           end
  | _ => In selection selections
  end.

(** Down to [depth] levels, every selection that the selection set
    [part] has in the store [before] is among those that the selection
    set [whole] has in the store [after], the selection sets of fields
    of one response key in the same way. *)
Fixpoint coversDeep (depth : nat) (before : InPlace.Store) (part : InPlace.Ref)
  (after : InPlace.Store) (whole : InPlace.Ref) : Prop :=
  match depth with
  | 0 => True
  | S depth' =>
      forall selection, In selection (before part) ->
        coveredBy (fun child child' => coversDeep depth' before child after child')
                  selection (after whole)
  end.

(** What merging the selection set [selectionSet2] into [selectionSet1]
    leaves: the levels, every selection set with what it had, the
    selection sets above the first as they were, and the second within
    the first, at every depth. *)
Definition mergedInto (level : InPlace.Ref -> nat) (store : InPlace.Store)
  (selectionSet1 selectionSet2 : InPlace.Ref) (store' : InPlace.Store) : Prop :=
  levelled level store'
  /\ extends store store'
  /\ (forall r, level selectionSet1 < level r -> store' r = store r)
  /\ forall depth, coversDeep depth store selectionSet2 store' selectionSet1.

(** The state of a merge into [selectionSet1] when the selections
    [done] of the second set have been added. *)
Definition gathered (level : InPlace.Ref -> nat) (store : InPlace.Store)
  (selectionSet1 : InPlace.Ref) (done : list InPlace.SelectionNode)
  (state : InPlace.Store * list InPlace.SelectionNode) : Prop :=
  levelled level (fst state)
  /\ extends store (fst state)
  /\ (forall r, level selectionSet1 <= level r -> fst state r = store r)
  /\ (exists added, snd state = (store selectionSet1 ++ added)%list)
  /\ (forall f child,
        In (InPlace.Field f) (snd state) -> InPlace.fieldSelectionSet f = Some child ->
        S (level child) = level selectionSet1)
  /\ forall depth selection,
       In selection done ->
       coveredBy (fun child child' => coversDeep depth store child (fst state) child')
                 selection (snd state).

(** The state of the first loop when the items [seen] have been
    classified: one entry for every response key of a link field, with
    the first field of the key, whose selection set has those of all the
    link fields of the key within it. *)
Definition linksInPlace (level : InPlace.Ref -> nat) (store : InPlace.Store)
  (seen : list InPlace.SelectionItem) (state : InPlace.Classified * InPlace.Store) : Prop :=
  levelled level (snd state)
  /\ extends store (snd state)
  /\ NoDup (JS.keys (InPlace.linkFieldSelectionSets (fst state)))
  /\ (forall k,
        match firstLink k seen with
        | None => JS.get (InPlace.linkFieldSelectionSets (fst state)) k = None
        | Some (first, _) =>
            exists type,
              JS.get (InPlace.linkFieldSelectionSets (fst state)) k
              = Some {| InPlace.selectedFieldType := type; InPlace.field := first |}
        end)
  /\ forall f selectionSet,
       In (f, selectionSet) (linkItems seen) ->
       exists first selectionSet1,
         firstLink (InPlace.getFieldNodeNameValue f) seen = Some (first, selectionSet1)
         /\ forall depth, coversDeep depth store selectionSet (snd state) selectionSet1.

(** ** Node objects to try the loop on *)

(** [interface Pet { owner: Person }], with [type Dog implements Pet]
    and [type Cat implements Pet]. *)
Definition OwnedDog : GraphQLObjectType :=
  sdlObject "Dog" [plainField "owner" (NamedTypeRef "Person")] ["Pet"].

Definition OwnedCat : GraphQLObjectType :=
  sdlObject "Cat" [plainField "owner" (NamedTypeRef "Person")] ["Pet"].

Definition leafNode (name : string) : InPlace.SelectionNode :=
  InPlace.Field {| InPlace.fieldAlias := None; InPlace.fieldName := name;
                   InPlace.fieldSelectionSet := None |}.

Definition linkNode (name : string) (selectionSet : InPlace.Ref) : InPlace.FieldNode :=
  {| InPlace.fieldAlias := None; InPlace.fieldName := name;
     InPlace.fieldSelectionSet := Some selectionSet |}.

(** The selection sets of [owner { friend { name } ...A }] (1, and 3 of
    its [friend]) and of [owner { friend { age } ...B }] (2, and 4 of
    its [friend]). *)
Definition ownersStore : InPlace.Store :=
  fun r =>
    match r with
    | 1 => [InPlace.Field (linkNode "friend" 3); InPlace.FragmentSpread "A"]
    | 2 => [InPlace.Field (linkNode "friend" 4); InPlace.FragmentSpread "B"]
    | 3 => [leafNode "name"]
    | 4 => [leafNode "age"]
    | _ => []
    end.

Definition ownersLevel (r : InPlace.Ref) : nat :=
  match r with
  | 1 | 2 => 1
  | _ => 0
  end.

(** The two [owner] fields of a selection on [Pet], which are items of
    [Dog] and items of [Cat]. *)
Definition ownersItems : list InPlace.SelectionItem :=
  [InPlace.ItemNode (InPlace.Field (linkNode "owner" 1));
   InPlace.ItemNode (leafNode "bark");
   InPlace.ItemNode (InPlace.Field (linkNode "owner" 2))].

(** * Properties *)

(** ** The error monad *)

Lemma bind_Ok {A B : Type} (r : result A) (k : A -> result B) (b : B) :
  bind r k = Ok b -> exists a, r = Ok a /\ k a = Ok b.
Proof.
  destruct r as [a|e]; simpl; intros H.
  - exists a. split; [reflexivity | exact H].
  - discriminate.
Qed.

Lemma mapM_map {A B C : Type} (f : A -> result B) (g : B -> C) (l : list A) (bs : list B) :
  mapM f l = Ok bs ->
  mapM (fun a => b <- f a ;; Ok (g b)) l = Ok (map g bs).
Proof.
  revert bs. induction l as [|a l IH]; simpl; intros bs H.
  - inversion H. reflexivity.
  - destruct (f a) as [b|e]; simpl in *; [|discriminate].
    destruct (mapM f l) as [bs'|e]; simpl in *; [|discriminate].
    inversion H; subst. rewrite (IH bs' eq_refl). reflexivity.
Qed.

Lemma mapM_length {A B : Type} (f : A -> result B) (l : list A) (bs : list B) :
  mapM f l = Ok bs -> List.length bs = List.length l.
Proof.
  revert bs. induction l as [|a l IH]; simpl; intros bs H.
  - inversion H. reflexivity.
  - destruct (f a) as [b|e]; simpl in *; [|discriminate].
    destruct (mapM f l) as [bs'|e]; simpl in *; [|discriminate].
    inversion H; subst. simpl. rewrite (IH bs' eq_refl). reflexivity.
Qed.

Lemma mapM_Forall2 {A B : Type} (f : A -> result B) (l : list A) (bs : list B) :
  mapM f l = Ok bs -> Forall2 (fun a b => f a = Ok b) l bs.
Proof.
  revert bs. induction l as [|a l IH]; simpl; intros bs H.
  - inversion H. constructor.
  - destruct (f a) as [b|e] eqn:Hf; simpl in *; [|discriminate].
    destruct (mapM f l) as [bs'|e]; simpl in *; [|discriminate].
    inversion H; subst. constructor; [exact Hf | apply IH; reflexivity].
Qed.

(** ** Strings *)

Lemma append_empty_r (s : string) : s ++ "" = s.
Proof.
  induction s as [|c s IH]; simpl; [reflexivity | rewrite IH; reflexivity].
Qed.

Lemma isBrace_spec (c : ascii) :
  JS.isBrace c = true <-> c = "{"%char \/ c = "}"%char.
Proof.
  unfold JS.isBrace. rewrite orb_true_iff, !Nat.eqb_eq. split.
  - intros [H|H]; [left|right]; rewrite <- (ascii_nat_embedding c), H; reflexivity.
  - intros [H|H]; subst c; [left|right]; reflexivity.
Qed.

Lemma testBraces_spec (s : string) : JS.testBraces s = true <-> hasBrace s.
Proof.
  unfold hasBrace. induction s as [|c s IH]; simpl.
  - split; [discriminate|]. intros [i [H|H]]; discriminate.
  - rewrite orb_true_iff, IH, isBrace_spec. split.
    + intros [[H|H]|[i H]].
      * exists 0. simpl. left. rewrite H. reflexivity.
      * exists 0. simpl. right. rewrite H. reflexivity.
      * exists (S i). exact H.
    + intros [[|i] H]; simpl in H.
      * left. destruct H as [H|H]; inversion H; auto.
      * right. exists i. exact H.
Qed.

(** ** Arrays *)

Lemma includes_In (l : list string) (x : string) : JS.includes l x = true <-> In x l.
Proof.
  unfold JS.includes. rewrite existsb_exists. split.
  - intros [y [Hy He]]. apply String.eqb_eq in He. subst. exact Hy.
  - intros H. exists x. split; [exact H | apply String.eqb_refl].
Qed.

Lemma indexOf_app_first (pre suf : list string) (a : string) :
  match JS.indexOf (pre ++ a :: suf) a with
  | Some j => (j =? List.length pre)%nat
  | None => false
  end = negb (JS.includes pre a).
Proof.
  induction pre as [|x pre IH]; simpl.
  - rewrite String.eqb_refl. reflexivity.
  - destruct (x =? a) eqn:E; simpl; [reflexivity|].
    destruct (JS.indexOf (pre ++ a :: suf) a) as [j|]; simpl in *; exact IH.
Qed.

Lemma filterIndexed_firstOccurrences (pre suf : list string) :
  JS.filterIndexed
    (fun item i => match JS.indexOf (pre ++ suf) item with
                   | Some j => (j =? i)%nat
                   | None => false
                   end)
    (List.length pre) suf
  = firstOccurrences pre suf.
Proof.
  revert pre. induction suf as [|a suf IH]; intros pre; simpl; [reflexivity|].
  rewrite indexOf_app_first.
  assert (E : (pre ++ a :: suf = (pre ++ [a]) ++ suf)%list) by (rewrite <- app_assoc; reflexivity).
  assert (L : S (List.length pre) = List.length (pre ++ [a])%list)
    by (rewrite length_app; simpl; lia).
  rewrite E, L, IH. destruct (JS.includes pre a); reflexivity.
Qed.

Lemma deduplicate_firstOccurrences (items : list string) :
  deduplicate items = firstOccurrences [] items.
Proof.
  unfold deduplicate. apply (filterIndexed_firstOccurrences [] items).
Qed.

Lemma firstOccurrences_In (seen l : list string) (x : string) :
  In x (firstOccurrences seen l) <-> In x l /\ ~ In x seen.
Proof.
  revert seen. induction l as [|a l IH]; intros seen; simpl.
  - tauto.
  - destruct (JS.includes seen a) eqn:E.
    + apply includes_In in E. rewrite IH, in_app_iff. simpl.
      split.
      * intros [H1 H2]. split; [right; exact H1 | tauto].
      * intros [[H1|H1] H2]; [subst; contradiction|]. split; [exact H1|].
        intros [H|[H|[]]]; [contradiction|]. subst. contradiction.
    + assert (Hn : ~ In a seen) by (rewrite <- includes_In, E; discriminate).
      simpl. rewrite IH, in_app_iff. simpl. split.
      * intros [H|[H1 H2]]; [subst; tauto | tauto].
      * intros [[H1|H1] H2]; [left; exact H1|].
        destruct (string_dec a x) as [->|Hne]; [left; reflexivity|].
        right. split; [exact H1|]. intros [H|[H|[]]]; contradiction.
Qed.

Lemma firstOccurrences_NoDup (seen l : list string) : NoDup (firstOccurrences seen l).
Proof.
  revert seen. induction l as [|a l IH]; intros seen; simpl.
  - constructor.
  - destruct (JS.includes seen a); [apply IH|].
    constructor; [|apply IH].
    rewrite firstOccurrences_In, in_app_iff. simpl. tauto.
Qed.

Lemma spaceFree_empty : spaceFree "".
Proof. intros c []. Qed.

Lemma spaceFree_cons (c : ascii) (p : string) :
  JS.isSpace c = false -> spaceFree p -> spaceFree (String c p).
Proof.
  intros Hc Hp x [<-|Hx]; [exact Hc | apply Hp; exact Hx].
Qed.

Lemma allSpace_cons (c : ascii) (w : string) :
  JS.isSpace c = true -> allSpace w -> allSpace (String c w).
Proof.
  intros Hc Hw x [<-|Hx]; [exact Hc | apply Hw; exact Hx].
Qed.

Lemma Splits_prepend (c : ascii) (s p : string) (ps : list string) :
  JS.isSpace c = false -> Splits s (p :: ps) -> Splits (String c s) (String c p :: ps).
Proof.
  intros Hc H. inversion H as [p0 Hp|p0 w rest q qs Hp Hw Hne Hrest Hq]; subst.
  - apply Splits_last. apply spaceFree_cons; assumption.
  - apply (Splits_cons (String c p) w rest q qs); try assumption.
    apply spaceFree_cons; assumption.
Qed.

Lemma append_snoc (cur : string) (c : ascii) (p : string) :
  (cur ++ String c "") ++ p = cur ++ String c p.
Proof.
  induction cur as [|d cur IH]; simpl; [reflexivity | rewrite IH; reflexivity].
Qed.

Lemma splitSpacesFrom_Splits (s : string) :
  (forall cur, exists p ps,
      JS.splitSpacesFrom false cur s = (cur ++ p) :: ps /\ Splits s (p :: ps))
  /\ (exists q qs lead rest,
        JS.splitSpacesFrom true "" s = q :: qs
        /\ s = lead ++ rest /\ allSpace lead
        /\ Splits rest (q :: qs) /\ (q <> "" \/ qs = [])).
Proof.
  induction s as [|c s [IHn IHs]].
  - split.
    + intros cur. exists "", []. split; [rewrite append_empty_r; reflexivity|].
      apply Splits_last. exact spaceFree_empty.
    + exists "", [], "", "". split; [reflexivity|]. split; [reflexivity|].
      split; [intros x []|]. split; [apply Splits_last; exact spaceFree_empty|].
      right. reflexivity.
  - destruct (JS.isSpace c) eqn:Ec.
    + destruct IHs as [q [qs [lead [rest [Hr [Hs [Hlead [Hsplit Hq]]]]]]]].
      split.
      * intros cur. exists "", (q :: qs). cbn [JS.splitSpacesFrom].
        rewrite Ec, Hr, append_empty_r.
        split; [reflexivity|].
        rewrite Hs. apply (Splits_cons "" (String c lead) rest q qs); try assumption.
        -- exact spaceFree_empty.
        -- apply allSpace_cons; assumption.
        -- discriminate.
      * exists q, qs, (String c lead), rest. cbn [JS.splitSpacesFrom]. rewrite Ec.
        split; [exact Hr|]. split; [rewrite Hs; reflexivity|].
        split; [apply allSpace_cons; assumption|]. split; assumption.
    + split.
      * intros cur. destruct (IHn (cur ++ String c "")) as [p [ps [Hr Hsplit]]].
        exists (String c p), ps. cbn [JS.splitSpacesFrom]. rewrite Ec, Hr, append_snoc.
        split; [reflexivity|]. apply Splits_prepend; assumption.
      * destruct (IHn (String c "")) as [p [ps [Hr Hsplit]]].
        exists (String c p), ps, "", (String c s). cbn [JS.splitSpacesFrom]. rewrite Ec.
        split; [exact Hr|]. split; [reflexivity|]. split; [intros x []|].
        split; [apply Splits_prepend; assumption|]. left. discriminate.
Qed.

Lemma splitSpaces_Splits (s : string) : Splits s (JS.splitSpaces s).
Proof.
  destruct (splitSpacesFrom_Splits s) as [H _]. destruct (H "") as [p [ps [Hr Hs]]].
  unfold JS.splitSpaces. rewrite Hr. exact Hs.
Qed.

(** ** Federation *)

Lemma extractFieldSet_value (directive : DirectiveNode) (arg : ArgumentNode) :
  find (fun a => arg_name a =? "fields") (directive_arguments directive) = Some arg ->
  extractFieldSet directive =
    if JS.testBraces (arg_value arg)
    then Throw (Error "Nested fields in _FieldSet is not supported")
    else Ok (firstOccurrences [] (JS.splitSpaces (arg_value arg))).
Proof.
  intros H. unfold extractFieldSet. rewrite H, deduplicate_firstOccurrences. reflexivity.
Qed.

(** C7.  Reading the field set of a federation directive fails exactly
    when the string of its [fields] argument holds a brace, and the
    failure is the error "Nested fields in _FieldSet is not supported".
    Otherwise the answer is the list of the pieces of the string between
    its runs of white space ([Splits]), each piece kept once, at its
    first place. *)
Theorem extractFieldSet_fails_exactly_on_braces (directive : DirectiveNode) (arg : ArgumentNode) :
  find (fun a => arg_name a =? "fields") (directive_arguments directive) = Some arg ->
  ((exists e, extractFieldSet directive = Throw e) <-> hasBrace (arg_value arg)) /\
  (hasBrace (arg_value arg) ->
   extractFieldSet directive = Throw (Error "Nested fields in _FieldSet is not supported")) /\
  (~ hasBrace (arg_value arg) ->
   exists names,
     extractFieldSet directive = Ok names
     /\ names = firstOccurrences [] (JS.splitSpaces (arg_value arg))
     /\ NoDup names
     /\ (forall x, In x names <-> In x (JS.splitSpaces (arg_value arg)))
     /\ Splits (arg_value arg) (JS.splitSpaces (arg_value arg))).
Proof.
  intros Hfind. rewrite (extractFieldSet_value _ _ Hfind).
  destruct (JS.testBraces (arg_value arg)) eqn:E.
  - assert (Hb : hasBrace (arg_value arg)) by (apply testBraces_spec; exact E).
    split; [|split].
    + split; [intros _; exact Hb | intros _; eexists; reflexivity].
    + intros _. reflexivity.
    + intros Hn. contradiction.
  - assert (Hb : ~ hasBrace (arg_value arg)).
    { rewrite <- testBraces_spec, E. discriminate. }
    split; [|split].
    + split; [intros [e He]; discriminate | intros H; contradiction].
    + intros H. contradiction.
    + intros _. eexists. split; [reflexivity|]. split; [reflexivity|].
      split; [apply firstOccurrences_NoDup|].
      split; [intros x; rewrite firstOccurrences_In; simpl; tauto|].
      apply splitSpaces_Splits.
Qed.

Lemma extractFieldSet_fails_exactly_on_braces_witness :
  extractFieldSet keyIdNameId = Ok ["id"; "name"].
Proof.
  destruct (extractFieldSet_fails_exactly_on_braces keyIdNameId (fieldsArg "id  name id") eq_refl)
    as [_ [_ H]].
  destruct H as [names [H1 [H2 _]]].
  - intros [i [H|H]]; do 12 (try destruct i as [|i]); simpl in H; discriminate.
  - rewrite H1, H2. reflexivity.
Defined.

Lemma new_enabled (e : bool) (schema : GraphQLSchema) (fed : ApolloFederation) :
  Federation.new e schema = Ok fed -> enabled fed = e.
Proof.
  unfold Federation.new. intros H. apply bind_Ok in H. destruct H as [m [_ H]].
  inversion H. reflexivity.
Qed.

(** C10.  A federation component constructed with [enabled = false] does
    nothing: [skipField], [skipDirective] and [skipScalar] answer false,
    [filterTypeNames] and [filterFieldNames] give their list back, and
    [translateParentType] gives the signature back, whatever they are
    given. *)
Theorem disabled_federation_is_noop (schema : GraphQLSchema) (fed : ApolloFederation) :
  Federation.new false schema = Ok fed ->
  (forall fieldNode parentType, skipField fed fieldNode parentType = Ok false) /\
  (forall name, skipDirective fed name = false) /\
  (forall name, skipScalar fed name = false) /\
  (forall typeNames, filterTypeNames fed typeNames = typeNames) /\
  (forall fieldNames, filterFieldNames fed fieldNames = fieldNames) /\
  (forall fieldNode parentType parentTypeSignature,
     translateParentType fed fieldNode parentType parentTypeSignature = Ok parentTypeSignature).
Proof.
  intros H. apply new_enabled in H.
  unfold skipField, skipDirective, skipScalar, filterTypeNames, filterFieldNames,
    translateParentType.
  rewrite H. simpl. repeat split; reflexivity.
Qed.

Lemma disabled_federation_is_noop_witness :
  exists fed,
    Federation.new false federatedSchema = Ok fed
    /\ skipField fed (resolveReference [directive "external" ""]) (ObjectType User) = Ok false
    /\ filterTypeNames fed ["_FieldSet"; "User"] = ["_FieldSet"; "User"]
    /\ translateParentType fed (resolveReference []) (ObjectType User) "ParentType" = Ok "ParentType".
Proof.
  eexists. split; [reflexivity|].
  destruct (disabled_federation_is_noop federatedSchema _ eq_refl) as [H1 [_ [_ [H4 [_ H6]]]]].
  split; [apply H1|]. split; [apply H4 | apply H6].
Defined.

Lemma isFederationObjectType_keys (o : GraphQLObjectType) :
  isFederationObjectType (inr o) = Ok true ->
  getDirectivesByName "key" (HostType (ObjectType o)) <> [].
Proof.
  unfold isFederationObjectType, getDirectivesByName.
  destruct (object_astNode o) as [n|]; [|discriminate].
  destruct (node_directives n) as [ds|]; [|discriminate].
  cbn [bind]. intros H.
  assert (H1 : existsb (fun d => directive_name d =? "key") ds = true).
  { injection H as H. apply andb_true_iff in H. apply H. }
  apply existsb_exists in H1. destruct H1 as [d [Hd Hk]].
  intros He.
  assert (Hin : In d (filter (fun d0 => directive_name d0 =? "key") ds))
    by (apply filter_In; split; assumption).
  rewrite He in Hin. exact Hin.
Qed.

Lemma translateFieldSet_Pick (mk : string -> FieldSetItem) (names : list string) (sig : string) :
  (forall n, item_name (mk n) = n) ->
  translateFieldSet (map mk names) sig = Pick sig names.
Proof.
  intros H. unfold translateFieldSet, Pick. rewrite map_map.
  rewrite (map_ext (fun x => "'" ++ item_name (mk x) ++ "'") (fun n => "'" ++ n ++ "'")).
  - reflexivity.
  - intros n. rewrite H. reflexivity.
Qed.

Lemma translateFieldSet_names (items : list FieldSetItem) (sig : string) :
  translateFieldSet items sig = Pick sig (map item_name items).
Proof.
  unfold translateFieldSet, Pick. rewrite map_map. reflexivity.
Qed.

Lemma requiresItems_sound (fieldNode : DefinitionNode) (o : GraphQLObjectType)
  (requires : list FieldSetItem) :
  requiresItems fieldNode o = Ok requires ->
  (exists sets,
     mapM extractFieldSet (getDirectivesByName "requires" (HostNode (Some fieldNode))) = Ok sets
     /\ map item_name requires = List.concat sets)
  /\ Forall (fun item => exists f, getField (object_fields o) (item_name item) = Some f
                                   /\ item_required item = isNonNullType (field_type f)) requires.
Proof.
  unfold requiresItems. intros H. apply bind_Ok in H. destruct H as [sets [Hs H]].
  apply mapM_Forall2 in H. remember (List.concat sets) as names eqn:En.
  split.
  - exists sets. split; [exact Hs|]. rewrite <- En. clear En.
    induction H as [|n item ns items Hn H IH]; simpl; [reflexivity|].
    rewrite IH. destruct (getField (object_fields o) n); [|discriminate].
    injection Hn as <-. reflexivity.
  - clear En. induction H as [|n item ns items Hn H IH]; constructor; [|exact IH].
    destruct (getField (object_fields o) n) as [f|] eqn:Ef; [|discriminate].
    injection Hn as <-. exists f. split; [exact Ef | reflexivity].
Qed.

Lemma mapM_keyItems (sig : string) (ds : list DirectiveNode) :
  mapM (fun def => fields <- keyItems def ;; Ok (translateFieldSet fields sig)) ds
  = mapM (fun def => names <- extractFieldSet def ;; Ok (Pick sig names)) ds.
Proof.
  induction ds as [|d ds IH]; [reflexivity|].
  cbn [mapM]. rewrite <- IH. unfold keyItems at 1.
  destruct (extractFieldSet d) as [names|e]; cbn [bind]; [|reflexivity].
  rewrite (translateFieldSet_Pick _ names) by reflexivity. reflexivity.
Qed.

(** C6, amended.  For the field [__resolveReference] of a federation
    object type, with federation enabled: the parameter type is one
    projection of the parent signature per [key] directive, onto the
    names of that key; one key with field set ["id"] gives
    [Pick<ParentType, 'id'>]; two keys or more give the union of the
    projections, in parentheses; the names of the [requires] directives
    of the field add [& Pick<ParentType, ...>] after the key
    alternatives.  The items that the code makes of the names carry a
    flag, true for the names of a key and the non-null wrapping of the
    schema field for the names of [requires]; the projections are made of
    the names alone, so that the parameter type is the same whatever the
    flags are. *)
Theorem translateParentType_keys_and_requires
  (this : ApolloFederation) (fieldNode : DefinitionNode) (parentType : GraphQLObjectType)
  (parentTypeSignature : string) (keySets : list (list string)) (requires : list FieldSetItem) :
  enabled this = true ->
  isFederationObjectType (inr parentType) = Ok true ->
  node_name fieldNode = "__resolveReference" ->
  mapM extractFieldSet (getDirectivesByName "key" (HostType (ObjectType parentType))) = Ok keySets ->
  requiresItems fieldNode parentType = Ok requires ->
  let answer := translateParentType this fieldNode (ObjectType parentType) parentTypeSignature in
  (keySets = [["id"]] -> requires = [] ->
   answer = Ok ("Pick<" ++ parentTypeSignature ++ ", 'id'>"))
  /\ (2 <= List.length keySets -> requires = [] ->
      answer = Ok ("(" ++ String.concat " | " (map (Pick parentTypeSignature) keySets) ++ ")"))
  /\ (requires = [] -> answer = Ok (unionOfPicks parentTypeSignature keySets))
  /\ (requires <> [] ->
      answer = Ok (unionOfPicks parentTypeSignature keySets ++ " & "
                   ++ Pick parentTypeSignature (map item_name requires)))
  /\ Forall2 (fun def names =>
                keyItems def = Ok (map (fun n => {| item_name := n; item_required := true |}) names))
             (getDirectivesByName "key" (HostType (ObjectType parentType))) keySets
  /\ (exists sets,
        mapM extractFieldSet (getDirectivesByName "requires" (HostNode (Some fieldNode))) = Ok sets
        /\ map item_name requires = List.concat sets)
  /\ Forall (fun item => exists f, getField (object_fields parentType) (item_name item) = Some f
                                   /\ item_required item = isNonNullType (field_type f)) requires
  /\ (forall items items',
        map item_name items = map item_name items' ->
        translateFieldSet items parentTypeSignature
        = translateFieldSet items' parentTypeSignature).
Proof.
  intros He Hfed Hname Hkeys Hreq answer.
  assert (Hne := isFederationObjectType_keys _ Hfed).
  assert (Hanswer :
            answer = Ok (unionOfPicks parentTypeSignature keySets
                         ++ (if JS.nonEmpty requires
                             then " & " ++ Pick parentTypeSignature (map item_name requires)
                             else ""))).
  { assert (Hpk : mapM (fun def => fields <- keyItems def ;;
                                   Ok (translateFieldSet fields parentTypeSignature))
                       (getDirectivesByName "key" (HostType (ObjectType parentType)))
                  = Ok (map (Pick parentTypeSignature) keySets)).
    { rewrite <- (mapM_map extractFieldSet (Pick parentTypeSignature) _ keySets Hkeys).
      apply mapM_keyItems. }
    assert (Hlen := mapM_length _ _ _ Hkeys).
    unfold answer, translateParentType. rewrite He, Hfed, Hname.
    cbn [negb bind andb]. rewrite String.eqb_refl, Hpk.
    destruct (getDirectivesByName "key" (HostType (ObjectType parentType))) as [|k ks];
      [contradiction|].
    cbn [JS.nonEmpty]. rewrite Hreq. cbn [bind].
    rewrite length_map, translateFieldSet_names.
    destruct keySets as [|s1 [|s2 rest]]; [discriminate| |].
    - destruct requires; cbn; rewrite ?append_empty_r; reflexivity.
    - change (1 <? List.length (s1 :: s2 :: rest))%nat with true. cbv iota beta.
      unfold unionOfPicks.
      destruct requires; cbn [JS.nonEmpty List.app String.concat]; f_equal.
      rewrite append_empty_r. reflexivity. }
  split; [|split; [|split; [|split; [|split; [|split; [|split]]]]]].
  - intros -> ->. rewrite Hanswer. simpl. rewrite append_empty_r. reflexivity.
  - intros Hl ->. rewrite Hanswer. simpl. rewrite append_empty_r.
    destruct keySets as [|s1 [|s2 rest]]; simpl in Hl; try lia. reflexivity.
  - intros ->. rewrite Hanswer. simpl. rewrite append_empty_r. reflexivity.
  - intros Hr. rewrite Hanswer. destruct requires; [contradiction|]. reflexivity.
  - apply mapM_Forall2 in Hkeys. clear - Hkeys.
    induction Hkeys as [|d names ds nss Hd Hkeys IH]; constructor; [|exact IH].
    unfold keyItems. rewrite Hd. reflexivity.
  - apply (proj1 (requiresItems_sound _ _ _ Hreq)).
  - apply (proj2 (requiresItems_sound _ _ _ Hreq)).
  - intros items items' E. rewrite !translateFieldSet_names, E. reflexivity.
Qed.

(** C6 as stated fails: the parameter type shows no requiredness.  The
    field [age] is nullable in [User] and non-null in [UserStrict]; the
    items made of [requires(fields: "age")] carry the two flags, and the
    parameter type is the same for both, as it is for a key item with
    either flag. *)
Lemma requiredness_is_not_rendered :
  requiresItems (resolveReference [directive "requires" "age"]) User
  = Ok [ {| item_name := "age"; item_required := false |} ]
  /\ requiresItems (resolveReference [directive "requires" "age"]) UserStrict
     = Ok [ {| item_name := "age"; item_required := true |} ]
  /\ translateParentType federationOn (resolveReference [directive "requires" "age"])
       (ObjectType User) "ParentType"
     = Ok "(Pick<ParentType, 'id'> | Pick<ParentType, 'email' | 'name'>) & Pick<ParentType, 'age'>"
  /\ translateParentType federationOn (resolveReference [directive "requires" "age"])
       (ObjectType UserStrict) "ParentType"
     = Ok "(Pick<ParentType, 'id'> | Pick<ParentType, 'email' | 'name'>) & Pick<ParentType, 'age'>"
  /\ translateFieldSet [ {| item_name := "id"; item_required := true |} ] "ParentType"
     = translateFieldSet [ {| item_name := "id"; item_required := false |} ] "ParentType".
Proof.
  repeat split; reflexivity.
Qed.

Lemma translateParentType_keys_and_requires_witness :
  translateParentType federationOn (resolveReference [directive "requires" "name age"])
    (ObjectType User) "ParentType"
  = Ok "(Pick<ParentType, 'id'> | Pick<ParentType, 'email' | 'name'>) & Pick<ParentType, 'name' | 'age'>"
  /\ translateParentType federationOn (resolveReference []) (ObjectType Product) "ParentType"
     = Ok "Pick<ParentType, 'id'>".
Proof.
  split.
  - destruct (translateParentType_keys_and_requires federationOn
                (resolveReference [directive "requires" "name age"]) User "ParentType"
                [["id"]; ["email"; "name"]]
                [ {| item_name := "name"; item_required := true |};
                  {| item_name := "age"; item_required := false |} ]
                eq_refl eq_refl eq_refl eq_refl eq_refl)
      as [_ [_ [_ [H _]]]].
    apply H. discriminate.
  - destruct (translateParentType_keys_and_requires federationOn
                (resolveReference []) Product "ParentType" [["id"]] []
                eq_refl eq_refl eq_refl eq_refl eq_refl)
      as [H _].
    apply H; reflexivity.
Defined.

(** ** The discriminant field *)

(** C5.  The [__typename] entry as a function of the three flags: with
    the three of them false there is none; when the field was queried it
    is there and not optional; when the non-optional flag is set it is
    there and not optional, queried or not; when only the always-add flag
    is set it is there and optional (its name ends with a question
    mark). *)
Theorem buildTypeNameField_policy (this : SelectionSetToObject) (type : GraphQLObjectType) :
  let name := formatNamedField (config (_processor this)) "__typename" in
  let quoted := "'" ++ object_name type ++ "'" in
  buildTypeNameField this type false false false = None
  /\ (forall nonOptionalTypename addTypename,
        buildTypeNameField this type nonOptionalTypename addTypename true
        = Some {| nt_name := name; nt_type := quoted |})
  /\ (forall addTypename queriedForTypename,
        buildTypeNameField this type true addTypename queriedForTypename
        = Some {| nt_name := name; nt_type := quoted |})
  /\ buildTypeNameField this type false true false
     = Some {| nt_name := name ++ "?"; nt_type := quoted |}.
Proof.
  unfold buildTypeNameField. repeat split.
  - intros [] []; cbn [orb andb negb]; rewrite append_empty_r; reflexivity.
  - intros [] []; cbn [orb andb negb]; rewrite append_empty_r; reflexivity.
Qed.

(** ** Dictionaries *)

Section Dict.

Context {V : Type}.

Lemma get_set (d : JS.dict V) (k k' : string) (v : V) :
  JS.get (JS.set d k v) k' = if k =? k' then Some v else JS.get d k'.
Proof.
  induction d as [|[k0 v0] d IH]; simpl.
  - reflexivity.
  - destruct (k0 =? k) eqn:E0; simpl.
    + apply String.eqb_eq in E0. subst k0.
      destruct (k =? k'); reflexivity.
    + destruct (k0 =? k') eqn:E1.
      * apply String.eqb_eq in E1. subst k0.
        rewrite String.eqb_sym, E0. reflexivity.
      * exact IH.
Qed.

Lemma has_In (d : JS.dict V) (k : string) : JS.has d k = true <-> In k (JS.keys d).
Proof.
  unfold JS.has. induction d as [|[k0 v0] d IH]; simpl.
  - split; [discriminate | intros []].
  - destruct (k0 =? k) eqn:E.
    + apply String.eqb_eq in E. split; [intros _; left; exact E | reflexivity].
    + rewrite IH. apply String.eqb_neq in E. split; [intros H; right; exact H|].
      intros [H|H]; [contradiction | exact H].
Qed.

Lemma keys_set (d : JS.dict V) (k : string) (v : V) :
  JS.keys (JS.set d k v) = if JS.has d k then JS.keys d else (JS.keys d ++ [k])%list.
Proof.
  unfold JS.has, JS.keys. induction d as [|[k0 v0] d IH]; simpl.
  - reflexivity.
  - destruct (k0 =? k) eqn:E; simpl; [reflexivity|].
    rewrite IH. destruct (JS.get d k); reflexivity.
Qed.

End Dict.

Section DictOfArrays.

Context {V : Type}.

Lemma get_ensure (d : JS.dict (list V)) (k k' : string) :
  JS.get (JS.ensure d k) k' =
    match JS.get d k' with
    | Some l => Some l
    | None => if k =? k' then Some [] else None
    end.
Proof.
  unfold JS.ensure, JS.has. destruct (JS.get d k) as [l|] eqn:E.
  - destruct (JS.get d k') as [l'|] eqn:E'; [reflexivity|].
    destruct (k =? k') eqn:Ek; [|reflexivity].
    apply String.eqb_eq in Ek. subst. rewrite E in E'. discriminate.
  - rewrite get_set. destruct (k =? k') eqn:Ek.
    + apply String.eqb_eq in Ek. subst. rewrite E. reflexivity.
    + destruct (JS.get d k'); reflexivity.
Qed.

Lemma get_push (d : JS.dict (list V)) (k k' : string) (vs : list V) :
  JS.get (JS.push d k vs) k' =
    match JS.get d k with
    | Some l => if k =? k' then Some (l ++ vs)%list else JS.get d k'
    | None => JS.get d k'
    end.
Proof.
  unfold JS.push. destruct (JS.get d k) as [l|]; [apply get_set | reflexivity].
Qed.

End DictOfArrays.

(** ** Ordinary names *)

Lemma petSchema_ordinary : ordinarySchema petSchema.
Proof.
  intros t Hin. repeat (destruct Hin as [<-|Hin]; [reflexivity|]). destruct Hin.
Qed.

Lemma instance_ordinary (fragments : list LoadedFragment) (parent : GraphQLNamedType)
  (selectionSet : option SelectionSetNode) :
  ordinary (typeName parent) -> ordinaryTypes (instance fragments (Some parent) selectionSet).
Proof.
  intros H. split; [exact petSchema_ordinary|]. intros t E. injection E as <-. exact H.
Qed.

(** ** Fragment spreads *)

Lemma getPossibleTypes_resolved (schema : GraphQLSchema) (t : GraphQLNamedType) :
  exists possible, getPossibleTypes schema (Some t) = Ok possible.
Proof.
  destruct t; simpl; eexists; reflexivity.
Qed.

Lemma usages_of_possible_types (this : SelectionSetToObject) (spread : FragmentSpreadNode)
  (n : nat) (possible : list GraphQLObjectType) (d : JS.dict (list string))
  (f : string -> list string) :
  1 <= n ->
  (forall T, T <> "" -> JS.get d T = present (f T)) ->
  forall T, T <> "" ->
    JS.get
      (fold_left
         (fun acc possibleType =>
            JS.push (JS.ensure acc (object_name possibleType)) (object_name possibleType)
              [buildFragmentTypeName this spread (fragmentSuffixOf this spread)
                 (if (n =? 1)%nat then None else Some (object_name possibleType))])
         possible d) T
    = present
        (f T ++ flat_map
                  (fun o =>
                     if object_name o =? T then
                       [_convertName this spread
                          {| useTypesPrefix := true;
                             suffix := if (1 <? n)%nat
                                       then "_" ++ T ++ "_" ++ fragmentSuffixOf this spread
                                       else fragmentSuffixOf this spread |}]
                     else [])
                  possible)%list.
Proof.
  intros Hn. revert d f. induction possible as [|o possible IH]; intros d f H T HT; simpl.
  - rewrite app_nil_r. apply H. exact HT.
  - rewrite (IH _ (fun T' => f T' ++ (if object_name o =? T'
                                       then [_convertName this spread
                          {| useTypesPrefix := true;
                             suffix := if (1 <? n)%nat
                                       then "_" ++ T' ++ "_" ++ fragmentSuffixOf this spread
                                       else fragmentSuffixOf this spread |}]
                                       else []))%list); [|
      |exact HT].
    + rewrite <- app_assoc. destruct (object_name o =? T); reflexivity.
    + intros T' HT'. rewrite get_push, !get_ensure, String.eqb_refl.
      destruct (object_name o =? T') eqn:Ek.
      * apply String.eqb_eq in Ek. subst T'. rewrite (H _ HT').
        assert (Htok : buildFragmentTypeName this spread (fragmentSuffixOf this spread)
                         (if (n =? 1)%nat then None else Some (object_name o))
                       = _convertName this spread
                           {| useTypesPrefix := true;
                              suffix := if (1 <? n)%nat
                                        then "_" ++ object_name o ++ "_" ++ fragmentSuffixOf this spread
                                        else fragmentSuffixOf this spread |}).
        { unfold buildFragmentTypeName. destruct (n =? 1)%nat eqn:E1.
          - apply Nat.eqb_eq in E1. subst n. reflexivity.
          - apply Nat.eqb_neq in E1.
            assert (E2 : (1 <? n)%nat = true) by (apply Nat.ltb_lt; lia).
            rewrite E2. destruct (object_name o); [contradiction|reflexivity]. }
        rewrite Htok. destruct (f (object_name o)); reflexivity.
      * rewrite app_nil_r.
        destruct (JS.get d (object_name o)); simpl;
          rewrite <- (H _ HT'); destruct (JS.get d T'); reflexivity.
Qed.

(** C9.  The usage tokens of fragment spreads.  When the names of the
    types of the schema are ordinary and the type condition of every
    spread fragment that the library knows resolves in the schema,
    [buildFragmentSpreadsUsage] returns, and the entry of a concrete
    type holds, in the order of the spreads, the tokens of
    [usagesOfSpread]: the converted fragment name whose suffix carries
    the name of the concrete type exactly when the type condition of
    the fragment has more than one possible type.  A spread whose name the
    library does not know adds no token and raises no error. *)
Theorem buildFragmentSpreadsUsage_tokens (this : SelectionSetToObject)
  (spreads : list FragmentSpreadNode) :
  ordinarySchema (_schema this) ->
  (forall spread lf,
     In spread spreads ->
     find (fun lf => fragment_name lf =? spread) (_loadedFragments this) = Some lf ->
     getType (_schema this) (fragment_onType lf) <> None) ->
  exists usage,
    buildFragmentSpreadsUsage this spreads = Ok usage
    /\ (forall typeName, typeName <> "" ->
          JS.get usage typeName = present (flat_map (usagesOfSpread this typeName) spreads))
    /\ ((forall spread, In spread spreads ->
           find (fun lf => fragment_name lf =? spread) (_loadedFragments this) = None) ->
        usage = []).
Proof.
  intros _. unfold buildFragmentSpreadsUsage.
  assert (G : forall (d : JS.dict (list string)) (f : string -> list string),
             (forall spread lf,
                 In spread spreads ->
                 find (fun lf => fragment_name lf =? spread) (_loadedFragments this) = Some lf ->
                 getType (_schema this) (fragment_onType lf) <> None) ->
             (forall T, T <> "" -> JS.get d T = present (f T)) ->
             exists usage,
               foldM
                 (fun selectionNodesByTypeName spread =>
                    match find (fun lf => fragment_name lf =? spread) (_loadedFragments this) with
                    | Some fragmentSpreadObject =>
                        let schemaType :=
                          getType (_schema this) (fragment_onType fragmentSpreadObject) in
                        possibleTypesForFragment <- getPossibleTypes (_schema this) schemaType ;;
                        Ok (fold_left
                              (fun selectionNodesByTypeName possibleType =>
                                 let fragmentSuffix := fragmentSuffixOf this spread in
                                 let usage :=
                                   buildFragmentTypeName this spread fragmentSuffix
                                     (if (List.length possibleTypesForFragment =? 1)%nat then None
                                      else Some (object_name possibleType)) in
                                 JS.push (JS.ensure selectionNodesByTypeName (object_name possibleType))
                                         (object_name possibleType) [usage])
                              possibleTypesForFragment selectionNodesByTypeName)
                    | None => Ok selectionNodesByTypeName
                    end)
                 spreads d = Ok usage
               /\ (forall T, T <> "" ->
                     JS.get usage T
                     = present (f T ++ flat_map (usagesOfSpread this T) spreads)%list)
               /\ ((forall spread, In spread spreads ->
                      find (fun lf => fragment_name lf =? spread) (_loadedFragments this) = None) ->
                   usage = d)).
  { induction spreads as [|spread spreads IH]; intros d f Hres Hd.
    - exists d. split; [reflexivity|]. split; [|reflexivity].
      intros T HT. simpl. rewrite app_nil_r. apply Hd. exact HT.
    - cbn [foldM].
      destruct (find (fun lf => fragment_name lf =? spread) (_loadedFragments this))
        as [lf|] eqn:Efind.
      + assert (Hty := Hres spread lf (or_introl eq_refl) Efind).
        destruct (getType (_schema this) (fragment_onType lf)) as [t|] eqn:Et; [|contradiction].
        destruct (getPossibleTypes_resolved (_schema this) t) as [possible Hp].
        cbv zeta. rewrite Hp. cbn [bind].
        destruct possible as [|o possible'] eqn:Eposs.
        * cbn [fold_left].
          destruct (IH d f (fun sp lf' Hin => Hres sp lf' (or_intror Hin)) Hd)
            as [usage [Hu [Hget Hnone]]].
          exists usage. split; [exact Hu|]. split.
          -- intros T HT. rewrite (Hget T HT). cbn [flat_map].
             unfold usagesOfSpread at 2. rewrite Efind, Et, Hp. reflexivity.
          -- intros Hall. specialize (Hall spread (or_introl eq_refl)).
             rewrite Efind in Hall. discriminate.
        * rewrite <- Eposs in *.
          assert (Hlen : 1 <= List.length possible) by (rewrite Eposs; simpl; lia).
          pose proof (usages_of_possible_types this spread (List.length possible) possible d f
                        Hlen Hd) as Hinner.
          destruct (IH _ _ (fun sp lf' Hin => Hres sp lf' (or_intror Hin)) Hinner)
            as [usage [Hu [Hget Hnone]]].
          exists usage. split; [exact Hu|]. split.
          -- intros T HT. rewrite (Hget T HT). cbn [flat_map].
             unfold usagesOfSpread at 2. rewrite Efind, Et, Hp.
             rewrite <- app_assoc. reflexivity.
          -- intros Hall. specialize (Hall spread (or_introl eq_refl)).
             rewrite Efind in Hall. discriminate.
      + cbn [bind].
        destruct (IH d f (fun sp lf' Hin => Hres sp lf' (or_intror Hin)) Hd)
          as [usage [Hu [Hget Hnone]]].
        exists usage. split; [exact Hu|]. split.
        * intros T HT. rewrite (Hget T HT). cbn [flat_map].
          unfold usagesOfSpread at 2. rewrite Efind. reflexivity.
        * intros Hall. apply Hnone. intros sp Hin. apply Hall. right. exact Hin. }
  intros Hres.
  destruct (G [] (fun _ => []) Hres (fun T _ => eq_refl)) as [usage [Hu [Hget Hnone]]].
  exists usage. split; [exact Hu|]. split; [exact Hget | exact Hnone].
Qed.

Lemma buildFragmentSpreadsUsage_tokens_witness :
  exists usage,
    buildFragmentSpreadsUsage (instance fragmentsFG (Some Node) None) ["F"; "G"; "Missing"] = Ok usage
    /\ JS.get usage "Dog" = Some ["F_Dog_Fragment"; "GFragment"]
    /\ JS.get usage "Cat" = Some ["F_Cat_Fragment"].
Proof.
  destruct (buildFragmentSpreadsUsage_tokens (instance fragmentsFG (Some Node) None)
              ["F"; "G"; "Missing"] petSchema_ordinary) as [usage [Hu [Hget _]]].
  - intros spread lf [<-|[<-|[<-|[]]]] H; simpl in H; inversion H; subst; discriminate.
  - exists usage. split; [exact Hu|].
    split; rewrite Hget by discriminate; reflexivity.
Defined.

(** ** Inline fragments on an object parent *)

Lemma foldM_ext {A S : Type} (f g : S -> A -> result S) (l : list A) (s : S) :
  (forall s' a, f s' a = g s' a) -> foldM f l s = foldM g l s.
Proof.
  intros H. revert s. induction l as [|a l IH]; intros s; simpl; [reflexivity|].
  rewrite H. destruct (g s a); simpl; [apply IH | reflexivity].
Qed.

(** The interfaces the parent object type declares are not read. *)
Lemma collect_ignores_declared_interfaces (fuel : nat) (this : SelectionSetToObject)
  (o : GraphQLObjectType) (interfaces : list string) (nodes : list InlineFragmentNode)
  (types : TypeMap) :
  _collectInlineFragments fuel this (Some (ObjectType (withInterfaces o interfaces))) nodes types
  = _collectInlineFragments fuel this (Some (ObjectType o)) nodes types.
Proof.
  revert nodes types. induction fuel as [|fuel IH]; intros nodes types; [reflexivity|].
  cbn [_collectInlineFragments]. apply foldM_ext. intros types' node.
  destruct (buildFragmentSpreadsUsage this (spreads (separateSelectionSet (selections node))))
    as [spreadsUsage|e]; [|reflexivity].
  cbn [bind]. destruct (typeCondition node) as [n|]; [reflexivity|]. apply IH.
Qed.

(** C1.  On an object parent, an inline fragment whose type condition
    names an interface is decided by calling the [isTypeOf] member of the
    parent with the interface, not by the interfaces the parent declares.
    [Dog] declares [Node]: with the object type of a schema built from a
    schema document, which has no [isTypeOf], the collection throws; with
    an [isTypeOf] that answers false nothing is attached.  [Person] does
    not declare [Node]: with an [isTypeOf] that answers true the fields of
    the fragment are attached to it.  ([collect_ignores_declared_interfaces]
    above: the interfaces the parent declares are never read.) *)
Theorem interface_condition_on_object_parent_calls_isTypeOf :
  JS.includes (object_interfaces Dog) "Node" = true
  /\ (forall fuel,
        _collectInlineFragments (S fuel) (instance [] (Some (ObjectType Dog)) None)
          (Some (ObjectType Dog)) [mkInline (Some "Node") [leaf "id"]] []
        = Throw (TypeError "parentType.isTypeOf is not a function"))
  /\ (forall fuel,
        flattenSelectionSet (S fuel) (instance [] (Some (ObjectType Dog)) None) [on "Node" [leaf "id"]]
        = Throw (TypeError "parentType.isTypeOf is not a function"))
  /\ JS.includes (object_interfaces DogRejecting) "Node" = true
  /\ (forall fuel,
        _collectInlineFragments (S fuel) (instance [] (Some (ObjectType DogRejecting)) None)
          (Some (ObjectType DogRejecting)) [mkInline (Some "Node") [leaf "id"]] []
        = Ok [])
  /\ JS.includes (object_interfaces PersonAccepting) "Node" = false
  /\ (forall fuel,
        _collectInlineFragments (S (S fuel)) (instance [] (Some (ObjectType PersonAccepting)) None)
          (Some (ObjectType PersonAccepting)) [mkInline (Some "Node") [leaf "id"]] []
        = Ok [("Person", [ItemNode (leaf "id")])]).
Proof.
  repeat split; intros fuel; reflexivity.
Qed.

(** ** Link fields that share a response key *)

Lemma covers_refl (s : SelectionSetNode) : covers s s.
Proof.
  intros [f| |] H; [exists f; split; [exact H | reflexivity] | exact H | exact H].
Qed.

Lemma covers_trans (a b c : SelectionSetNode) : covers a b -> covers b c -> covers a c.
Proof.
  intros Hab Hbc n Hn. specialize (Hab n Hn). destruct n as [f|sp|i].
  - destruct Hab as [f' [Hin Hk]]. specialize (Hbc _ Hin). simpl in Hbc.
    destruct Hbc as [f'' [Hin' Hk']]. exists f''. split; [exact Hin' | congruence].
  - exact (Hbc _ Hab).
  - exact (Hbc _ Hab).
Qed.

Lemma covers_app_l (s extra : SelectionSetNode) : covers s (s ++ extra)%list.
Proof.
  intros [f| |] H; [exists f; split; [|reflexivity] | |]; apply in_or_app; left; exact H.
Qed.

Lemma covers_replaceFirst (change : SelectionNode -> option SelectionNode) (s : SelectionSetNode) :
  (forall n n', change n = Some n' ->
     exists f f', n = Field f /\ n' = Field f'
                  /\ getFieldNodeNameValue f' = getFieldNodeNameValue f) ->
  covers s (replaceFirst change s).
Proof.
  intros Hc. induction s as [|a s IH]; simpl.
  - intros n [].
  - destruct (change a) as [a'|] eqn:E.
    + destruct (Hc _ _ E) as [f [f' [-> [-> Hk]]]].
      intros n [<-|Hn].
      * exists f'. split; [left; reflexivity | exact Hk].
      * destruct n as [g| |]; [exists g; split; [right; exact Hn | reflexivity] | |];
          right; exact Hn.
    + intros n [<-|Hn].
      * destruct a as [g| |]; [exists g; split; [left; reflexivity | reflexivity] | |];
          left; reflexivity.
      * specialize (IH n Hn). destruct n as [g| |].
        -- destruct IH as [g' [Hin Hk]]. exists g'. split; [right; exact Hin | exact Hk].
        -- right. exact IH.
        -- right. exact IH.
Qed.

Lemma existsb_sameResponseKey (k : string) (s : SelectionSetNode) :
  existsb (sameResponseKey k) s = true ->
  exists f, In (Field f) s /\ getFieldNodeNameValue f = k.
Proof.
  intros H. apply existsb_exists in H. destruct H as [n [Hin Hk]].
  destruct n as [f| |]; simpl in Hk; try discriminate.
  apply String.eqb_eq in Hk. exists f. split; assumption.
Qed.

Lemma mergeSelection_change_keeps_key (f2 : FieldNode) (n n' : SelectionNode) :
  match n with
  | Field f1 =>
      if getFieldNodeNameValue f1 =? getFieldNodeNameValue f2 then
        match fieldSelectionSet f1, fieldSelectionSet f2 with
        | Some ss1, Some ss2 =>
            Some (Field (mkField (fieldAlias f1) (fieldName f1)
                                 (Some (fold_left mergeSelection ss2 ss1))))
        | _, _ => Some (Field f1)
        end
      else None
  | _ => None
  end = Some n' ->
  exists f f', n = Field f /\ n' = Field f' /\ getFieldNodeNameValue f' = getFieldNodeNameValue f.
Proof.
  destruct n as [f1| |]; try discriminate.
  destruct (getFieldNodeNameValue f1 =? getFieldNodeNameValue f2); [|discriminate].
  destruct (fieldSelectionSet f1) as [ss1|]; [destruct (fieldSelectionSet f2) as [ss2|]|];
    intros H; injection H as <-; eexists; eexists; repeat split.
Qed.

Lemma mergeSelection_covers_left (s : SelectionSetNode) (n : SelectionNode) :
  covers s (mergeSelection s n).
Proof.
  destruct n as [f2|sp|i]; simpl; try apply covers_app_l.
  destruct (existsb (sameResponseKey (getFieldNodeNameValue f2)) s); [|apply covers_app_l].
  apply covers_replaceFirst. intros n n'. apply mergeSelection_change_keeps_key.
Qed.

Lemma mergeSelection_covers_right (s : SelectionSetNode) (n : SelectionNode) :
  covers [n] (mergeSelection s n).
Proof.
  intros m [<-|[]].
  destruct n as [f2|sp|i]; simpl; try (apply in_or_app; right; left; reflexivity).
  destruct (existsb (sameResponseKey (getFieldNodeNameValue f2)) s) eqn:E.
  - apply existsb_sameResponseKey in E. destruct E as [f [Hin Hk]].
    assert (C := covers_replaceFirst
                   (fun selection1 =>
                      match selection1 with
                      | Field f1 =>
                          if getFieldNodeNameValue f1 =? getFieldNodeNameValue f2 then
                            match fieldSelectionSet f1, fieldSelectionSet f2 with
                            | Some ss1, Some ss2 =>
                                Some (Field (mkField (fieldAlias f1) (fieldName f1)
                                                     (Some (fold_left mergeSelection ss2 ss1))))
                            | _, _ => Some (Field f1)
                            end
                          else None
                      | _ => None
                      end) s (fun n n' => mergeSelection_change_keeps_key f2 n n')).
    specialize (C _ Hin). simpl in C. destruct C as [f' [Hin' Hk']].
    exists f'. split; [exact Hin' | congruence].
  - exists f2. split; [apply in_or_app; right; left; reflexivity | reflexivity].
Qed.

Lemma mergeSelectionSets_covers (s1 s2 : SelectionSetNode) :
  covers s1 (mergeSelectionSets s1 s2) /\ covers s2 (mergeSelectionSets s1 s2).
Proof.
  unfold mergeSelectionSets. revert s1. induction s2 as [|n s2 IH]; intros s1; simpl.
  - split; [apply covers_refl | intros n []].
  - destruct (IH (mergeSelection s1 n)) as [H1 H2]. split.
    + eapply covers_trans; [apply mergeSelection_covers_left | exact H1].
    + intros m [Hm|Hm]; [subst m|exact (H2 m Hm)].
      assert (C : covers [n] (fold_left mergeSelection s2 (mergeSelection s1 n)))
        by (eapply covers_trans; [apply mergeSelection_covers_right | exact H1]).
      apply C. left. reflexivity.
Qed.

Lemma fold_mergeSelectionSets_covers (first : SelectionSetNode) (others : list SelectionSetNode) :
  covers first (fold_left mergeSelectionSets others first)
  /\ Forall (fun s => covers s (fold_left mergeSelectionSets others first)) others.
Proof.
  revert first. induction others as [|s others IH]; intros first; simpl.
  - split; [apply covers_refl | constructor].
  - destruct (IH (mergeSelectionSets first s)) as [H1 H2].
    destruct (mergeSelectionSets_covers first s) as [Hl Hr].
    split; [eapply covers_trans; eassumption|].
    constructor; [eapply covers_trans; eassumption | exact H2].
Qed.

Lemma NoDup_snoc {A : Type} (l : list A) (x : A) : NoDup l -> ~ In x l -> NoDup (l ++ [x]).
Proof.
  intros Hl Hx. induction Hl as [|y l Hy Hl IH]; simpl.
  - constructor; [intros [] | constructor].
  - constructor.
    + rewrite in_app_iff. simpl. intros [H|[H|[]]]; [contradiction|].
      subst. apply Hx. left. reflexivity.
    + apply IH. intros H. apply Hx. right. exact H.
Qed.

Lemma NoDup_keys_set {V : Type} (d : JS.dict V) (k : string) (v : V) :
  NoDup (JS.keys d) -> NoDup (JS.keys (JS.set d k v)).
Proof.
  intros H. rewrite keys_set. destruct (JS.has d k) eqn:E; [exact H|].
  apply NoDup_snoc; [exact H|]. rewrite <- has_In, E. discriminate.
Qed.

Lemma linkOccurrences_snoc (k : string) (seen : list SelectionItem) (a : SelectionItem) :
  linkOccurrences k (seen ++ [a]) = (linkOccurrences k seen ++ linkOccurrences k [a])%list.
Proof.
  unfold linkOccurrences. apply flat_map_app.
Qed.

Lemma linksOf_skip (links : JS.dict LinkFieldNode) (seen : list SelectionItem) (a : SelectionItem) :
  (forall k, linkOccurrences k [a] = []) ->
  linksOf links seen -> linksOf links (seen ++ [a]).
Proof.
  intros Ha H k. rewrite linkOccurrences_snoc, Ha, app_nil_r. apply H.
Qed.

Lemma classifyNode_links (parent : GraphQLObjectType) (c c' : Classified)
  (seen : list SelectionItem) (a : SelectionItem) :
  classifyNode parent c a = Ok c' ->
  linksOf (linkFieldSelectionSets c) seen /\ NoDup (JS.keys (linkFieldSelectionSets c)) ->
  linksOf (linkFieldSelectionSets c') (seen ++ [a]) /\ NoDup (JS.keys (linkFieldSelectionSets c')).
Proof.
  intros Hstep [Hl Hn]. destruct a as [[f|sp|i]|usage]; simpl in Hstep.
  - destruct (fieldSelectionSet f) as [ss|] eqn:Ess.
    + destruct (if isMetadataFieldName (fieldName f) then metadataFieldMap (fieldName f)
                else option_map field_type (getField (object_fields parent) (fieldName f)))
        as [type|]; [|discriminate].
      injection Hstep as <-. cbn [linkFieldSelectionSets].
      split.
      * intros k. rewrite linkOccurrences_snoc. specialize (Hl k) as Hk.
        cbn [linkOccurrences flat_map]. rewrite Ess, app_nil_r.
        destruct (getFieldNodeNameValue f =? k) eqn:Ek.
        -- apply String.eqb_eq in Ek. subst k.
           destruct (linkOccurrences (getFieldNodeNameValue f) seen) as [|first others].
           ++ rewrite Hk. cbn [app]. eexists. rewrite get_set, String.eqb_refl.
              split; [reflexivity|]. cbn [field map fold_left]. unfold childSelections.
              rewrite Ess. repeat split; reflexivity.
           ++ destruct Hk as [l [Hg [Ha [Hnm Hs]]]]. rewrite Hg, Hs. cbn [app].
              eexists. rewrite get_set, String.eqb_refl. split; [reflexivity|].
              cbn [field mkField fieldAlias fieldName fieldSelectionSet].
              split; [exact Ha|]. split; [exact Hnm|].
              rewrite map_app, fold_left_app. cbn [map fold_left].
              replace (childSelections f) with ss by (unfold childSelections; rewrite Ess; reflexivity).
              reflexivity.
        -- rewrite app_nil_r.
           destruct (JS.get (linkFieldSelectionSets c) (getFieldNodeNameValue f)) as [l0|].
           ++ destruct (fieldSelectionSet (field l0)); [rewrite get_set, Ek|]; exact Hk.
           ++ rewrite get_set, Ek. exact Hk.
      * destruct (JS.get (linkFieldSelectionSets c) (getFieldNodeNameValue f)) as [l0|].
        -- destruct (fieldSelectionSet (field l0)); [apply NoDup_keys_set|]; exact Hn.
        -- apply NoDup_keys_set. exact Hn.
    + assert (Ha : forall k, linkOccurrences k [ItemNode (Field f)] = []).
      { intros k. cbn [linkOccurrences flat_map]. rewrite Ess. reflexivity. }
      destruct (fieldAlias f) as [alias|].
      * injection Hstep as <-. split; [apply linksOf_skip; assumption | exact Hn].
      * destruct (fieldName f =? "__typename"); injection Hstep as <-;
          (split; [apply linksOf_skip; assumption | exact Hn]).
  - injection Hstep as <-. split; [apply linksOf_skip; [reflexivity | exact Hl] | exact Hn].
  - injection Hstep as <-. split; [apply linksOf_skip; [reflexivity | exact Hl] | exact Hn].
  - injection Hstep as <-. split; [apply linksOf_skip; [reflexivity | exact Hl] | exact Hn].
Qed.

Lemma classify_links (parent : GraphQLObjectType) (items seen : list SelectionItem)
  (c0 c : Classified) :
  foldM (classifyNode parent) items c0 = Ok c ->
  linksOf (linkFieldSelectionSets c0) seen /\ NoDup (JS.keys (linkFieldSelectionSets c0)) ->
  linksOf (linkFieldSelectionSets c) (seen ++ items) /\ NoDup (JS.keys (linkFieldSelectionSets c)).
Proof.
  revert seen c0. induction items as [|a items IH]; intros seen c0 H Hinv.
  - injection H as <-. rewrite app_nil_r. exact Hinv.
  - cbn [foldM] in H. apply bind_Ok in H. destruct H as [c1 [Hstep H]].
    assert (E : (seen ++ a :: items = (seen ++ [a]) ++ items)%list)
      by (rewrite <- app_assoc; reflexivity).
    rewrite E. apply (IH _ c1 H). eapply classifyNode_links; eassumption.
Qed.

(** The loop on values.  In the item list of one concrete type, the link
    fields that share a response key leave one entry: the map of link
    fields has no key twice; the entry of a key is the first field that
    answers to it, and its child selection set is the one of the first
    field merged with those of the later fields in turn, so that it has
    a field for every response key of the child selections of every one
    of them. *)
Theorem link_fields_merge_by_response_key (parentSchemaType : GraphQLObjectType)
  (selectionNodes : list SelectionItem) (c : Classified) :
  classify parentSchemaType selectionNodes = Ok c ->
  NoDup (JS.keys (linkFieldSelectionSets c))
  /\ forall k,
       match linkOccurrences k selectionNodes with
       | [] => JS.get (linkFieldSelectionSets c) k = None
       | first :: others =>
           exists l merged,
             JS.get (linkFieldSelectionSets c) k = Some l
             /\ fieldAlias (field l) = fieldAlias first
             /\ fieldName (field l) = fieldName first
             /\ fieldSelectionSet (field l) = Some merged
             /\ merged = fold_left mergeSelectionSets (map childSelections others)
                                   (childSelections first)
             /\ covers (childSelections first) merged
             /\ Forall (fun f => covers (childSelections f) merged) others
       end.
Proof.
  intros H.
  destruct (classify_links parentSchemaType selectionNodes [] emptyClassified c H) as [Hl Hn].
  { split; [intros k; reflexivity | constructor]. }
  split; [exact Hn|]. intros k. specialize (Hl k). cbn [app] in Hl.
  destruct (linkOccurrences k selectionNodes) as [|first others]; [exact Hl|].
  destruct Hl as [l [Hg [Ha [Hnm Hs]]]].
  exists l. eexists. split; [exact Hg|]. split; [exact Ha|]. split; [exact Hnm|].
  split; [exact Hs|]. split; [reflexivity|].
  destruct (fold_mergeSelectionSets_covers (childSelections first) (map childSelections others))
    as [H1 H2].
  split; [exact H1|]. apply Forall_map in H2. exact H2.
Qed.

Lemma link_fields_merge_by_response_key_witness :
  exists c l,
    classify Dog twoOwners = Ok c
    /\ JS.keys (linkFieldSelectionSets c) = ["owner"]
    /\ JS.get (linkFieldSelectionSets c) "owner" = Some l
    /\ fieldSelectionSet (field l) = Some [leaf "name"; leaf "age"].
Proof.
  destruct (classify Dog twoOwners) as [c|e] eqn:E; [|discriminate].
  destruct (link_fields_merge_by_response_key Dog twoOwners c E) as [_ H].
  specialize (H "owner"). cbn in H. destruct H as [l [merged [Hg [_ [_ [Hs [Hm _]]]]]]].
  exists c, l. injection E as <-.
  split; [reflexivity|]. split; [reflexivity|]. split; [exact Hg|].
  rewrite Hs, Hm. reflexivity.
Defined.

(** ** Link fields that share a response key, on node objects *)

Lemma extends_refl (store : InPlace.Store) : extends store store.
Proof.
  intros r. exists []. rewrite app_nil_r. reflexivity.
Qed.

Lemma extends_trans (a b c : InPlace.Store) : extends a b -> extends b c -> extends a c.
Proof.
  intros H1 H2 r. destruct (H1 r) as [x Hx]. destruct (H2 r) as [y Hy].
  exists (x ++ y)%list. rewrite Hy, Hx, app_assoc. reflexivity.
Qed.

Lemma extends_In (a b : InPlace.Store) (r : InPlace.Ref) (s : InPlace.SelectionNode) :
  extends a b -> In s (a r) -> In s (b r).
Proof.
  intros H Hin. destruct (H r) as [x Hx]. rewrite Hx. apply in_or_app. left. exact Hin.
Qed.

Lemma coveredBy_mono (below below' : InPlace.Ref -> InPlace.Ref -> Prop)
  (selection : InPlace.SelectionNode) (selections selections' : list InPlace.SelectionNode) :
  (forall child child', below child child' -> below' child child') ->
  (forall s, In s selections -> In s selections') ->
  coveredBy below selection selections -> coveredBy below' selection selections'.
Proof.
  intros Hb Hs H. destruct selection as [f|name|cond ss]; cbn [coveredBy] in *.
  - destruct H as [f' [Hin [Hk Hc]]]. exists f'. split; [apply Hs; exact Hin|].
    split; [exact Hk|].
    destruct (InPlace.fieldSelectionSet f), (InPlace.fieldSelectionSet f'); try exact I.
    apply Hb. exact Hc.
  - apply Hs, H.
  - apply Hs, H.
Qed.

Lemma coversDeep_mono (depth : nat) :
  forall before before' part after after' whole,
    extends before before' -> extends after after' ->
    coversDeep depth before' part after whole -> coversDeep depth before part after' whole.
Proof.
  induction depth as [|depth IH]; intros before before' part after after' whole Hb Ha H;
    [exact I|].
  cbn [coversDeep] in *. intros s Hs.
  apply (coveredBy_mono (fun child child' => coversDeep depth before' child after child')
                        _ s (after whole)).
  - intros child child'. apply IH; assumption.
  - intros s'. apply extends_In. exact Ha.
  - apply H. eapply extends_In; eassumption.
Qed.

Lemma coversDeep_self (depth : nat) :
  forall before after r, extends before after -> coversDeep depth before r after r.
Proof.
  induction depth as [|depth IH]; intros before after r H; [exact I|].
  cbn [coversDeep]. intros s Hs. destruct s as [f|name|cond ss]; cbn [coveredBy].
  - exists f. split; [eapply extends_In; eassumption|]. split; [reflexivity|].
    destruct (InPlace.fieldSelectionSet f); [apply IH; exact H | exact I].
  - eapply extends_In; eassumption.
  - eapply extends_In; eassumption.
Qed.

Lemma findField_Some (k : string) (selections : list InPlace.SelectionNode)
  (f : InPlace.FieldNode) :
  InPlace.findField k selections = Some f ->
  In (InPlace.Field f) selections /\ InPlace.getFieldNodeNameValue f = k.
Proof.
  unfold InPlace.findField.
  destruct (find (InPlace.sameResponseKey k) selections) as [[f0|name|cond ss]|] eqn:E;
    try discriminate.
  intros H. injection H as <-. apply find_some in E. destruct E as [Hin Hk].
  split; [exact Hin|]. apply String.eqb_eq. exact Hk.
Qed.

Lemma gathered_push (level : InPlace.Ref -> nat) (store st : InPlace.Store)
  (selectionSet1 : InPlace.Ref) (done newSelections : list InPlace.SelectionNode)
  (s : InPlace.SelectionNode) :
  (forall f child, s = InPlace.Field f -> InPlace.fieldSelectionSet f = Some child ->
                   S (level child) = level selectionSet1) ->
  gathered level store selectionSet1 done (st, newSelections) ->
  gathered level store selectionSet1 (done ++ [s]) (st, (newSelections ++ [s])%list).
Proof.
  intros Hs (Hlev & Hext & Hframe & [added Hacc] & Hchild & Hcov).
  cbn [fst snd] in *. unfold gathered. cbn [fst snd].
  split; [exact Hlev|]. split; [exact Hext|]. split; [exact Hframe|].
  split; [exists (added ++ [s])%list; rewrite Hacc, app_assoc; reflexivity|].
  split.
  - intros f child Hin Hc. apply in_app_or in Hin. destruct Hin as [Hin|[Hin|[]]].
    + eapply Hchild; eassumption.
    + eapply Hs; [exact Hin | exact Hc].
  - intros depth s' Hin. apply in_app_or in Hin. destruct Hin as [Hin|[<-|[]]].
    + eapply coveredBy_mono; [| |apply (Hcov depth s' Hin)].
      * intros child child' H. exact H.
      * intros x Hx. apply in_or_app. left. exact Hx.
    + destruct s as [f|name|cond ss]; cbn [coveredBy].
      * exists f. split; [apply in_or_app; right; left; reflexivity|].
        split; [reflexivity|].
        destruct (InPlace.fieldSelectionSet f); [|exact I].
        apply coversDeep_self. exact Hext.
      * apply in_or_app. right. left. reflexivity.
      * apply in_or_app. right. left. reflexivity.
Qed.

Lemma gathered_matched (level : InPlace.Ref -> nat) (store st st' : InPlace.Store)
  (selectionSet1 : InPlace.Ref) (done newSelections : list InPlace.SelectionNode)
  (f1 f2 : InPlace.FieldNode) :
  In (InPlace.Field f1) newSelections ->
  InPlace.getFieldNodeNameValue f1 = InPlace.getFieldNodeNameValue f2 ->
  levelled level st' -> extends st st' ->
  (forall r, level selectionSet1 <= level r -> st' r = st r) ->
  match InPlace.fieldSelectionSet f2, InPlace.fieldSelectionSet f1 with
  | Some child, Some child' => forall depth, coversDeep depth st child st' child'
  | _, _ => True
  end ->
  gathered level store selectionSet1 done (st, newSelections) ->
  gathered level store selectionSet1 (done ++ [InPlace.Field f2]) (st', newSelections).
Proof.
  intros Hin1 Hk Hlev' Hext' Hframe' Hc (Hlev & Hext & Hframe & Hacc & Hchild & Hcov).
  cbn [fst snd] in *. unfold gathered. cbn [fst snd].
  split; [exact Hlev'|]. split; [eapply extends_trans; eassumption|].
  split; [intros r Hr; rewrite (Hframe' r Hr); apply Hframe; exact Hr|].
  split; [exact Hacc|]. split; [exact Hchild|].
  intros depth s Hin. apply in_app_or in Hin. destruct Hin as [Hin|[<-|[]]].
  - eapply coveredBy_mono; [| |apply (Hcov depth s Hin)].
    + intros child child'. apply coversDeep_mono; [apply extends_refl | exact Hext'].
    + intros x Hx. exact Hx.
  - cbn [coveredBy]. exists f1. split; [exact Hin1|]. split; [exact Hk|].
    destruct (InPlace.fieldSelectionSet f2) as [child|]; [|exact I].
    destruct (InPlace.fieldSelectionSet f1) as [child'|]; [|exact I].
    apply (coversDeep_mono depth store st child st' st' child' Hext (extends_refl st')).
    apply Hc.
Qed.

Section MergeLoop.

Variable level : InPlace.Ref -> nat.
Variable merge : InPlace.Store -> InPlace.Ref -> InPlace.Ref -> result InPlace.Store.
Variable store : InPlace.Store.
Variable selectionSet1 : InPlace.Ref.

Hypothesis merge_below :
  forall st child1 child2,
    levelled level st ->
    S (level child1) = level selectionSet1 -> S (level child2) = level selectionSet1 ->
    exists st', merge st child1 child2 = Ok st' /\ mergedInto level st child1 child2 st'.

Lemma mergeSelection_gathers (done : list InPlace.SelectionNode)
  (state : InPlace.Store * list InPlace.SelectionNode) (s : InPlace.SelectionNode) :
  (forall f child, s = InPlace.Field f -> InPlace.fieldSelectionSet f = Some child ->
                   S (level child) = level selectionSet1) ->
  gathered level store selectionSet1 done state ->
  exists state',
    InPlace.mergeSelection merge state s = Ok state'
    /\ gathered level store selectionSet1 (done ++ [s]) state'.
Proof.
  intros Hs Hinv. destruct state as [st acc].
  destruct s as [f2|name|cond ss]; cbn [InPlace.mergeSelection].
  - destruct (InPlace.findField (InPlace.getFieldNodeNameValue f2) acc) as [f1|] eqn:Ef.
    + apply findField_Some in Ef. destruct Ef as [Hin1 Hk1].
      assert (Hinv' := Hinv). destruct Hinv' as (Hlev & _ & _ & _ & Hchild & _).
      cbn [fst snd] in Hlev, Hchild.
      destruct (InPlace.fieldSelectionSet f1) as [child1|] eqn:E1;
        destruct (InPlace.fieldSelectionSet f2) as [child2|] eqn:E2.
      * destruct (merge_below st child1 child2 Hlev (Hchild f1 child1 Hin1 E1)
                              (Hs f2 child2 eq_refl E2))
          as [st' [Em (Hlev' & Hext' & Hframe' & Hcov')]].
        rewrite Em. cbn [bind]. eexists. split; [reflexivity|].
        apply (gathered_matched level store st st' selectionSet1 done acc f1 f2);
          try assumption.
        -- intros r Hr. apply Hframe'.
           assert (Hl := Hchild f1 child1 Hin1 E1). lia.
        -- rewrite E1, E2. exact Hcov'.
      * eexists. split; [reflexivity|].
        apply (gathered_matched level store st st selectionSet1 done acc f1 f2);
          try assumption; [apply extends_refl | reflexivity | rewrite E1, E2; exact I].
      * eexists. split; [reflexivity|].
        apply (gathered_matched level store st st selectionSet1 done acc f1 f2);
          try assumption; [apply extends_refl | reflexivity | rewrite E1, E2; exact I].
      * eexists. split; [reflexivity|].
        apply (gathered_matched level store st st selectionSet1 done acc f1 f2);
          try assumption; [apply extends_refl | reflexivity | rewrite E1, E2; exact I].
    + eexists. split; [reflexivity|]. apply gathered_push; assumption.
  - eexists. split; [reflexivity|]. apply gathered_push; assumption.
  - eexists. split; [reflexivity|]. apply gathered_push; assumption.
Qed.

Lemma mergeSelections_gather (todo : list InPlace.SelectionNode) :
  forall (done : list InPlace.SelectionNode)
         (state : InPlace.Store * list InPlace.SelectionNode),
    (forall f child, In (InPlace.Field f) todo -> InPlace.fieldSelectionSet f = Some child ->
                     S (level child) = level selectionSet1) ->
    gathered level store selectionSet1 done state ->
    exists state',
      foldM (InPlace.mergeSelection merge) todo state = Ok state'
      /\ gathered level store selectionSet1 (done ++ todo) state'.
Proof.
  induction todo as [|s todo IH]; intros done state Hs Hinv.
  - exists state. rewrite app_nil_r. split; [reflexivity | exact Hinv].
  - destruct (mergeSelection_gathers done state s) as [state1 [E1 H1]].
    + intros f child -> Hc. apply (Hs f child); [left; reflexivity | exact Hc].
    + exact Hinv.
    + destruct (IH (done ++ [s])%list state1) as [state' [E' H']].
      * intros f child Hin. apply Hs. right. exact Hin.
      * exact H1.
      * exists state'. cbn [foldM]. rewrite E1. cbn [bind]. split; [exact E'|].
        rewrite <- app_assoc in H'. exact H'.
Qed.

End MergeLoop.

Lemma mergeSelectionSets_merges (level : InPlace.Ref -> nat) (fuel : nat) :
  forall store selectionSet1 selectionSet2,
    levelled level store ->
    level selectionSet1 = level selectionSet2 -> level selectionSet1 < fuel ->
    exists store',
      InPlace.mergeSelectionSets fuel store selectionSet1 selectionSet2 = Ok store'
      /\ mergedInto level store selectionSet1 selectionSet2 store'.
Proof.
  induction fuel as [|fuel IH]; intros store r1 r2 Hlev Heq Hfuel; [lia|].
  cbn [InPlace.mergeSelectionSets].
  destruct (mergeSelections_gather level (InPlace.mergeSelectionSets fuel) store r1)
    with (todo := store r2) (done := @nil InPlace.SelectionNode) (state := (store, store r1))
    as [[st acc] [E (Hlev' & Hext & Hframe & [added Hacc] & Hchild & Hcov)]].
  - intros st child1 child2 Hst H1 H2. apply IH; [exact Hst | lia | lia].
  - intros f child Hin Hc. rewrite Heq. eapply Hlev; eassumption.
  - unfold gathered. cbn [fst snd].
    split; [exact Hlev|]. split; [apply extends_refl|]. split; [reflexivity|].
    split; [exists []; rewrite app_nil_r; reflexivity|].
    split; [intros f child Hin Hc; eapply Hlev; eassumption|].
    intros depth s [].
  - cbn [fst snd app] in *. rewrite E. cbn [bind fst snd]. eexists. split; [reflexivity|].
    assert (Hassign : extends st (InPlace.assign st r1 acc)).
    { intros r. unfold InPlace.assign. destruct (Nat.eqb r r1) eqn:Er.
      - apply Nat.eqb_eq in Er. subst r. exists added. rewrite (Hframe r1 (le_n _)). exact Hacc.
      - exists []. rewrite app_nil_r. reflexivity. }
    unfold mergedInto. split; [|split; [|split]].
    + intros r f child Hin Hc. unfold InPlace.assign in Hin.
      destruct (Nat.eqb r r1) eqn:Er.
      * apply Nat.eqb_eq in Er. subst r. eapply Hchild; eassumption.
      * eapply Hlev'; eassumption.
    + eapply extends_trans; eassumption.
    + intros r Hr. unfold InPlace.assign. destruct (Nat.eqb r r1) eqn:Er.
      * apply Nat.eqb_eq in Er. subst r. lia.
      * apply Hframe. lia.
    + intros depth. destruct depth as [|depth]; [exact I|]. cbn [coversDeep].
      intros s Hs.
      apply (coveredBy_mono (fun child child' => coversDeep depth store child st child')
                            _ s acc).
      * intros child child'. apply coversDeep_mono; [apply extends_refl | exact Hassign].
      * intros s' Hs'. unfold InPlace.assign. rewrite Nat.eqb_refl. exact Hs'.
      * apply Hcov. exact Hs.
Qed.

Lemma linkItems_snoc (seen : list InPlace.SelectionItem) (a : InPlace.SelectionItem) :
  linkItems (seen ++ [a]) = (linkItems seen ++ linkItems [a])%list.
Proof.
  unfold linkItems. apply flat_map_app.
Qed.

Lemma linkItems_selectionSet (items : list InPlace.SelectionItem) (f : InPlace.FieldNode)
  (selectionSet : InPlace.Ref) :
  In (f, selectionSet) (linkItems items) -> InPlace.fieldSelectionSet f = Some selectionSet.
Proof.
  unfold linkItems. rewrite in_flat_map. intros [item [_ H]].
  destruct item as [[f0|name|cond ss]|usage]; try contradiction.
  destruct (InPlace.fieldSelectionSet f0) as [r|] eqn:E; [|contradiction].
  destruct H as [H|[]]. injection H as <- <-. exact E.
Qed.

Lemma firstLink_snoc (k : string) (seen : list InPlace.SelectionItem)
  (a : InPlace.SelectionItem) :
  firstLink k (seen ++ [a])
  = match firstLink k seen with
    | Some link => Some link
    | None => firstLink k [a]
    end.
Proof.
  unfold firstLink. rewrite linkItems_snoc.
  induction (linkItems seen) as [|link l IH]; cbn [find app]; [reflexivity|].
  destruct (InPlace.getFieldNodeNameValue (fst link) =? k); [reflexivity | exact IH].
Qed.

Lemma firstLink_In (k : string) (items : list InPlace.SelectionItem)
  (first : InPlace.FieldNode) (selectionSet1 : InPlace.Ref) :
  firstLink k items = Some (first, selectionSet1) ->
  In (first, selectionSet1) (linkItems items) /\ InPlace.getFieldNodeNameValue first = k.
Proof.
  unfold firstLink. intros H. apply find_some in H. destruct H as [Hin Hk].
  split; [exact Hin|]. apply String.eqb_eq. exact Hk.
Qed.

Lemma linksInPlace_skip (level : InPlace.Ref -> nat) (store : InPlace.Store)
  (seen : list InPlace.SelectionItem) (a : InPlace.SelectionItem)
  (c c' : InPlace.Classified) (st : InPlace.Store) :
  linkItems [a] = [] ->
  InPlace.linkFieldSelectionSets c' = InPlace.linkFieldSelectionSets c ->
  linksInPlace level store seen (c, st) -> linksInPlace level store (seen ++ [a]) (c', st).
Proof.
  intros Ha Hl (Hlev & Hext & Hn & Hget & Hcov). unfold linksInPlace. cbn [fst snd] in *.
  rewrite Hl.
  assert (Hf : forall k, firstLink k (seen ++ [a]) = firstLink k seen).
  { intros k. rewrite firstLink_snoc. unfold firstLink at 2. rewrite Ha.
    destruct (firstLink k seen); reflexivity. }
  split; [exact Hlev|]. split; [exact Hext|]. split; [exact Hn|]. split.
  - intros k. rewrite Hf. apply Hget.
  - intros f r Hin. rewrite linkItems_snoc, Ha, app_nil_r in Hin. rewrite Hf.
    apply Hcov. exact Hin.
Qed.

Lemma classifyNode_in_place (level : InPlace.Ref -> nat) (fuel : nat)
  (parentSchemaType : GraphQLObjectType) (store : InPlace.Store)
  (seen : list InPlace.SelectionItem) (state : InPlace.Classified * InPlace.Store)
  (a : InPlace.SelectionItem) (top : nat) :
  (forall f selectionSet, In (f, selectionSet) (linkItems (seen ++ [a])) ->
                          level selectionSet = top) ->
  top < fuel ->
  linksInPlace level store seen state ->
  match InPlace.classifyNode fuel parentSchemaType state a with
  | Ok state' => linksInPlace level store (seen ++ [a]) state'
  | Throw e => e <> OutOfFuel
  end.
Proof.
  intros Htop Hfuel Hinv. destruct state as [c st].
  destruct a as [[f|name|cond ss]|usage]; cbn [InPlace.classifyNode].
  - destruct (InPlace.fieldSelectionSet f) as [r|] eqn:Er.
    + destruct (if isMetadataFieldName (InPlace.fieldName f)
                then metadataFieldMap (InPlace.fieldName f)
                else option_map field_type
                       (getField (object_fields parentSchemaType) (InPlace.fieldName f)))
        as [type|]; [|discriminate].
      assert (Ha : linkItems [InPlace.ItemNode (InPlace.Field f)] = [(f, r)]).
      { unfold linkItems. cbn [flat_map]. rewrite Er. reflexivity. }
      assert (Hfa : forall k, firstLink k [InPlace.ItemNode (InPlace.Field f)]
                              = if InPlace.getFieldNodeNameValue f =? k then Some (f, r)
                                else None).
      { intros k. unfold firstLink. rewrite Ha. reflexivity. }
      destruct Hinv as (Hlev & Hext & Hn & Hget & Hcov). cbn [fst snd] in *.
      assert (Hkey := Hget (InPlace.getFieldNodeNameValue f)).
      destruct (JS.get (InPlace.linkFieldSelectionSets c) (InPlace.getFieldNodeNameValue f))
        as [linkFieldNode|] eqn:Eg.
      * destruct (firstLink (InPlace.getFieldNodeNameValue f) seen) as [[first r1]|] eqn:Ef;
          [|discriminate].
        destruct Hkey as [type1 Hkey]. injection Hkey as ->. cbn [InPlace.field].
        destruct (firstLink_In _ _ _ _ Ef) as [Hin1 Hk1].
        rewrite (linkItems_selectionSet _ _ _ Hin1).
        destruct (mergeSelectionSets_merges level fuel st r1 r Hlev) as [st' [Em Hm]].
        -- rewrite (Htop first r1), (Htop f r); [reflexivity| |].
           ++ rewrite linkItems_snoc, Ha. apply in_or_app. right. left. reflexivity.
           ++ rewrite linkItems_snoc. apply in_or_app. left. exact Hin1.
        -- rewrite (Htop first r1); [exact Hfuel|].
           rewrite linkItems_snoc. apply in_or_app. left. exact Hin1.
        -- rewrite Em. cbn [bind]. destruct Hm as (Hlev' & Hext' & _ & Hcov').
           unfold linksInPlace. cbn [fst snd].
           split; [exact Hlev'|]. split; [eapply extends_trans; eassumption|].
           split; [exact Hn|]. split.
           ++ intros k. rewrite firstLink_snoc. specialize (Hget k).
              destruct (firstLink k seen) as [[first' r1']|] eqn:Ef'; [exact Hget|].
              rewrite Hfa. destruct (InPlace.getFieldNodeNameValue f =? k) eqn:Ek; [|exact Hget].
              apply String.eqb_eq in Ek. subst k. rewrite Ef in Ef'. discriminate.
           ++ intros f' r' Hin. rewrite linkItems_snoc, Ha in Hin.
              apply in_app_or in Hin. destruct Hin as [Hin|[Hin|[]]].
              ** destruct (Hcov f' r' Hin) as [first' [r1' [Ef' Hc]]].
                 exists first', r1'. rewrite firstLink_snoc, Ef'. split; [reflexivity|].
                 intros depth.
                 apply (coversDeep_mono depth store store r' st st' r1'
                                        (extends_refl store) Hext' (Hc depth)).
              ** injection Hin as <- <-. exists first, r1. rewrite firstLink_snoc, Ef.
                 split; [reflexivity|]. intros depth.
                 apply (coversDeep_mono depth store st r st' st' r1 Hext (extends_refl st')
                                        (Hcov' depth)).
      * destruct (firstLink (InPlace.getFieldNodeNameValue f) seen) as [[first r1]|] eqn:Ef.
        { destruct Hkey as [type1 Hkey]. discriminate. }
        unfold linksInPlace. cbn [fst snd InPlace.linkFieldSelectionSets].
        split; [exact Hlev|]. split; [exact Hext|].
        split; [apply NoDup_keys_set; exact Hn|]. split.
        -- intros k. rewrite firstLink_snoc, get_set. specialize (Hget k). rewrite Hfa.
           destruct (InPlace.getFieldNodeNameValue f =? k) eqn:Ek.
           ++ apply String.eqb_eq in Ek. subst k. rewrite Ef. exists type. reflexivity.
           ++ destruct (firstLink k seen) as [[first' r1']|]; exact Hget.
        -- intros f' r' Hin. rewrite linkItems_snoc, Ha in Hin.
           apply in_app_or in Hin. destruct Hin as [Hin|[Hin|[]]].
           ** destruct (Hcov f' r' Hin) as [first' [r1' [Ef' Hc]]].
              exists first', r1'. rewrite firstLink_snoc, Ef'. split; [reflexivity | exact Hc].
           ** injection Hin as <- <-. exists f, r. rewrite firstLink_snoc, Ef, Hfa.
              rewrite String.eqb_refl. split; [reflexivity|].
              intros depth. apply coversDeep_self. exact Hext.
    + assert (Ha : linkItems [InPlace.ItemNode (InPlace.Field f)] = []).
      { unfold linkItems. cbn [flat_map]. rewrite Er. reflexivity. }
      destruct (InPlace.fieldAlias f) as [alias|].
      * apply linksInPlace_skip with (c := c); [exact Ha | reflexivity | exact Hinv].
      * destruct (InPlace.fieldName f =? "__typename");
          (apply linksInPlace_skip with (c := c); [exact Ha | reflexivity | exact Hinv]).
  - apply linksInPlace_skip with (c := c); [reflexivity | reflexivity | exact Hinv].
  - apply linksInPlace_skip with (c := c); [reflexivity | reflexivity | exact Hinv].
  - apply linksInPlace_skip with (c := c); [reflexivity | reflexivity | exact Hinv].
Qed.

Lemma classify_in_place (level : InPlace.Ref -> nat) (fuel : nat)
  (parentSchemaType : GraphQLObjectType) (store : InPlace.Store) (top : nat)
  (items : list InPlace.SelectionItem) :
  forall (seen : list InPlace.SelectionItem) (state : InPlace.Classified * InPlace.Store),
    (forall f selectionSet, In (f, selectionSet) (linkItems (seen ++ items)) ->
                            level selectionSet = top) ->
    top < fuel ->
    linksInPlace level store seen state ->
    match foldM (InPlace.classifyNode fuel parentSchemaType) items state with
    | Ok state' => linksInPlace level store (seen ++ items) state'
    | Throw e => e <> OutOfFuel
    end.
Proof.
  induction items as [|a items IH]; intros seen state Htop Hfuel Hinv.
  - cbn [foldM]. rewrite app_nil_r. exact Hinv.
  - assert (E : (seen ++ a :: items = (seen ++ [a]) ++ items)%list)
      by (rewrite <- app_assoc; reflexivity).
    rewrite E in *. cbn [foldM].
    assert (Hstep := classifyNode_in_place level fuel parentSchemaType store seen state a top).
    destruct (InPlace.classifyNode fuel parentSchemaType state a) as [state1|e]; cbn [bind].
    + apply IH; [exact Htop | exact Hfuel|]. apply Hstep; [|exact Hfuel | exact Hinv].
      intros f r Hin. apply (Htop f r). unfold linkItems in *. rewrite flat_map_app.
      apply in_or_app. left. exact Hin.
    + apply Hstep; [|exact Hfuel | exact Hinv].
      intros f r Hin. apply (Htop f r). unfold linkItems in *. rewrite flat_map_app.
      apply in_or_app. left. exact Hin.
Qed.

(** C3.  The first loop of [buildSelectionSetString] on the item list of
    one concrete type, the selection sets in a store, in levels, those
    of the link fields of the list on one level that the fuel exceeds.
    The loop does not run out of fuel.  When it ends, the map of link
    fields has no key twice, and no key that is not the response key of
    a link field of the list; every selection set of the store begins
    with the selections it had; and for every link field of the list,
    the entry of its response key is the first link field of the list
    with this key, and the selection set of that first field has the
    selections that the selection set of this field had before the loop:
    fragment spreads and inline fragments as they are, every field by a
    field with its response key, and so again from the selection set of
    the one to that of the other when both have one, at every depth. *)
Theorem link_fields_merge_in_place (parentSchemaType : GraphQLObjectType)
  (level : InPlace.Ref -> nat) (top fuel : nat) (store : InPlace.Store)
  (selectionNodes : list InPlace.SelectionItem) :
  levelled level store ->
  (forall f selectionSet, In (f, selectionSet) (linkItems selectionNodes) ->
                          level selectionSet = top) ->
  top < fuel ->
  InPlace.classify fuel parentSchemaType selectionNodes store <> Throw OutOfFuel
  /\ forall c store',
       InPlace.classify fuel parentSchemaType selectionNodes store = Ok (c, store') ->
       NoDup (JS.keys (InPlace.linkFieldSelectionSets c))
       /\ (forall k, firstLink k selectionNodes = None ->
                     JS.get (InPlace.linkFieldSelectionSets c) k = None)
       /\ extends store store'
       /\ forall f selectionSet,
            In (f, selectionSet) (linkItems selectionNodes) ->
            exists first selectionSet1 type,
              firstLink (InPlace.getFieldNodeNameValue f) selectionNodes
              = Some (first, selectionSet1)
              /\ InPlace.fieldSelectionSet first = Some selectionSet1
              /\ JS.get (InPlace.linkFieldSelectionSets c) (InPlace.getFieldNodeNameValue f)
                 = Some {| InPlace.selectedFieldType := type; InPlace.field := first |}
              /\ forall depth, coversDeep depth store selectionSet store' selectionSet1.
Proof.
  intros Hlev Htop Hfuel.
  assert (H := classify_in_place level fuel parentSchemaType store top selectionNodes []
                                 (InPlace.emptyClassified, store) Htop Hfuel).
  unfold InPlace.classify.
  destruct (foldM (InPlace.classifyNode fuel parentSchemaType) selectionNodes
                  (InPlace.emptyClassified, store)) as [state|e].
  - split; [discriminate|]. intros c store' E. injection E as ->. cbn [app] in H.
    destruct H as (_ & Hext & Hn & Hget & Hcov).
    + unfold linksInPlace. cbn [fst snd].
      split; [exact Hlev|]. split; [apply extends_refl|]. split; [constructor|].
      split; [intros k; reflexivity | intros f r []].
    + cbn [fst snd] in *. split; [exact Hn|].
      split; [intros k Ek; specialize (Hget k); rewrite Ek in Hget; exact Hget|].
      split; [exact Hext|].
      intros f r Hin. destruct (Hcov f r Hin) as [first [r1 [Ef Hc]]].
      specialize (Hget (InPlace.getFieldNodeNameValue f)). rewrite Ef in Hget.
      destruct Hget as [type Hget]. exists first, r1, type.
      split; [exact Ef|].
      split; [apply (linkItems_selectionSet selectionNodes), (firstLink_In _ _ _ _ Ef)|].
      split; [exact Hget | exact Hc].
  - split; [|intros c store' E; discriminate].
    intros E. injection E as ->. apply H; [|reflexivity].
    unfold linksInPlace. cbn [fst snd].
    split; [exact Hlev|]. split; [apply extends_refl|]. split; [constructor|].
    split; [intros k; reflexivity | intros f r []].
Qed.

Lemma ownersStore_levelled : levelled ownersLevel ownersStore.
Proof.
  intros r f child Hin Hc.
  destruct r as [|[|[|[|[|r]]]]]; cbn in Hin;
    repeat (destruct Hin as [Hin|Hin]; [try discriminate Hin|]); try contradiction;
    injection Hin as <-; cbn in Hc; try discriminate Hc; injection Hc as <-; reflexivity.
Qed.

Lemma ownersItems_level (f : InPlace.FieldNode) (selectionSet : InPlace.Ref) :
  In (f, selectionSet) (linkItems ownersItems) -> ownersLevel selectionSet = 1.
Proof.
  cbn. intros [H|[H|[]]]; injection H as _ <-; reflexivity.
Qed.

Lemma link_fields_merge_in_place_witness :
  exists c store',
    InPlace.classify 2 OwnedDog ownersItems ownersStore = Ok (c, store')
    /\ JS.keys (InPlace.linkFieldSelectionSets c) = ["owner"]
    /\ store' 1 = [InPlace.Field (linkNode "friend" 3); InPlace.FragmentSpread "A";
                   InPlace.FragmentSpread "B"]
    /\ store' 3 = [leafNode "name"; leafNode "age"]
    /\ forall depth, coversDeep depth ownersStore 2 store' 1.
Proof.
  destruct (link_fields_merge_in_place OwnedDog ownersLevel 1 2 ownersStore ownersItems
              ownersStore_levelled ownersItems_level (le_n 2)) as [_ H].
  destruct (InPlace.classify 2 OwnedDog ownersItems ownersStore) as [[c store']|e] eqn:E;
    [|discriminate].
  exists c, store'.
  destruct (H c store' eq_refl) as [_ [_ [_ Hc]]].
  destruct (Hc (linkNode "owner" 2) 2) as [first [r1 [type [Ef [_ [_ Hcov]]]]]].
  { right. left. reflexivity. }
  injection Ef as <- <-. injection E as <- <-.
  split; [reflexivity|]. split; [reflexivity|]. split; [reflexivity|].
  split; [reflexivity | exact Hcov].
Defined.

(** The nodes are shared: the two [owner] fields are items of [Dog] and
    of [Cat], and the loop for [Cat] starts from the store the loop for
    [Dog] has left.  The second loop merges the second field into the
    first once more, so that the first holds the fragment spread of the
    second twice. *)
Lemma shared_items_are_merged_again :
  exists c1 store1 c2 store2,
    InPlace.classify 2 OwnedDog ownersItems ownersStore = Ok (c1, store1)
    /\ InPlace.classify 2 OwnedCat ownersItems store1 = Ok (c2, store2)
    /\ store1 1 = [InPlace.Field (linkNode "friend" 3); InPlace.FragmentSpread "A";
                   InPlace.FragmentSpread "B"]
    /\ store2 1 = [InPlace.Field (linkNode "friend" 3); InPlace.FragmentSpread "A";
                   InPlace.FragmentSpread "B"; InPlace.FragmentSpread "B"]
    /\ store2 3 = [leafNode "name"; leafNode "age"].
Proof.
  do 4 eexists. split; [reflexivity|]. split; [reflexivity|]. repeat split; reflexivity.
Qed.

(** ** Fields the concrete type does not have *)

Lemma metadataFieldMap_defined (name : string) :
  isMetadataFieldName name = true -> metadataFieldMap name <> None.
Proof.
  unfold isMetadataFieldName, metadataFieldMap. cbn [JS.includes existsb].
  rewrite (String.eqb_sym "__schema"), (String.eqb_sym "__type").
  destruct (name =? "__schema"); [discriminate|].
  destruct (name =? "__type"); discriminate.
Qed.

Lemma classifyNode_throws (parent : GraphQLObjectType) (c : Classified) (a : SelectionItem)
  (e : exn) :
  classifyNode parent c a = Throw e ->
  exists f,
    a = ItemNode (Field f)
    /\ fieldSelectionSet f <> None
    /\ isMetadataFieldName (fieldName f) = false
    /\ getField (object_fields parent) (fieldName f) = None
    /\ e = TypeError ("Could not find field type. " ++ object_name parent ++ "." ++ fieldName f).
Proof.
  destruct a as [[f|sp|i]|usage]; simpl; try discriminate.
  destruct (fieldSelectionSet f) as [ss|] eqn:Ess.
  - destruct (isMetadataFieldName (fieldName f)) eqn:Em.
    + destruct (metadataFieldMap (fieldName f)) eqn:E; [discriminate|].
      exfalso. exact (metadataFieldMap_defined _ Em E).
    + destruct (getField (object_fields parent) (fieldName f)) eqn:Eg; [discriminate|].
      simpl. intros H. injection H as <-. exists f.
      split; [reflexivity|]. split; [rewrite Ess; discriminate|].
      split; [exact Em|]. split; [exact Eg | reflexivity].
  - destruct (fieldAlias f); [discriminate|].
    destruct (fieldName f =? "__typename"); discriminate.
Qed.

Lemma classifyNode_unknown (parent : GraphQLObjectType) (c : Classified) (f : FieldNode) :
  fieldSelectionSet f <> None ->
  isMetadataFieldName (fieldName f) = false ->
  getField (object_fields parent) (fieldName f) = None ->
  classifyNode parent c (ItemNode (Field f))
  = Throw (TypeError ("Could not find field type. " ++ object_name parent ++ "." ++ fieldName f)).
Proof.
  intros Hs Hm Hg. simpl. destruct (fieldSelectionSet f); [|contradiction].
  rewrite Hm, Hg. reflexivity.
Qed.

Lemma classify_unknown (parent : GraphQLObjectType) (items : list SelectionItem)
  (c0 : Classified) (f0 : FieldNode) :
  In (ItemNode (Field f0)) items ->
  fieldSelectionSet f0 <> None ->
  isMetadataFieldName (fieldName f0) = false ->
  getField (object_fields parent) (fieldName f0) = None ->
  exists f,
    In (ItemNode (Field f)) items
    /\ fieldSelectionSet f <> None
    /\ isMetadataFieldName (fieldName f) = false
    /\ getField (object_fields parent) (fieldName f) = None
    /\ foldM (classifyNode parent) items c0
       = Throw (TypeError ("Could not find field type. " ++ object_name parent ++ "." ++ fieldName f)).
Proof.
  intros Hin Hs Hm Hg. revert c0. induction items as [|a items IH]; intros c0; [destruct Hin|].
  cbn [foldM]. destruct (classifyNode parent c0 a) as [c1|e] eqn:E.
  - destruct Hin as [->|Hin].
    + rewrite (classifyNode_unknown parent c0 f0 Hs Hm Hg) in E. discriminate.
    + destruct (IH Hin c1) as [f [H1 [H2 [H3 [H4 H5]]]]].
      exists f. repeat split; try assumption. right. exact H1.
  - apply classifyNode_throws in E. destruct E as [f [-> [H2 [H3 [H4 ->]]]]].
    exists f. repeat split; try assumption. left. reflexivity.
Qed.

Lemma classify_first_unknown (parent : GraphQLObjectType) (items : list SelectionItem)
  (c0 : Classified) (f0 : FieldNode) :
  In (ItemNode (Field f0)) items ->
  fieldSelectionSet f0 <> None ->
  isMetadataFieldName (fieldName f0) = false ->
  getField (object_fields parent) (fieldName f0) = None ->
  exists f before after,
    items = (before ++ ItemNode (Field f) :: after)%list
    /\ (forall g, In (ItemNode (Field g)) before ->
                  fieldSelectionSet g <> None ->
                  isMetadataFieldName (fieldName g) = false ->
                  getField (object_fields parent) (fieldName g) <> None)
    /\ fieldSelectionSet f <> None
    /\ isMetadataFieldName (fieldName f) = false
    /\ getField (object_fields parent) (fieldName f) = None
    /\ foldM (classifyNode parent) items c0
       = Throw (TypeError ("Could not find field type. " ++ object_name parent ++ "." ++ fieldName f)).
Proof.
  intros Hin Hs Hm Hg. revert c0. induction items as [|a items IH]; intros c0; [destruct Hin|].
  cbn [foldM]. destruct (classifyNode parent c0 a) as [c1|e] eqn:E.
  - destruct Hin as [->|Hin].
    + rewrite (classifyNode_unknown parent c0 f0 Hs Hm Hg) in E. discriminate.
    + destruct (IH Hin c1) as [f [before [after [-> [Hb [H2 [H3 [H4 H5]]]]]]]].
      exists f, (a :: before)%list, after. split; [reflexivity|].
      split; [|repeat split; assumption].
      intros g [->|Hg'] Hgs Hgm Hgg; [|exact (Hb g Hg' Hgs Hgm Hgg)].
      rewrite (classifyNode_unknown parent c0 g Hgs Hgm Hgg) in E. discriminate.
  - apply classifyNode_throws in E. destruct E as [f [-> [H2 [H3 [H4 ->]]]]].
    exists f, [], items. split; [reflexivity|]. split; [intros g []|].
    repeat split; assumption.
Qed.

(** C8, amended.  When an item of one concrete type is a field that
    carries a nested selection set and whose name is neither a field of
    the concrete type nor a metadata field name, the transformation of
    that type throws a [TypeError] that names the type and such a field
    of the list (the first one: no item before it is such a field). *)
Theorem unknown_link_field_is_fatal (recur : SelectionSetToObject -> result string)
  (this : SelectionSetToObject) (parentSchemaType : GraphQLObjectType)
  (selectionNodes : list SelectionItem) (f0 : FieldNode) :
  In (ItemNode (Field f0)) selectionNodes ->
  fieldSelectionSet f0 <> None ->
  isMetadataFieldName (fieldName f0) = false ->
  getField (object_fields parentSchemaType) (fieldName f0) = None ->
  exists f,
    In (ItemNode (Field f)) selectionNodes
    /\ fieldSelectionSet f <> None
    /\ isMetadataFieldName (fieldName f) = false
    /\ getField (object_fields parentSchemaType) (fieldName f) = None
    /\ buildSelectionSetStringWith recur this parentSchemaType selectionNodes
       = Throw (TypeError ("Could not find field type. " ++ object_name parentSchemaType
                           ++ "." ++ fieldName f))
    /\ exists before after,
         selectionNodes = (before ++ ItemNode (Field f) :: after)%list
         /\ forall g, In (ItemNode (Field g)) before ->
                      fieldSelectionSet g <> None ->
                      isMetadataFieldName (fieldName g) = false ->
                      getField (object_fields parentSchemaType) (fieldName g) <> None.
Proof.
  intros Hin Hs Hm Hg.
  destruct (classify_first_unknown parentSchemaType selectionNodes emptyClassified f0
                                   Hin Hs Hm Hg)
    as [f [before [after [E [Hb [H2 [H3 [H4 H5]]]]]]]].
  exists f. split; [rewrite E; apply in_or_app; right; left; reflexivity|].
  split; [exact H2|]. split; [exact H3|]. split; [exact H4|]. split.
  - unfold buildSelectionSetStringWith, classify. rewrite H5. reflexivity.
  - exists before, after. split; [exact E | exact Hb].
Qed.

Lemma unknown_link_field_is_fatal_witness :
  buildSelectionSetString 3 (instance [] (Some (ObjectType Dog)) None) Dog
    [ItemNode (leaf "bark"); ItemNode (link "nope" [leaf "x"])]
  = Throw (TypeError "Could not find field type. Dog.nope").
Proof.
  destruct (unknown_link_field_is_fatal (transformSelectionSet 3)
              (instance [] (Some (ObjectType Dog)) None) Dog
              [ItemNode (leaf "bark"); ItemNode (link "nope" [leaf "x"])]
              (mkField None "nope" (Some [leaf "x"])))
    as [f [Hin [Hs [_ [_ [H _]]]]]].
  - right. left. reflexivity.
  - discriminate.
  - reflexivity.
  - reflexivity.
  - unfold buildSelectionSetString. rewrite H.
    destruct Hin as [Hin|[Hin|[]]]; injection Hin as <-.
    + exfalso. apply Hs. reflexivity.
    + reflexivity.
Defined.

(** C8 as stated fails: [nope] is not a field of [Dog] and is no metadata
    field, it is selected without a nested selection set, and the
    transformation of [Dog] returns a type expression. *)
Lemma unknown_plain_field_is_accepted :
  getField (object_fields Dog) "nope" = None
  /\ isMetadataFieldName "nope" = false
  /\ (exists c, classify Dog [ItemNode (leaf "nope")] = Ok c)
  /\ (forall fuel,
        buildSelectionSetString fuel (instance [] (Some (ObjectType Dog)) None) Dog
          [ItemNode (leaf "nope")]
        = Ok (Some "Pick<Dog, 'nope'>"))
  /\ (forall fuel,
        transformSelectionSet (S (S fuel))
          (instance [] (Some (ObjectType Dog)) (Some [leaf "nope"]))
        = Ok "Pick<Dog, 'nope'>").
Proof.
  split; [reflexivity|]. split; [reflexivity|]. split; [eexists; reflexivity|].
  split; intros fuel; reflexivity.
Qed.

(** ** Grouping by concrete type *)

Lemma set_fresh {V : Type} (d : JS.dict V) (k : string) (v : V) :
  ~ In k (JS.keys d) -> JS.set d k v = (d ++ [(k, v)])%list.
Proof.
  induction d as [|[k0 v0] d IH]; simpl; intros H; [reflexivity|].
  destruct (k0 =? k) eqn:E.
  - apply String.eqb_eq in E. exfalso. apply H. left. exact E.
  - rewrite IH; [reflexivity|]. intros Hin. apply H. right. exact Hin.
Qed.

Lemma get_last {V : Type} (d : JS.dict V) (k : string) (v : V) :
  ~ In k (JS.keys d) -> JS.get (d ++ [(k, v)])%list k = Some v.
Proof.
  induction d as [|[k0 v0] d IH]; simpl; intros H.
  - rewrite String.eqb_refl. reflexivity.
  - destruct (k0 =? k) eqn:E.
    + apply String.eqb_eq in E. exfalso. apply H. left. exact E.
    + apply IH. intros Hin. apply H. right. exact Hin.
Qed.

Lemma set_last {V : Type} (d : JS.dict V) (k : string) (v v' : V) :
  ~ In k (JS.keys d) -> JS.set (d ++ [(k, v)])%list k v' = (d ++ [(k, v')])%list.
Proof.
  induction d as [|[k0 v0] d IH]; simpl; intros H.
  - rewrite String.eqb_refl. reflexivity.
  - destruct (k0 =? k) eqn:E.
    + apply String.eqb_eq in E. exfalso. apply H. left. exact E.
    + rewrite IH; [reflexivity|]. intros Hin. apply H. right. exact Hin.
Qed.




Lemma dedupeByName_names (l : list GraphQLObjectType) (seen : list string) :
  NoDup (map object_name (dedupeByName seen l))
  /\ forall o, In o (dedupeByName seen l) -> ~ In (object_name o) seen.
Proof.
  revert seen. induction l as [|o l IH]; intros seen; simpl.
  - split; [constructor | intros o []].
  - destruct (JS.includes seen (object_name o)) eqn:E; [apply IH|].
    destruct (IH (object_name o :: seen)) as [H1 H2]. split.
    + simpl. constructor; [|exact H1].
      intros Hin. apply in_map_iff in Hin. destruct Hin as [o' [Hname Hin]].
      apply (H2 o' Hin). left. symmetry. exact Hname.
    + intros o' [<-|Hin].
      * rewrite <- includes_In, E. discriminate.
      * intros Hs. apply (H2 o' Hin). right. exact Hs.
Qed.

Lemma getPossibleTypes_NoDup (schema : GraphQLSchema) (type : option GraphQLNamedType)
  (possible : list GraphQLObjectType) :
  getPossibleTypes schema type = Ok possible -> NoDup (map object_name possible).
Proof.
  destruct type as [[o|n fs|n members|n|n|n]|]; simpl; intros H; try discriminate;
    injection H as <-.
  - constructor; [intros [] | constructor].
  - apply dedupeByName_names.
  - apply dedupeByName_names.
  - constructor.
  - constructor.
  - constructor.
Qed.







(** ** The union over the concrete types *)









(** ** Fuel: more fuel keeps the answer *)

Lemma refines_refl {A : Type} (r : result A) : refines r r.
Proof. right. reflexivity. Qed.

Lemma refines_bind {A B : Type} (r r' : result A) (k k' : A -> result B) :
  refines r r' -> (forall a, refines (k a) (k' a)) -> refines (bind r k) (bind r' k').
Proof.
  intros [-> | ->] Hk; [left; reflexivity|].
  destruct r as [a|e]; simpl; [apply Hk | right; reflexivity].
Qed.

Lemma refines_foldM {A S : Type} (f f' : S -> A -> result S) (l : list A) (s : S) :
  (forall s0 a, refines (f s0 a) (f' s0 a)) -> refines (foldM f l s) (foldM f' l s).
Proof.
  intros H. revert s. induction l as [|a l IH]; intros s; simpl; [apply refines_refl|].
  apply refines_bind; [apply H | exact IH].
Qed.

Lemma refines_mapM {A B : Type} (f f' : A -> result B) (l : list A) :
  (forall a, refines (f a) (f' a)) -> refines (mapM f l) (mapM f' l).
Proof.
  intros H. induction l as [|a l IH]; simpl; [apply refines_refl|].
  apply refines_bind; [apply H|]. intros b.
  apply refines_bind; [exact IH|]. intros bs. apply refines_refl.
Qed.

Lemma refines_if {A : Type} (b : bool) (r1 r1' r2 r2' : result A) :
  refines r1 r1' -> refines r2 r2' ->
  refines (if b then r1 else r2) (if b then r1' else r2').
Proof. destruct b; auto. Qed.

Lemma collect_more_fuel (fuel : nat) (this : SelectionSetToObject)
  (parentType : option GraphQLNamedType) (nodes : list InlineFragmentNode) (types : TypeMap) :
  refines (_collectInlineFragments fuel this parentType nodes types)
          (_collectInlineFragments (S fuel) this parentType nodes types).
Proof.
  revert parentType nodes types. induction fuel as [|fuel IH]; intros parentType nodes types;
    [left; reflexivity|].
  cbn [_collectInlineFragments].
  destruct parentType as [[parent|parentName fs|parentName members|n|n|n]|];
    try apply refines_refl.
  - apply refines_foldM. intros types' node. cbv zeta.
    apply refines_bind; [apply refines_refl|]. intros spreadsUsage.
    destruct (match typeCondition node with
              | Some n => getType (_schema this) n
              | None => Some (ObjectType parent)
              end) as [[o|n fs|n members|n|n|n]|]; try apply refines_refl.
    + apply IH.
    + apply refines_bind; [apply refines_refl|]. intros implemented.
      apply refines_if; [apply IH | apply refines_refl].
  - apply refines_bind; [apply refines_refl|]. intros possibleTypes.
    apply refines_foldM. intros types' node. cbv zeta.
    apply refines_bind; [apply refines_refl|]. intros spreadsUsage.
    destruct (match typeCondition node with
              | Some n => getType (_schema this) n
              | None => Some (InterfaceType parentName fs)
              end) as [[o|n fs'|n members|n|n|n]|]; try apply refines_refl.
    + apply refines_if; [apply IH | apply refines_refl].
    + apply refines_if; [|apply refines_refl].
      apply refines_foldM. intros types'' possibleType. apply IH.
  - apply refines_foldM. intros types' node. cbv zeta.
    apply refines_bind; [apply refines_refl|]. intros spreadsUsage.
    destruct (match typeCondition node with
              | Some n => getType (_schema this) n
              | None => Some (UnionType parentName members)
              end) as [[o|n fs'|n members'|n|n|n]|]; try apply refines_refl.
    + apply refines_if; [apply IH | apply refines_refl].
    + apply refines_bind; [apply refines_refl|]. intros possibleInterfaceTypes.
      apply refines_foldM. intros types'' possibleType.
      apply refines_if; [apply IH | apply refines_refl].
Qed.

Lemma flatten_more_fuel (fuel : nat) (this : SelectionSetToObject) (selections : SelectionSetNode) :
  refines (flattenSelectionSet fuel this selections) (flattenSelectionSet (S fuel) this selections).
Proof.
  unfold flattenSelectionSet. cbv zeta.
  apply refines_bind; [apply refines_refl|]. intros inlineFragmentSelections.
  apply refines_bind; [apply collect_more_fuel|]. intros selectionNodesByTypeName.
  apply refines_refl.
Qed.

Lemma build_more_fuel (recur recur' : SelectionSetToObject -> result string)
  (this : SelectionSetToObject) (parent : GraphQLObjectType) (items : list SelectionItem) :
  (forall next, refines (recur next) (recur' next)) ->
  refines (buildSelectionSetStringWith recur this parent items)
          (buildSelectionSetStringWith recur' this parent items).
Proof.
  intros H. unfold buildSelectionSetStringWith.
  apply refines_bind; [apply refines_refl|]. intros c.
  apply refines_bind; [|intros linkFields; apply refines_refl].
  apply refines_mapM. intros l. cbv zeta.
  apply refines_bind; [apply H|]. intros text. apply refines_refl.
Qed.

Lemma transform_more_fuel (fuel : nat) (this : SelectionSetToObject) :
  refines (transformSelectionSet fuel this) (transformSelectionSet (S fuel) this).
Proof.
  revert this. induction fuel as [|fuel IH]; intros this; [left; reflexivity|].
  cbn [transformSelectionSet].
  apply refines_bind; [|intros grouped; apply refines_refl].
  unfold _buildGroupedSelectionsWith.
  destruct (_selectionSet this) as [[|first rest]|]; try apply refines_refl.
  apply refines_bind; [apply flatten_more_fuel|]. intros types.
  apply refines_bind; [apply refines_refl|]. intros possibleTypes.
  apply refines_foldM. intros prev type. unfold groupPossibleType. cbv zeta.
  destruct (getType (_schema this) (object_name type)) as [[schemaType| | | | |]|];
    try apply refines_refl.
  apply refines_bind; [|intros transformedSet; apply refines_refl].
  apply build_more_fuel. exact IH.
Qed.

(** An answer that is not the exhaustion of the fuel is the answer for
    every larger fuel. *)
Lemma transformSelectionSet_fuel_monotone (fuel more : nat) (this : SelectionSetToObject) :
  transformSelectionSet fuel this <> Throw OutOfFuel ->
  transformSelectionSet (more + fuel) this = transformSelectionSet fuel this.
Proof.
  intros H. induction more as [|more IH]; [reflexivity|].
  destruct (transform_more_fuel (more + fuel) this) as [E|E].
  - rewrite IH in E. contradiction.
  - cbn [Nat.add]. rewrite E. exact IH.
Qed.

(** ** Fuel: the depth of the selection is enough *)

Lemma fuel_bind {A B : Type} (r : result A) (k : A -> result B) :
  r <> Throw OutOfFuel ->
  (forall a, r = Ok a -> k a <> Throw OutOfFuel) ->
  bind r k <> Throw OutOfFuel.
Proof.
  destruct r as [a|e]; simpl; intros Hr Hk; [apply Hk; reflexivity|].
  intros E. apply Hr. injection E as ->. reflexivity.
Qed.

Lemma fuel_mapM {A B : Type} (f : A -> result B) (l : list A) :
  (forall a, In a l -> f a <> Throw OutOfFuel) -> mapM f l <> Throw OutOfFuel.
Proof.
  induction l as [|a l IH]; intros H; simpl; [discriminate|].
  apply fuel_bind; [apply H; left; reflexivity|]. intros b _.
  apply fuel_bind; [apply IH; intros a' Ha; apply H; right; exact Ha|].
  intros bs _. discriminate.
Qed.

Lemma fuel_foldM {A S : Type} (I : S -> Prop) (f : S -> A -> result S) (l : list A) (s : S) :
  (forall a s0, In a l -> I s0 ->
     f s0 a <> Throw OutOfFuel /\ forall s1, f s0 a = Ok s1 -> I s1) ->
  I s ->
  foldM f l s <> Throw OutOfFuel /\ forall s1, foldM f l s = Ok s1 -> I s1.
Proof.
  revert s. induction l as [|a l IH]; intros s H Hs; simpl.
  - split; [discriminate|]. intros s1 E. injection E as <-. exact Hs.
  - destruct (H a s (or_introl eq_refl) Hs) as [H1 H2].
    destruct (f s a) as [s'|e]; simpl.
    + apply IH; [|apply H2; reflexivity].
      intros a' s0 Ha. apply H. right. exact Ha.
    + split; [exact H1 | discriminate].
Qed.

Lemma good_Ok (b : nat) (types : TypeMap) : bounded b types -> good b (Ok types).
Proof.
  intros H. split; [discriminate|]. intros t E. injection E as <-. exact H.
Qed.

Lemma good_bind {A : Type} (b : nat) (r : result A) (k : A -> result TypeMap) :
  r <> Throw OutOfFuel -> (forall a, r = Ok a -> good b (k a)) -> good b (bind r k).
Proof.
  destruct r as [a|e]; simpl; intros Hr Hk; [apply Hk; reflexivity|].
  split; [|discriminate]. intros E. apply Hr. injection E as ->. reflexivity.
Qed.

Lemma good_foldM {A : Type} (b : nat) (f : TypeMap -> A -> result TypeMap) (l : list A)
  (types : TypeMap) :
  (forall a s0, In a l -> bounded b s0 -> good b (f s0 a)) ->
  bounded b types -> good b (foldM f l types).
Proof.
  intros H Hs. apply (fuel_foldM (bounded b)); assumption.
Qed.

Lemma getPossibleTypes_fuel (schema : GraphQLSchema) (type : option GraphQLNamedType) :
  getPossibleTypes schema type <> Throw OutOfFuel.
Proof.
  destruct type as [[o|n fs|n members|n|n|n]|]; discriminate.
Qed.

Lemma buildFragmentSpreadsUsage_fuel (this : SelectionSetToObject)
  (spreads : list FragmentSpreadNode) :
  buildFragmentSpreadsUsage this spreads <> Throw OutOfFuel.
Proof.
  unfold buildFragmentSpreadsUsage.
  apply (fuel_foldM (fun _ => True)); [|exact I].
  intros spread d _ _. split; [|intros; exact I].
  destruct (find (fun lf => fragment_name lf =? spread) (_loadedFragments this)); [|discriminate].
  apply fuel_bind; [apply getPossibleTypes_fuel|]. intros possible _. discriminate.
Qed.

Lemma bounded_empty (b : nat) : bounded b [].
Proof. intros k l H. discriminate. Qed.

Lemma bounded_ensure (b : nat) (types : TypeMap) (k : string) :
  bounded b types -> bounded b (JS.ensure types k).
Proof.
  intros H k' l. rewrite get_ensure. destruct (JS.get types k') as [l'|] eqn:E.
  - intros E'. injection E' as <-. exact (H _ _ E).
  - destruct (k =? k'); [|discriminate]. intros E'. injection E' as <-. constructor.
Qed.

Lemma bounded_push (b : nat) (types : TypeMap) (k : string) (items : list SelectionItem) :
  bounded b types -> Forall (fun item => itemDepth item <= b) items ->
  bounded b (JS.push types k items).
Proof.
  intros H Hi k' l. rewrite get_push. destruct (JS.get types k) as [l0|] eqn:E; [|apply H].
  destruct (k =? k'); [|apply H]. intros E'. injection E' as <-.
  apply Forall_app. split; [exact (H _ _ E) | exact Hi].
Qed.

Lemma bounded_append (b : nat) (types : TypeMap) (k : string) (nodes : option (list SelectionItem)) :
  bounded b types ->
  (forall items, nodes = Some items -> Forall (fun item => itemDepth item <= b) items) ->
  bounded b (_appendToTypeMap types k nodes).
Proof.
  intros H Hn. unfold _appendToTypeMap. cbv zeta.
  destruct nodes as [[|n ns]|]; try (apply bounded_ensure; exact H).
  apply bounded_push; [apply bounded_ensure; exact H | apply Hn; reflexivity].
Qed.

Lemma usageItems_depth (b : nat) (usage : option (list string)) (items : list SelectionItem) :
  usageItems usage = Some items -> Forall (fun item => itemDepth item <= b) items.
Proof.
  destruct usage as [l|]; simpl; intros E; [|discriminate]. injection E as <-.
  apply Forall_map. apply Forall_forall. intros u _. simpl. lia.
Qed.

Lemma depth_le_depths (n : SelectionNode) (ss : SelectionSetNode) :
  In n ss -> depth n <= depths ss.
Proof.
  intros H. unfold depths.
  assert (Hall : Forall (fun k => k <= list_max (map depth ss)) (map depth ss))
    by (apply list_max_le; lia).
  rewrite Forall_forall in Hall. apply Hall. apply in_map. exact H.
Qed.

Lemma separate_fields (ss : SelectionSetNode) (f : FieldNode) :
  In f (fields (separateSelectionSet ss)) -> In (Field f) ss.
Proof.
  induction ss as [|n ss IH]; simpl; [intros []|].
  destruct n as [g|sp|i]; simpl; intros H.
  - destruct H as [->|H]; [left; reflexivity | right; apply IH; exact H].
  - right. apply IH. exact H.
  - right. apply IH. exact H.
Qed.

Lemma separate_inlines (ss : SelectionSetNode) (i : InlineFragmentNode) :
  In i (inlines (separateSelectionSet ss)) -> In (InlineFragment i) ss.
Proof.
  induction ss as [|n ss IH]; simpl; [intros []|].
  destruct n as [g|sp|j]; simpl; intros H.
  - right. apply IH. exact H.
  - right. apply IH. exact H.
  - destruct H as [->|H]; [left; reflexivity | right; apply IH; exact H].
Qed.

Lemma fieldItems_depth (b : nat) (ss : SelectionSetNode) (items : list SelectionItem) :
  depths ss <= b ->
  fieldItems (fields (separateSelectionSet ss)) = Some items ->
  Forall (fun item => itemDepth item <= b) items.
Proof.
  intros Hb E. injection E as <-. apply Forall_map. apply Forall_forall. intros f Hf.
  apply separate_fields in Hf. apply depth_le_depths in Hf. unfold itemDepth. lia.
Qed.

(** The two appends that attach the fields and the usages of a fragment
    to a concrete type. *)
Lemma bounded_attach (b : nat) (types : TypeMap) (k : string) (ss : SelectionSetNode)
  (spreadsUsage : JS.dict (list string)) :
  bounded b types -> depths ss <= b ->
  bounded b (_appendToTypeMap
               (_appendToTypeMap types k (fieldItems (fields (separateSelectionSet ss))))
               k (usageItems (JS.get spreadsUsage k))).
Proof.
  intros H Hb. apply bounded_append; [apply bounded_append; [exact H|]|].
  - intros items. apply fieldItems_depth. exact Hb.
  - intros items. apply usageItems_depth.
Qed.

Lemma inlines_fuel (fuel b : nat) (ss : SelectionSetNode) :
  S (S (depths ss)) <= S fuel -> depths ss <= b ->
  1 <= fuel
  /\ Forall (fun i : InlineFragmentNode =>
               S (S (depths (selections i))) <= fuel /\ depths (selections i) <= b)
            (inlines (separateSelectionSet ss)).
Proof.
  intros Hf Hb. split; [lia|]. apply Forall_forall. intros i Hi.
  apply separate_inlines in Hi. apply depth_le_depths in Hi.
  change (depth (InlineFragment i)) with (S (depths (selections i))) in Hi. lia.
Qed.

Lemma collect_enough_fuel (fuel : nat) (this : SelectionSetToObject) (b : nat)
  (parentType : option GraphQLNamedType) (nodes : list InlineFragmentNode) (types : TypeMap) :
  1 <= fuel ->
  Forall (fun i : InlineFragmentNode =>
            S (S (depths (selections i))) <= fuel /\ depths (selections i) <= b) nodes ->
  bounded b types ->
  good b (_collectInlineFragments fuel this parentType nodes types).
Proof.
  revert parentType nodes types. induction fuel as [|fuel IH];
    intros parentType nodes types Hfuel Hnodes Htypes; [lia|].
  rewrite Forall_forall in Hnodes.
  assert (Hrec : forall parent' node types' k spreadsUsage,
             In node nodes -> bounded b types' ->
             good b (_collectInlineFragments fuel this parent'
                       (inlines (separateSelectionSet (selections node)))
                       (_appendToTypeMap
                          (_appendToTypeMap types' k
                             (fieldItems (fields (separateSelectionSet (selections node)))))
                          k (usageItems (JS.get spreadsUsage k))))).
  { intros parent' node types' k spreadsUsage Hin Hb.
    destruct (Hnodes node Hin) as [Hf Hd].
    destruct (inlines_fuel fuel b (selections node) Hf Hd) as [H1 Hall].
    apply IH; [exact H1 | exact Hall | apply bounded_attach; assumption]. }
  cbn [_collectInlineFragments].
  destruct parentType as [[parent|parentName fs|parentName members|n|n|n]|];
    try (apply good_Ok; exact Htypes).
  - apply good_foldM; [|exact Htypes]. intros node types' Hin Hb. cbv zeta.
    apply good_bind; [apply buildFragmentSpreadsUsage_fuel|]. intros spreadsUsage _.
    destruct (match typeCondition node with
              | Some n => getType (_schema this) n
              | None => Some (ObjectType parent)
              end) as [[o|n fs|n members|n|n|n]|]; try (apply good_Ok; exact Hb).
    + apply Hrec; assumption.
    + apply good_bind.
      * unfold callIsTypeOf. destruct (object_isTypeOf parent); discriminate.
      * intros implemented _. destruct implemented; [apply Hrec; assumption | apply good_Ok; exact Hb].
  - apply good_bind; [apply getPossibleTypes_fuel|]. intros possibleTypes _.
    apply good_foldM; [|exact Htypes]. intros node types' Hin Hb. cbv zeta.
    apply good_bind; [apply buildFragmentSpreadsUsage_fuel|]. intros spreadsUsage _.
    destruct (match typeCondition node with
              | Some n => getType (_schema this) n
              | None => Some (InterfaceType parentName fs)
              end) as [[o|n fs'|n members|n|n|n]|]; try (apply good_Ok; exact Hb).
    + destruct (existsb _ possibleTypes); [apply Hrec; assumption | apply good_Ok; exact Hb].
    + destruct (n =? parentName); [|apply good_Ok; exact Hb].
      apply good_foldM; [|exact Hb]. intros possibleType types'' _ Hb'.
      apply Hrec; assumption.
  - apply good_foldM; [|exact Htypes]. intros node types' Hin Hb. cbv zeta.
    apply good_bind; [apply buildFragmentSpreadsUsage_fuel|]. intros spreadsUsage _.
    destruct (match typeCondition node with
              | Some n => getType (_schema this) n
              | None => Some (UnionType parentName members)
              end) as [[o|n fs'|n members'|n|n|n]|]; try (apply good_Ok; exact Hb).
    + destruct (existsb _ (getTypes (_schema this) members));
        [apply Hrec; assumption | apply good_Ok; exact Hb].
    + apply good_bind; [apply getPossibleTypes_fuel|]. intros possibleInterfaceTypes _.
      apply good_foldM; [|exact Hb]. intros possibleType types'' _ Hb'.
      destruct (existsb _ possibleInterfaceTypes); [apply Hrec; assumption | apply good_Ok; exact Hb'].
Qed.

Lemma depths_le (ss : SelectionSetNode) (b : nat) :
  depths ss <= b <-> Forall (fun n => depth n <= b) ss.
Proof.
  unfold depths. rewrite list_max_le, Forall_map. reflexivity.
Qed.

Lemma splitKinds_members (selections : SelectionSetNode) :
  (forall f, In f (fieldNodes (splitKinds selections)) -> In (Field f) selections)
  /\ (forall i, In i (inlineFragmentSelections (splitKinds selections)) ->
                In (InlineFragment i) selections).
Proof.
  unfold splitKinds.
  assert (G : forall sel k0,
             let k := fold_left
                        (fun k selection =>
                           match selection with
                           | Field f =>
                               {| fieldNodes := (fieldNodes k ++ [f])%list;
                                  inlineFragmentSelections := inlineFragmentSelections k;
                                  fragmentSpreads := fragmentSpreads k |}
                           | InlineFragment i =>
                               {| fieldNodes := fieldNodes k;
                                  inlineFragmentSelections := (inlineFragmentSelections k ++ [i])%list;
                                  fragmentSpreads := fragmentSpreads k |}
                           | FragmentSpread sp =>
                               {| fieldNodes := fieldNodes k;
                                  inlineFragmentSelections := inlineFragmentSelections k;
                                  fragmentSpreads := (fragmentSpreads k ++ [sp])%list |}
                           end) sel k0 in
             (forall f, In f (fieldNodes k) -> In f (fieldNodes k0) \/ In (Field f) sel)
             /\ (forall i, In i (inlineFragmentSelections k) ->
                           In i (inlineFragmentSelections k0) \/ In (InlineFragment i) sel)).
  { induction sel as [|n sel IH]; intros k0; cbn [fold_left].
    - split; intros x H; left; exact H.
    - cbv zeta in IH. destruct n as [g|sp|j].
      + destruct (IH {| fieldNodes := (fieldNodes k0 ++ [g])%list;
                        inlineFragmentSelections := inlineFragmentSelections k0;
                        fragmentSpreads := fragmentSpreads k0 |}) as [H1 H2].
        split.
        * intros f Hf. destruct (H1 f Hf) as [H|H]; [|right; right; exact H].
          cbn [fieldNodes] in H. apply in_app_or in H.
          destruct H as [H|[->|[]]]; [left; exact H | right; left; reflexivity].
        * intros i Hi. destruct (H2 i Hi) as [H|H]; [left; exact H | right; right; exact H].
      + destruct (IH {| fieldNodes := fieldNodes k0;
                        inlineFragmentSelections := inlineFragmentSelections k0;
                        fragmentSpreads := (fragmentSpreads k0 ++ [sp])%list |}) as [H1 H2].
        split.
        * intros f Hf. destruct (H1 f Hf) as [H|H]; [left; exact H | right; right; exact H].
        * intros i Hi. destruct (H2 i Hi) as [H|H]; [left; exact H | right; right; exact H].
      + destruct (IH {| fieldNodes := fieldNodes k0;
                        inlineFragmentSelections := (inlineFragmentSelections k0 ++ [j])%list;
                        fragmentSpreads := fragmentSpreads k0 |}) as [H1 H2].
        split.
        * intros f Hf. destruct (H1 f Hf) as [H|H]; [left; exact H | right; right; exact H].
        * intros i Hi. destruct (H2 i Hi) as [H|H]; [|right; right; exact H].
          cbn [inlineFragmentSelections] in H. apply in_app_or in H.
          destruct H as [H|[->|[]]]; [left; exact H | right; left; reflexivity]. }
  destruct (G selections {| fieldNodes := []; inlineFragmentSelections := []; fragmentSpreads := [] |})
    as [H1 H2].
  split.
  - intros f Hf. destruct (H1 f Hf) as [[]|H]. exact H.
  - intros i Hi. destruct (H2 i Hi) as [[]|H]. exact H.
Qed.

Lemma bounded_usages (b : nat) (usage : JS.dict (list string)) (keys : list string) (types : TypeMap) :
  bounded b types ->
  bounded b (fold_left
               (fun selectionNodesByTypeName typeName =>
                  _appendToTypeMap selectionNodesByTypeName typeName
                    (usageItems (JS.get usage typeName)))
               keys types).
Proof.
  revert types. induction keys as [|k keys IH]; intros types H; simpl; [exact H|].
  apply IH. apply bounded_append; [exact H|]. intros items. apply usageItems_depth.
Qed.

Lemma flatten_enough_fuel (fuel : nat) (this : SelectionSetToObject) (selections : SelectionSetNode) :
  S (S (depths selections)) <= fuel ->
  good (depths selections) (flattenSelectionSet fuel this selections).
Proof.
  intros Hfuel. unfold flattenSelectionSet. cbv zeta.
  destruct (splitKinds_members selections) as [Hfields Hinlines].
  assert (Hin : Forall (fun i : InlineFragmentNode =>
                          S (S (depths (SelectionSet.selections i))) <= fuel
                          /\ depths (SelectionSet.selections i) <= depths selections)
                       (inlineFragmentSelections (splitKinds selections))).
  { apply Forall_forall. intros i Hi. apply Hinlines, depth_le_depths in Hi.
    change (depth (InlineFragment i)) with (S (depths (SelectionSet.selections i))) in Hi. lia. }
  apply good_bind.
  - destruct (JS.nonEmpty (fieldNodes (splitKinds selections))); [|discriminate].
    destruct (_parentSchemaType this); discriminate.
  - intros nodes Hnodes.
    assert (Hall : Forall (fun i : InlineFragmentNode =>
                             S (S (depths (SelectionSet.selections i))) <= fuel
                             /\ depths (SelectionSet.selections i) <= depths selections) nodes).
    { destruct (JS.nonEmpty (fieldNodes (splitKinds selections))).
      - destruct (_parentSchemaType this) as [t|]; [|discriminate].
        injection Hnodes as <-. apply Forall_app. split; [exact Hin|].
        constructor; [|constructor]. cbn [mkInline SelectionSet.selections].
        assert (Hd : depths (map Field (fieldNodes (splitKinds selections))) <= depths selections).
        { apply depths_le. apply Forall_map. apply Forall_forall. intros f Hf.
          apply depth_le_depths. apply Hfields. exact Hf. }
        lia.
      - injection Hnodes as <-. exact Hin. }
    destruct (collect_enough_fuel fuel this (depths selections) (_parentSchemaType this)
                nodes [] ltac:(lia) Hall (bounded_empty _)) as [Hc1 Hc2].
    apply good_bind; [exact Hc1|].
    intros types Htypes. apply good_bind; [apply buildFragmentSpreadsUsage_fuel|].
    intros usage _. apply good_Ok. apply bounded_usages.
    apply Hc2. exact Htypes.
Qed.

(** *** Merging does not deepen *)

Lemma replaceFirst_Forall {A : Type} (P : A -> Prop) (change : A -> option A) (l : list A) :
  (forall a a', change a = Some a' -> P a -> P a') ->
  Forall P l -> Forall P (replaceFirst change l).
Proof.
  intros Hc H. induction H as [|a l Ha Hl IH]; simpl; [constructor|].
  destruct (change a) as [a'|] eqn:E; constructor; try assumption.
  exact (Hc _ _ E Ha).
Qed.

Lemma mergeSelection_depth (d : nat) :
  forall (n : SelectionNode) (s1 : SelectionSetNode) (b : nat),
    depth n <= d -> depth n <= b -> depths s1 <= b -> depths (mergeSelection s1 n) <= b.
Proof.
  induction d as [|d IH]; intros n s1 b Hd Hn Hs.
  - destruct n as [f2|sp|i]; cbn [mergeSelection depth] in *.
    + destruct (fieldSelectionSet f2) as [ss2|] eqn:E2; [lia|].
      destruct (existsb _ s1).
      * apply depths_le. apply replaceFirst_Forall; [|apply depths_le; exact Hs].
        intros a a' Hc Ha. destruct a as [f1| |]; try discriminate.
        destruct (getFieldNodeNameValue f1 =? getFieldNodeNameValue f2); [|discriminate].
        destruct (fieldSelectionSet f1); injection Hc as <-; exact Ha.
      * apply depths_le. apply Forall_app. split; [apply depths_le; exact Hs|].
        constructor; [|constructor]. cbn [depth]. rewrite E2. lia.
    + apply depths_le. apply Forall_app. split; [apply depths_le; exact Hs|].
      constructor; [|constructor]. cbn [depth]. lia.
    + lia.
  - destruct n as [f2|sp|i]; cbn [mergeSelection].
    + destruct (existsb _ s1).
      * apply depths_le. apply replaceFirst_Forall; [|apply depths_le; exact Hs].
        intros a a' Hc Ha. destruct a as [f1| |]; try discriminate.
        destruct (getFieldNodeNameValue f1 =? getFieldNodeNameValue f2); [|discriminate].
        destruct (fieldSelectionSet f1) as [ss1|] eqn:E1;
          [destruct (fieldSelectionSet f2) as [ss2|] eqn:E2|];
          injection Hc as <-; try exact Ha.
        cbn [depth] in Ha, Hn, Hd. rewrite E1 in Ha. rewrite E2 in Hn, Hd.
        fold (depths ss1) in Ha. fold (depths ss2) in Hn, Hd.
        cbn [depth mkField fieldSelectionSet].
        fold (depths (fold_left mergeSelection ss2 ss1)).
        destruct b as [|b]; [lia|].
        assert (H1 : depths ss1 <= b) by lia.
        assert (H2 : Forall (fun x => depth x <= d /\ depth x <= b) ss2).
        { apply Forall_forall. intros x Hx. apply depth_le_depths in Hx. lia. }
        clear - IH H1 H2. apply le_n_S. revert ss1 H1.
        induction H2 as [|x ss2 [Hx1 Hx2] H2 IH2]; intros ss1 H1; [exact H1|].
        cbn [fold_left]. apply IH2. apply IH; assumption.
      * apply depths_le. apply Forall_app. split; [apply depths_le; exact Hs|].
        constructor; [exact Hn | constructor].
    + apply depths_le. apply Forall_app. split; [apply depths_le; exact Hs|].
      constructor; [exact Hn | constructor].
    + apply depths_le. apply Forall_app. split; [apply depths_le; exact Hs|].
      constructor; [exact Hn | constructor].
Qed.

Lemma mergeSelectionSets_depths (s1 s2 : SelectionSetNode) (b : nat) :
  depths s1 <= b -> depths s2 <= b -> depths (mergeSelectionSets s1 s2) <= b.
Proof.
  unfold mergeSelectionSets. intros H1 H2. apply depths_le in H2. revert s1 H1.
  induction H2 as [|n s2 Hn H2 IH]; intros s1 H1; [exact H1|].
  cbn [fold_left]. apply IH. apply (mergeSelection_depth (depth n)); [lia | exact Hn | exact H1].
Qed.

(** *** The transformation *)

Lemma Forall_set {V : Type} (Q : V -> Prop) (d : JS.dict V) (k : string) (v : V) :
  Forall (fun kv => Q (snd kv)) d -> Q v -> Forall (fun kv => Q (snd kv)) (JS.set d k v).
Proof.
  intros H Hv. induction H as [|[k0 v0] d H0 H IH]; simpl.
  - constructor; [exact Hv | constructor].
  - destruct (k0 =? k); constructor; try assumption.
Qed.

Lemma Forall_get {V : Type} (Q : V -> Prop) (d : JS.dict V) (k : string) (v : V) :
  Forall (fun kv => Q (snd kv)) d -> JS.get d k = Some v -> Q v.
Proof.
  intros H. induction H as [|[k0 v0] d H0 H IH]; simpl; [discriminate|].
  destruct (k0 =? k); [|exact IH]. intros E. injection E as <-. exact H0.
Qed.

Lemma classifyNode_linksBelow (parent : GraphQLObjectType) (b : nat) (c c' : Classified)
  (a : SelectionItem) :
  itemDepth a <= b ->
  classifyNode parent c a = Ok c' ->
  linksBelow b (linkFieldSelectionSets c) -> linksBelow b (linkFieldSelectionSets c').
Proof.
  intros Ha Hstep Hl. destruct a as [[f|sp|i]|usage]; simpl in Hstep;
    try (injection Hstep as <-; exact Hl).
  destruct (fieldSelectionSet f) as [ss|] eqn:Ess.
  - destruct (if isMetadataFieldName (fieldName f) then metadataFieldMap (fieldName f)
              else option_map field_type (getField (object_fields parent) (fieldName f)))
      as [type|]; [|discriminate].
    injection Hstep as <-. cbn [linkFieldSelectionSets].
    assert (Hss : S (depths ss) <= b).
    { unfold itemDepth in Ha. cbn [depth] in Ha. rewrite Ess in Ha. exact Ha. }
    destruct (JS.get (linkFieldSelectionSets c) (getFieldNodeNameValue f)) as [l0|] eqn:Eg.
    + destruct (fieldSelectionSet (field l0)) as [first|] eqn:Ef; [|exact Hl].
      apply (Forall_set (fun l => S (depths (childSelections (field l))) <= b
                                  \/ fieldSelectionSet (field l) = None)); [exact Hl|].
      left. cbn [field childSelections mkField fieldSelectionSet].
      assert (H0 := Forall_get (fun l => S (depths (childSelections (field l))) <= b
                                         \/ fieldSelectionSet (field l) = None) _ _ _ Hl Eg).
      cbv beta in H0. destruct H0 as [H0|H0]; [|rewrite Ef in H0; discriminate].
      unfold childSelections in H0. rewrite Ef in H0.
      destruct b as [|b]; [lia|]. apply le_n_S. apply mergeSelectionSets_depths; lia.
    + apply (Forall_set (fun l => S (depths (childSelections (field l))) <= b
                                  \/ fieldSelectionSet (field l) = None)); [exact Hl|].
      left. cbn [field]. unfold childSelections. rewrite Ess. exact Hss.
  - destruct (fieldAlias f); [injection Hstep as <-; exact Hl|].
    destruct (fieldName f =? "__typename"); injection Hstep as <-; exact Hl.
Qed.

Lemma classify_fuel (parent : GraphQLObjectType) (b : nat) (items : list SelectionItem) :
  Forall (fun item => itemDepth item <= b) items ->
  classify parent items <> Throw OutOfFuel
  /\ forall c, classify parent items = Ok c -> linksBelow b (linkFieldSelectionSets c).
Proof.
  intros H. unfold classify.
  apply (fuel_foldM (fun c => linksBelow b (linkFieldSelectionSets c))); [|constructor].
  intros a c Hin Hc. rewrite Forall_forall in H. split.
  - intros E. apply classifyNode_throws in E. destruct E as [f [_ [_ [_ [_ E]]]]]. discriminate.
  - intros c' E. exact (classifyNode_linksBelow parent b c c' a (H a Hin) E Hc).
Qed.

Lemma build_enough_fuel (recur : SelectionSetToObject -> result string)
  (this : SelectionSetToObject) (parent : GraphQLObjectType) (b : nat)
  (items : list SelectionItem) :
  programProcessor (_processor this) ->
  Forall (fun item => itemDepth item <= b) items ->
  (forall next,
     _processor next = _processor this ->
     (forall ss, _selectionSet next = Some ss -> S (depths ss) <= b) ->
     recur next <> Throw OutOfFuel) ->
  buildSelectionSetStringWith recur this parent items <> Throw OutOfFuel.
Proof.
  intros [P1 [P2 [P3 P4]]] Hitems Hrec. unfold buildSelectionSetStringWith.
  destruct (classify_fuel parent b items Hitems) as [Hc1 Hc2].
  apply fuel_bind; [exact Hc1|]. intros c Hc. specialize (Hc2 c Hc).
  apply fuel_bind.
  - apply fuel_mapM. intros l Hl. cbv zeta.
    apply fuel_bind; [|intros text _; discriminate].
    apply Hrec; [reflexivity|]. cbn [createNext _selectionSet]. intros ss Ess.
    unfold linksBelow in Hc2. rewrite Forall_forall in Hc2.
    unfold JS.values in Hl. apply in_map_iff in Hl. destruct Hl as [kv [<- Hkv]].
    destruct (Hc2 kv Hkv) as [H|H]; [|rewrite H in Ess; discriminate].
    unfold childSelections in H. rewrite Ess in H. exact H.
  - intros linkFields _.
    apply fuel_bind.
    { destruct (buildTypeNameField this parent _ _ _); [apply P1 | discriminate]. }
    intros t1 _. apply fuel_bind; [apply P2|].
    intros t2 _. apply fuel_bind; [apply P3|].
    intros t3 _. apply fuel_bind; [apply P4|].
    intros t4 _. discriminate.
Qed.

Lemma transform_enough_fuel (fuel : nat) :
  forall this : SelectionSetToObject,
    programProcessor (_processor this) ->
    1 <= fuel ->
    (forall ss, _selectionSet this = Some ss -> S (S (depths ss)) <= fuel) ->
    transformSelectionSet fuel this <> Throw OutOfFuel.
Proof.
  induction fuel as [|fuel IH]; intros this Hp Hfuel Hsel; [lia|].
  cbn [transformSelectionSet]. apply fuel_bind; [|intros grouped _; discriminate].
  unfold _buildGroupedSelectionsWith.
  destruct (_selectionSet this) as [[|first rest]|] eqn:Es; try discriminate.
  specialize (Hsel _ eq_refl).
  destruct (flatten_enough_fuel (S fuel) this (first :: rest) Hsel) as [Hf1 Hf2].
  apply fuel_bind; [exact Hf1|]. intros types Htypes. specialize (Hf2 types Htypes).
  apply fuel_bind; [apply getPossibleTypes_fuel|]. intros possibleTypes _.
  apply (fuel_foldM (fun _ => True)); [|exact I].
  intros type prev _ _. split; [|intros; exact I].
  unfold groupPossibleType. cbv zeta.
  destruct (getType (_schema this) (object_name type)) as [[schemaType| | | | |]|];
    try discriminate.
  apply fuel_bind.
  - apply (build_enough_fuel _ this schemaType (depths (first :: rest))); [exact Hp| |].
    + destruct (JS.get types (object_name type)) as [l|] eqn:El; [|constructor].
      exact (Hf2 _ _ El).
    + intros next Hnext Hss. apply IH.
      * rewrite Hnext. exact Hp.
      * lia.
      * intros ss Ess. specialize (Hss ss Ess). lia.
  - intros transformedSet _. destruct transformedSet as [text|]; [|discriminate].
    destruct (JS.truthy text); discriminate.
Qed.

(** X14.  Two units of fuel above the depth of the selection set are
    enough: the transformation then answers with a type expression or
    with an exception of the program, and every larger fuel gives the
    same answer. *)
Theorem transformSelectionSet_enough_fuel (this : SelectionSetToObject) (more : nat) :
  programProcessor (_processor this) ->
  let fuel := 2 + depths (match _selectionSet this with Some ss => ss | None => [] end) in
  transformSelectionSet fuel this <> Throw OutOfFuel
  /\ transformSelectionSet (more + fuel) this = transformSelectionSet fuel this.
Proof.
  intros Hp fuel.
  assert (H : transformSelectionSet fuel this <> Throw OutOfFuel).
  { apply transform_enough_fuel; [exact Hp | unfold fuel; lia|].
    intros ss Ess. unfold fuel. rewrite Ess. lia. }
  split; [exact H | apply transformSelectionSet_fuel_monotone; exact H].
Qed.

Lemma pickProcessor_program : programProcessor pickProcessor.
Proof.
  repeat split; intros; simpl; try discriminate.
  destruct names; discriminate.
Qed.

Lemma transformSelectionSet_enough_fuel_witness :
  transformSelectionSet 4
    (instance [] (Some (ObjectType Query))
       (Some [link "pet" [leaf "id"; on "Dog" [link "owner" [leaf "name"]]]]))
  <> Throw OutOfFuel.
Proof.
  apply (transformSelectionSet_enough_fuel
           (instance [] (Some (ObjectType Query))
              (Some [link "pet" [leaf "id"; on "Dog" [link "owner" [leaf "name"]]]]))
           0 pickProcessor_program).
Defined.

(** * Further properties of the code *)

(** ** The map of provided fields *)

Lemma foldM_flat_map {A B S : Type} (g : S -> B -> result S) (h : A -> list B) (l : list A) (s : S) :
  foldM (fun s0 a => foldM g (h a) s0) l s = foldM g (flat_map h l) s.
Proof.
  revert s. induction l as [|a l IH]; intros s; simpl; [reflexivity|].
  assert (Happ : forall l1 l2 s0, foldM g (l1 ++ l2) s0 = s1 <- foldM g l1 s0 ;; foldM g l2 s1).
  { induction l1 as [|b l1 IH1]; intros l2 s0; simpl; [reflexivity|].
    destruct (g s0 b); simpl; [apply IH1 | reflexivity]. }
  rewrite Happ. destruct (foldM g (h a) s); simpl; [apply IH | reflexivity].
Qed.

Lemma createMapOfProvides_fold (schema : GraphQLSchema) :
  createMapOfProvides schema = foldM provideField (objectFields schema) [].
Proof.
  unfold createMapOfProvides, objectFields.
  rewrite <- (foldM_flat_map provideField
                (fun typename => match getType schema typename with
                                 | Some (ObjectType o) => object_fields o
                                 | _ => []
                                 end)).
  apply foldM_ext. intros d typename.
  destruct (getType schema typename) as [[o| | | | |]|]; reflexivity.
Qed.

Lemma provideField_providesOf (d : JS.dict (list string)) (f : GraphQLField) :
  provideField d f =
    names <- providesOf f ;;
    Ok (JS.push (JS.ensure d (Utils.getBaseType (field_type f)))
                (Utils.getBaseType (field_type f)) names).
Proof.
  unfold provideField, providesOf.
  destruct (mapM extractFieldSet
              (getDirectivesByName "provides" (HostNode (field_astNode f)))); reflexivity.
Qed.

Lemma entry_after_push {V : Type} (d : JS.dict (list V)) (k k' : string) (vs : list V) :
  entry (JS.push (JS.ensure d k) k vs) k' =
    (entry d k' ++ (if k =? k' then vs else []))%list.
Proof.
  unfold entry. rewrite get_push, !get_ensure, String.eqb_refl.
  destruct (k =? k') eqn:Ek.
  - apply String.eqb_eq in Ek. subst k'. destruct (JS.get d k); reflexivity.
  - rewrite app_nil_r. destruct (JS.get d k); destruct (JS.get d k'); reflexivity.
Qed.

Lemma foldM_provideField (fields : list GraphQLField) (d : JS.dict (list string)) :
  (forall m, foldM provideField fields d = Ok m ->
             forall T, entry m T = (entry d T ++ providedTo T fields)%list)
  /\ ((exists e, foldM provideField fields d = Throw e)
      <-> exists f, In f fields /\ exists e, providesOf f = Throw e).
Proof.
  revert d. induction fields as [|f fields IH]; intros d.
  - split.
    + intros m E T. injection E as <-. simpl. rewrite app_nil_r. reflexivity.
    + split; [intros [e E]; discriminate | intros [f [[] _]]].
  - cbn [foldM]. rewrite provideField_providesOf.
    destruct (providesOf f) as [names|e0] eqn:Ep; cbn [bind].
    + destruct (IH (JS.push (JS.ensure d (Utils.getBaseType (field_type f)))
                            (Utils.getBaseType (field_type f)) names)) as [IH1 IH2].
      split.
      * intros m E T. rewrite (IH1 m E T), entry_after_push. unfold providedTo at 2.
        cbn [flat_map]. rewrite Ep, <- app_assoc.
        destruct (Utils.getBaseType (field_type f) =? T); reflexivity.
      * rewrite IH2. split.
        -- intros [f' [Hin He]]. exists f'. split; [right; exact Hin | exact He].
        -- intros [f' [[<-|Hin] [e He]]]; [rewrite Ep in He; discriminate|].
           exists f'. split; [exact Hin | exists e; exact He].
    + split; [discriminate|]. split.
      * intros _. exists f. split; [left; reflexivity | exists e0; exact Ep].
      * intros _. exists e0. reflexivity.
Qed.

Lemma new_Ok (enabled : bool) (schema : GraphQLSchema) (fed : ApolloFederation) :
  Federation.new enabled schema = Ok fed ->
  Federation.enabled fed = enabled
  /\ forall typeName,
       entry (providesMap fed) typeName = providedTo typeName (objectFields schema).
Proof.
  unfold Federation.new. rewrite createMapOfProvides_fold.
  destruct (foldM_provideField (objectFields schema) []) as [H1 _].
  intros E. apply bind_Ok in E. destruct E as [m [Em E]]. injection E as <-.
  split; [reflexivity|]. intros T. cbn [providesMap]. rewrite (H1 m Em T). reflexivity.
Qed.

(** X1.  When the declared types of the fields of the object types have
    ordinary names, the constructor reads the [provides] directives of
    every field of every object type, with federation enabled or not: it
    throws exactly when the directives of one of these fields cannot be
    read, and otherwise the entry of a type in the map of provided
    fields is what the fields of that type (their declared type without
    its wrappers) provide, in the order of the schema. *)
Theorem new_reads_every_provides (enabled : bool) (schema : GraphQLSchema) :
  ordinaryFieldTypes schema ->
  ((exists e, Federation.new enabled schema = Throw e)
   <-> exists f, In f (objectFields schema) /\ exists e, providesOf f = Throw e)
  /\ forall fed,
       Federation.new enabled schema = Ok fed ->
       Federation.enabled fed = enabled
       /\ forall typeName,
            entry (providesMap fed) typeName = providedTo typeName (objectFields schema).
Proof.
  intros _. unfold Federation.new. rewrite createMapOfProvides_fold.
  destruct (foldM_provideField (objectFields schema) []) as [H1 H2].
  split.
  - rewrite <- H2. destruct (foldM provideField (objectFields schema) []) as [m|e]; cbn [bind].
    + split; intros [e E]; discriminate.
    + split; intros _; exists e; reflexivity.
  - intros fed E. apply bind_Ok in E. destruct E as [m [Em E]]. injection E as <-.
    split; [reflexivity|]. intros T. cbn [providesMap]. rewrite (H1 m Em T). reflexivity.
Qed.

Lemma reviewSchema_fields_ordinary : ordinaryFieldTypes reviewSchema.
Proof.
  intros f Hin. vm_compute in Hin.
  repeat (destruct Hin as [<-|Hin]; [reflexivity|]). destruct Hin.
Qed.

Lemma nestedSchema_fields_ordinary : ordinaryFieldTypes nestedSchema.
Proof.
  intros f Hin. vm_compute in Hin.
  repeat (destruct Hin as [<-|Hin]; [reflexivity|]). destruct Hin.
Qed.

Lemma new_reads_every_provides_witness :
  (exists fed,
     Federation.new true reviewSchema = Ok fed
     /\ entry (providesMap fed) "User" = ["name"])
  /\ exists e, Federation.new false nestedSchema = Throw e.
Proof.
  split.
  - destruct (Federation.new true reviewSchema) as [fed|e] eqn:E; [|discriminate].
    exists fed. split; [reflexivity|].
    destruct (new_reads_every_provides true reviewSchema reviewSchema_fields_ordinary)
      as [_ H].
    destruct (H fed E) as [_ Hentry]. rewrite Hentry. reflexivity.
  - apply (new_reads_every_provides false nestedSchema nestedSchema_fields_ordinary).
    exists (List.hd (plainField "" (NamedTypeRef "")) (object_fields ReviewNested)).
    split; [left; reflexivity|]. eexists. reflexivity.
Defined.

(** ** Skipped fields *)

Lemma hasProvides_includes (fed : ApolloFederation) (o : GraphQLObjectType) (node : DefinitionNode) :
  hasProvides fed o node = JS.includes (entry (providesMap fed) (object_name o)) (node_name node).
Proof.
  unfold hasProvides, entry. destruct (JS.get (providesMap fed) (object_name o)) as [[|x l]|];
    reflexivity.
Qed.

(** X2.  With federation enabled and ordinary names for the object type
    and for the declared types of the fields of the schema, a field of a
    federation object type is skipped exactly when it carries an
    [external] directive and no field of an object type of the schema
    whose type is this object type provides it. *)
Theorem skipField_external_and_not_provided (schema : GraphQLSchema) (fed : ApolloFederation)
  (fieldNode : DefinitionNode) (o : GraphQLObjectType) :
  ordinaryFieldTypes schema ->
  ordinary (object_name o) ->
  Federation.new true schema = Ok fed ->
  isFederationObjectType (inr o) = Ok true ->
  skipField fed fieldNode (ObjectType o)
  = Ok (isExternal fieldNode
        && negb (JS.includes (providedTo (object_name o) (objectFields schema))
                             (node_name fieldNode)))
  /\ (skipField fed fieldNode (ObjectType o) = Ok true
      <-> getDirectivesByName "external" (HostNode (Some fieldNode)) <> []
          /\ ~ In (node_name fieldNode) (providedTo (object_name o) (objectFields schema))).
Proof.
  intros _ _ Hnew Hfed.
  destruct (new_Ok true schema fed Hnew) as [Hen Hentry].
  assert (E : skipField fed fieldNode (ObjectType o)
              = Ok (isExternal fieldNode
                    && negb (JS.includes (providedTo (object_name o) (objectFields schema))
                                         (node_name fieldNode)))).
  { unfold skipField. rewrite Hen, Hfed. cbn [negb bind]. unfold isExternalAndNotProvided.
    rewrite hasProvides_includes, Hentry. reflexivity. }
  split; [exact E|]. rewrite E. unfold isExternal. split.
  - intros Ht. injection Ht as Ht. apply andb_true_iff in Ht. destruct Ht as [H1 H2]. split.
    + intros E0. rewrite E0 in H1. discriminate.
    + rewrite <- includes_In. destruct (JS.includes _ _); [discriminate | discriminate].
  - intros [H1 H2]. f_equal. apply andb_true_iff. split.
    + destruct (getDirectivesByName "external" (HostNode (Some fieldNode))); [contradiction|reflexivity].
    + rewrite <- includes_In in H2. destruct (JS.includes _ _); [contradiction|reflexivity].
Qed.

Lemma skipField_external_and_not_provided_witness :
  exists fed,
    Federation.new true reviewSchema = Ok fed
    /\ skipField fed (externalField "email") (ObjectType User) = Ok true
    /\ skipField fed (externalField "name") (ObjectType User) = Ok false.
Proof.
  destruct (Federation.new true reviewSchema) as [fed|e] eqn:E; [|discriminate].
  exists fed. split; [reflexivity|]. split.
  - destruct (skipField_external_and_not_provided reviewSchema fed (externalField "email") User
                reviewSchema_fields_ordinary eq_refl E eq_refl) as [H _].
    rewrite H. reflexivity.
  - destruct (skipField_external_and_not_provided reviewSchema fed (externalField "name") User
                reviewSchema_fields_ordinary eq_refl E eq_refl) as [H _].
    rewrite H. reflexivity.
Defined.

(** ** Types that federation leaves alone *)

Lemma existsb_none {A : Type} (p : A -> bool) (l : list A) :
  (forall a, In a l -> p a = false) -> existsb p l = false.
Proof.
  intros H. induction l as [|a l IH]; simpl; [reflexivity|].
  rewrite (H a (or_introl eq_refl)), IH; [reflexivity|].
  intros b Hb. apply H. right. exact Hb.
Qed.

Lemma isFederationObjectType_false (o : GraphQLObjectType) (n : DefinitionNode)
  (ds : list DirectiveNode) :
  object_astNode o = Some n ->
  node_directives n = Some ds ->
  In (object_name o) ["Query"; "Mutation"; "Subscription"]
  \/ JS.startsWith (object_name o) "__" = true
  \/ (forall d, In d ds -> directive_name d <> "key") ->
  isFederationObjectType (inr o) = Ok false.
Proof.
  intros Hn Hds H. unfold isFederationObjectType. rewrite Hn, Hds. cbn [bind]. f_equal.
  destruct H as [H|[H|H]].
  - apply includes_In in H. rewrite H. reflexivity.
  - rewrite H. apply andb_false_iff. left. apply andb_false_r.
  - rewrite existsb_none; [apply andb_false_r|].
    intros d Hd. apply String.eqb_neq. apply H. exact Hd.
Qed.

(** X3.  Whether federation is enabled or not, [skipField] skips nothing
    and [translateParentType] gives the signature back for a parent that
    is not an object type (an interface type with a [key] directive
    included), and for an object type that has a definition node with
    directives and that is a root type ([Query], [Mutation],
    [Subscription]), has a name that begins with two underscores, or has
    no [key] directive among them; [translateParentType] also gives the
    signature back for every field other than [__resolveReference] of
    an object type that has a definition node with directives.  An
    object type without a definition node is another matter: with
    federation enabled it makes both throw. *)
Theorem types_outside_federation_are_untouched (fed : ApolloFederation)
  (fieldNode : DefinitionNode) (sig : string) :
  (forall parentType,
     (forall o, parentType <> ObjectType o) ->
     skipField fed fieldNode parentType = Ok false
     /\ translateParentType fed fieldNode parentType sig = Ok sig)
  /\ (forall o n ds,
        object_astNode o = Some n ->
        node_directives n = Some ds ->
        In (object_name o) ["Query"; "Mutation"; "Subscription"]
        \/ JS.startsWith (object_name o) "__" = true
        \/ (forall d, In d ds -> directive_name d <> "key") ->
        skipField fed fieldNode (ObjectType o) = Ok false
        /\ translateParentType fed fieldNode (ObjectType o) sig = Ok sig)
  /\ (forall o n ds,
        object_astNode o = Some n ->
        node_directives n = Some ds ->
        node_name fieldNode <> "__resolveReference" ->
        translateParentType fed fieldNode (ObjectType o) sig = Ok sig).
Proof.
  split; [|split].
  - intros parentType Hno. unfold skipField, translateParentType.
    destruct (enabled fed); cbn [negb]; [|split; reflexivity].
    destruct parentType as [o| | | | |]; try (split; reflexivity).
    exfalso. apply (Hno o). reflexivity.
  - intros o n ds Hn Hds H. unfold skipField, translateParentType.
    rewrite (isFederationObjectType_false o n ds Hn Hds H).
    destruct (enabled fed); split; reflexivity.
  - intros o n ds Hn Hds Hname. unfold translateParentType.
    destruct (enabled fed); cbn [negb]; [|reflexivity].
    unfold isFederationObjectType. rewrite Hn, Hds. cbn [bind].
    apply String.eqb_neq in Hname. rewrite Hname, andb_false_r. reflexivity.
Qed.

Lemma types_outside_federation_are_untouched_witness :
  skipField federationOn (externalField "id") (ObjectType QueryWithKey) = Ok false
  /\ translateParentType federationOn (resolveReference []) (ObjectType QueryWithKey) "ParentType"
     = Ok "ParentType"
  /\ translateParentType federationOn (resolveReference [])
       (InterfaceType "Node" [plainField "id" (NamedTypeRef "ID")]) "ParentType"
     = Ok "ParentType"
  /\ translateParentType federationOn (externalField "id") (ObjectType User) "ParentType"
     = Ok "ParentType".
Proof.
  destruct (types_outside_federation_are_untouched federationOn (externalField "id") "ParentType")
    as [_ [H2 H3]].
  destruct (types_outside_federation_are_untouched federationOn (resolveReference []) "ParentType")
    as [H1 [H2' _]].
  split; [|split; [|split]].
  - apply (H2 QueryWithKey _ _ eq_refl eq_refl). left. left. reflexivity.
  - apply (H2' QueryWithKey _ _ eq_refl eq_refl). left. left. reflexivity.
  - apply H1. intros o. discriminate.
  - apply (H3 User _ _ eq_refl eq_refl). discriminate.
Defined.

(** X4.  With federation enabled, an object type that has no definition
    node (a type made in code, not from a schema text) makes [skipField]
    and [translateParentType] throw, whatever its name and the field
    are: the directives are read before the name is looked at. *)
Theorem object_type_without_definition_throws (fed : ApolloFederation)
  (fieldNode : DefinitionNode) (o : GraphQLObjectType) (sig : string) :
  enabled fed = true ->
  object_astNode o = None ->
  skipField fed fieldNode (ObjectType o)
  = Throw (TypeError "Cannot read property 'directives' of undefined")
  /\ translateParentType fed fieldNode (ObjectType o) sig
     = Throw (TypeError "Cannot read property 'directives' of undefined").
Proof.
  intros He Hn. unfold skipField, translateParentType, isFederationObjectType.
  rewrite He, Hn. split; reflexivity.
Qed.

Lemma object_type_without_definition_throws_witness :
  skipField federationOn (externalField "id") (ObjectType UserInCode)
  = Throw (TypeError "Cannot read property 'directives' of undefined").
Proof.
  apply (object_type_without_definition_throws federationOn (externalField "id") UserInCode "");
    reflexivity.
Defined.

(** ** Failures of [translateParentType] *)

Lemma extractFieldSet_nested (d : DirectiveNode) :
  nestedFieldSet d ->
  extractFieldSet d = Throw (Error "Nested fields in _FieldSet is not supported").
Proof.
  intros [arg [Hf Hb]]. rewrite (extractFieldSet_value d arg Hf).
  apply testBraces_spec in Hb. rewrite Hb. reflexivity.
Qed.

Lemma extractFieldSet_with_argument (d : DirectiveNode) :
  hasFieldsArgument d ->
  extractFieldSet d = Throw (Error "Nested fields in _FieldSet is not supported")
  \/ exists names, extractFieldSet d = Ok names.
Proof.
  intros [arg Hf]. rewrite (extractFieldSet_value d arg Hf).
  destruct (JS.testBraces (arg_value arg)); [left; reflexivity | right; eexists; reflexivity].
Qed.

Lemma mapM_Throw {A B : Type} (f : A -> result B) (l : list A) (e : exn) :
  Forall (fun a => f a = Throw e \/ exists b, f a = Ok b) l ->
  Exists (fun a => f a = Throw e) l ->
  mapM f l = Throw e.
Proof.
  intros Hall Hex. induction Hall as [|a l Ha Hall IH]; [inversion Hex|].
  cbn [mapM]. destruct Ha as [Ha|[b Ha]]; rewrite Ha; cbn [bind]; [reflexivity|].
  inversion Hex as [a' l' Hh|a' l' Ht]; subst; [rewrite Ha in Hh; discriminate|].
  rewrite (IH Ht). reflexivity.
Qed.

Lemma mapM_extractFieldSet_nested (ds : list DirectiveNode) :
  Forall hasFieldsArgument ds ->
  Exists nestedFieldSet ds ->
  mapM extractFieldSet ds = Throw (Error "Nested fields in _FieldSet is not supported").
Proof.
  intros Hall Hex. apply mapM_Throw.
  - apply Forall_forall. intros d Hd. apply extractFieldSet_with_argument.
    rewrite Forall_forall in Hall. apply Hall. exact Hd.
  - apply Exists_exists. apply Exists_exists in Hex. destruct Hex as [d [Hd Hn]].
    exists d. split; [exact Hd | apply extractFieldSet_nested; exact Hn].
Qed.

Lemma mapM_some_Throw {A B : Type} (f : A -> result B) (l : list A) (e : exn) :
  (forall a, In a l -> f a = Throw e \/ exists b, f a = Ok b) ->
  (exists a, In a l /\ f a = Throw e) ->
  mapM f l = Throw e.
Proof.
  intros Hall Hex. apply mapM_Throw.
  - apply Forall_forall. exact Hall.
  - apply Exists_exists. exact Hex.
Qed.

(** X5.  How [translateParentType] fails on the field
    [__resolveReference] of a federation object type, with federation
    enabled.  The [requires] directives of the field are read first: a
    nested field set among them raises "Nested fields in _FieldSet is
    not supported"; a name they require that is no field of the parent
    type raises a [TypeError]; a nested field set among the [key]
    directives of the type raises the nested-fields error once the
    [requires] directives went through. *)
Theorem translateParentType_failures (fed : ApolloFederation) (fieldNode : DefinitionNode)
  (o : GraphQLObjectType) (sig : string) :
  enabled fed = true ->
  isFederationObjectType (inr o) = Ok true ->
  node_name fieldNode = "__resolveReference" ->
  let requires := getDirectivesByName "requires" (HostNode (Some fieldNode)) in
  let keys := getDirectivesByName "key" (HostType (ObjectType o)) in
  let answer := translateParentType fed fieldNode (ObjectType o) sig in
  (Forall hasFieldsArgument requires ->
   Exists nestedFieldSet requires ->
   answer = Throw (Error "Nested fields in _FieldSet is not supported"))
  /\ (forall sets name,
        mapM extractFieldSet requires = Ok sets ->
        In name (List.concat sets) ->
        getField (object_fields o) name = None ->
        answer = Throw (TypeError "Cannot read property 'type' of undefined"))
  /\ (forall items,
        requiresItems fieldNode o = Ok items ->
        Forall hasFieldsArgument keys ->
        Exists nestedFieldSet keys ->
        answer = Throw (Error "Nested fields in _FieldSet is not supported")).
Proof.
  intros He Hfed Hname requires keys answer.
  assert (Hne := isFederationObjectType_keys _ Hfed).
  assert (Hanswer : forall e, requiresItems fieldNode o = Throw e -> answer = Throw e).
  { intros e Hr. unfold answer, translateParentType. rewrite He, Hfed, Hname.
    cbn [negb bind andb]. rewrite String.eqb_refl.
    destruct (getDirectivesByName "key" (HostType (ObjectType o))); [contradiction|].
    cbn [JS.nonEmpty]. rewrite Hr. reflexivity. }
  split; [|split].
  - intros Hall Hex. apply Hanswer. unfold requiresItems.
    fold requires. rewrite (mapM_extractFieldSet_nested requires Hall Hex). reflexivity.
  - intros sets name Hsets Hin Hnone. apply Hanswer. unfold requiresItems.
    fold requires. rewrite Hsets. cbn [bind]. apply mapM_some_Throw.
    + intros a _. destruct (getField (object_fields o) a);
        [right; eexists; reflexivity | left; reflexivity].
    + exists name. split; [exact Hin|]. rewrite Hnone. reflexivity.
  - intros items Hitems Hall Hex. unfold answer, translateParentType.
    rewrite He, Hfed, Hname. cbn [negb bind andb]. rewrite String.eqb_refl.
    fold keys. fold keys in Hne.
    destruct (JS.nonEmpty keys) eqn:Hk; [|destruct keys; [contradiction|discriminate]].
    rewrite Hitems. cbn [bind]. rewrite mapM_keyItems.
    rewrite (mapM_Throw (fun def => names <- extractFieldSet def ;; Ok (Pick sig names)) keys
               (Error "Nested fields in _FieldSet is not supported")); [reflexivity| |].
    + apply Forall_forall. intros d Hd. rewrite Forall_forall in Hall.
      destruct (extractFieldSet_with_argument d (Hall d Hd)) as [E|[names E]]; rewrite E;
        [left; reflexivity | right; eexists; reflexivity].
    + apply Exists_exists. apply Exists_exists in Hex. destruct Hex as [d [Hd Hn]].
      exists d. split; [exact Hd|]. rewrite (extractFieldSet_nested d Hn). reflexivity.
Qed.

Lemma translateParentType_failures_witness :
  translateParentType federationOn (resolveReference [directive "requires" "address { city }"])
    (ObjectType User) "ParentType"
  = Throw (Error "Nested fields in _FieldSet is not supported")
  /\ translateParentType federationOn (resolveReference [directive "requires" "name phone"])
       (ObjectType User) "ParentType"
     = Throw (TypeError "Cannot read property 'type' of undefined").
Proof.
  split.
  - destruct (translateParentType_failures federationOn
                (resolveReference [directive "requires" "address { city }"]) User "ParentType"
                eq_refl eq_refl eq_refl) as [H _].
    apply H.
    + constructor; [|constructor]. eexists. reflexivity.
    + constructor. eexists. split; [reflexivity|]. exists 8. left. reflexivity.
  - destruct (translateParentType_failures federationOn
                (resolveReference [directive "requires" "name phone"]) User "ParentType"
                eq_refl eq_refl eq_refl) as [_ [H _]].
    apply (H [["name"; "phone"]] "phone"); [reflexivity | | reflexivity].
    right. left. reflexivity.
Defined.

(** ** The name filters *)

Lemma filter_idempotent {A : Type} (p : A -> bool) (l : list A) :
  filter p (filter p l) = filter p l.
Proof.
  induction l as [|a l IH]; simpl; [reflexivity|].
  destruct (p a) eqn:E; simpl; [rewrite E, IH; reflexivity | exact IH].
Qed.

Lemma filter_all {A : Type} (p : A -> bool) (l : list A) :
  (forall a, p a = true) -> filter p l = l.
Proof.
  intros H. induction l as [|a l IH]; simpl; [reflexivity|]. rewrite H, IH. reflexivity.
Qed.

(** X6.  The two name filters agree with the rest of the component:
    [filterTypeNames] keeps, in their order, exactly the names that
    [skipScalar] does not skip, [filterFieldNames] drops the name
    [__resolveReference] and nothing else when federation is enabled,
    and filtering twice is filtering once. *)
Theorem name_filters_agree_with_skips (fed : ApolloFederation) (names : list string) :
  filterTypeNames fed names = filter (fun t => negb (skipScalar fed t)) names
  /\ filterTypeNames fed (filterTypeNames fed names) = filterTypeNames fed names
  /\ filterFieldNames fed (filterFieldNames fed names) = filterFieldNames fed names
  /\ (forall x, In x (filterFieldNames fed names)
                <-> In x names /\ (enabled fed = true -> x <> "__resolveReference")).
Proof.
  unfold filterTypeNames, filterFieldNames, skipScalar.
  destruct (enabled fed); cbn [andb].
  - split; [reflexivity|]. split; [apply filter_idempotent|]. split; [apply filter_idempotent|].
    intros x. rewrite filter_In, negb_true_iff, String.eqb_neq. tauto.
  - split; [symmetry; apply filter_all; reflexivity|]. split; [reflexivity|].
    split; [reflexivity|]. intros x. split; [intros H; split; [exact H|discriminate] | tauto].
Qed.

(** ** Deduplication *)

Lemma firstOccurrences_fixed (seen l : list string) :
  NoDup l -> (forall x, In x l -> ~ In x seen) -> firstOccurrences seen l = l.
Proof.
  revert seen. induction l as [|a l IH]; intros seen Hnd Hseen; simpl; [reflexivity|].
  inversion Hnd as [|a' l' Ha Hl]; subst.
  destruct (JS.includes seen a) eqn:E.
  - apply includes_In in E. exfalso. apply (Hseen a); [left; reflexivity | exact E].
  - f_equal. apply IH; [exact Hl|].
    intros x Hx Hin. apply in_app_iff in Hin. destruct Hin as [Hin|[<-|[]]].
    + apply (Hseen x); [right; exact Hx | exact Hin].
    + contradiction.
Qed.

(** X7.  [deduplicate] keeps the members of a list, each once; a list
    without repetition comes back as it is, so that deduplicating twice
    is deduplicating once. *)
Theorem deduplicate_fixes_duplicate_free_lists (items : list string) :
  (NoDup items -> deduplicate items = items)
  /\ deduplicate (deduplicate items) = deduplicate items
  /\ NoDup (deduplicate items)
  /\ (forall x, In x (deduplicate items) <-> In x items).
Proof.
  assert (Hfix : forall l, NoDup l -> deduplicate l = l).
  { intros l Hnd. rewrite deduplicate_firstOccurrences.
    apply firstOccurrences_fixed; [exact Hnd | intros x _ []]. }
  assert (Hnd : NoDup (deduplicate items)).
  { rewrite deduplicate_firstOccurrences. apply firstOccurrences_NoDup. }
  split; [apply Hfix|]. split; [apply Hfix; exact Hnd|]. split; [exact Hnd|].
  intros x. rewrite deduplicate_firstOccurrences, firstOccurrences_In. simpl. tauto.
Qed.

Lemma deduplicate_fixes_duplicate_free_lists_witness :
  deduplicate ["id"; "name"] = ["id"; "name"].
Proof.
  destruct (deduplicate_fixes_duplicate_free_lists ["id"; "name"]) as [H _]. apply H.
  clear H. repeat constructor; simpl; intros H; repeat destruct H as [H|H]; try discriminate; exact H.
Defined.

(** ** Object type extensions without a definition *)

Lemma filter_map_swap {A B : Type} (p : B -> bool) (g : A -> B) (l : list A) :
  filter p (map g l) = map g (filter (fun a => p (g a)) l).
Proof.
  induction l as [|a l IH]; simpl; [reflexivity|].
  destruct (p (g a)); simpl; rewrite IH; reflexivity.
Qed.

Lemma map_fixed {A : Type} (g : A -> A) (l : list A) :
  (forall a, In a l -> g a = a) -> map g l = l.
Proof.
  intros H. induction l as [|a l IH]; simpl; [reflexivity|].
  rewrite (H a (or_introl eq_refl)), IH; [reflexivity|].
  intros b Hb. apply H. right. exact Hb.
Qed.

Lemma filter_none {A : Type} (p : A -> bool) (l : list A) :
  (forall a, In a l -> p a = false) -> filter p l = [].
Proof.
  intros H. induction l as [|a l IH]; simpl; [reflexivity|].
  rewrite (H a (or_introl eq_refl)). apply IH. intros b Hb. apply H. right. exact Hb.
Qed.

Lemma filter_ext_In {A : Type} (p q : A -> bool) (l : list A) :
  (forall a, In a l -> p a = q a) -> filter p l = filter q l.
Proof.
  intros H. induction l as [|a l IH]; simpl; [reflexivity|].
  rewrite (H a (or_introl eq_refl)), IH; [reflexivity|].
  intros b Hb. apply H. right. exact Hb.
Qed.

Lemma isDefined_objectDefinitionsNamed (ast : DocumentNode) (name : string) :
  existsb (fun d => isObjectTypeDefinition (def_kind d) && (def_name d =? name)) (definitions ast)
  = JS.nonEmpty (objectDefinitionsNamed name ast).
Proof.
  unfold objectDefinitionsNamed. induction (definitions ast) as [|d l IH]; simpl; [reflexivity|].
  destruct (isObjectTypeDefinition (def_kind d) && (def_name d =? name)); simpl;
    [reflexivity | exact IH].
Qed.

Lemma kind_not_both (d : TypeDefinitionNode) :
  isObjectTypeExtension (def_kind d) = true -> isObjectTypeDefinition (def_kind d) = false.
Proof. destruct (def_kind d); simpl; intros H; try discriminate; reflexivity. Qed.

Lemma turnExtensions_definitions (ast : DocumentNode) (name : string) :
  objectDefinitionsNamed name (turnExtensionsIntoObjectTypes ast)
  = if JS.nonEmpty (objectDefinitionsNamed name ast)
    then objectDefinitionsNamed name ast
    else map (fun d => withKind d OBJECT_TYPE_DEFINITION) (objectExtensionsNamed name ast).
Proof.
  unfold objectDefinitionsNamed at 1. unfold turnExtensionsIntoObjectTypes.
  cbn [definitions]. rewrite filter_map_swap.
  destruct (JS.nonEmpty (objectDefinitionsNamed name ast)) eqn:Hd.
  - unfold objectDefinitionsNamed.
    rewrite (filter_ext_In _ (fun d => isObjectTypeDefinition (def_kind d) && (def_name d =? name))).
    + apply map_fixed. intros d Hin. apply filter_In in Hin. destruct Hin as [_ Hp].
      apply andb_true_iff in Hp. destruct Hp as [Hk _].
      destruct (isObjectTypeExtension (def_kind d)) eqn:He; [|reflexivity].
      rewrite (kind_not_both d He) in Hk. discriminate.
    + intros d _. destruct (isObjectTypeExtension (def_kind d)) eqn:He; cbn [negb]; [|reflexivity].
      rewrite isDefined_objectDefinitionsNamed.
      destruct (JS.nonEmpty (objectDefinitionsNamed (def_name d) ast)) eqn:Hdd; [reflexivity|].
      cbn [withKind def_kind def_name isObjectTypeDefinition andb].
      rewrite (kind_not_both d He). cbn [andb].
      destruct (def_name d =? name) eqn:En; [|reflexivity].
      apply String.eqb_eq in En. rewrite En, Hd in Hdd. discriminate.
  - unfold objectExtensionsNamed.
    rewrite (filter_ext_In _ (fun d => isObjectTypeExtension (def_kind d) && (def_name d =? name))).
    + apply map_ext_in. intros d Hin. apply filter_In in Hin. destruct Hin as [_ Hp].
      apply andb_true_iff in Hp. destruct Hp as [Hk Hn]. rewrite Hk. cbn [negb].
      apply String.eqb_eq in Hn. rewrite isDefined_objectDefinitionsNamed, Hn, Hd. reflexivity.
    + intros d Hin. destruct (isObjectTypeExtension (def_kind d)) eqn:He; cbn [negb andb].
      * rewrite isDefined_objectDefinitionsNamed.
        destruct (JS.nonEmpty (objectDefinitionsNamed (def_name d) ast)) eqn:Hdd.
        -- rewrite (kind_not_both d He). cbn [andb].
           destruct (def_name d =? name) eqn:En; [|reflexivity].
           apply String.eqb_eq in En. rewrite En, Hd in Hdd. discriminate.
        -- reflexivity.
      * destruct (isObjectTypeDefinition (def_kind d) && (def_name d =? name)) eqn:Hp;
          [|reflexivity].
        assert (Hin' : In d (objectDefinitionsNamed name ast))
          by (apply filter_In; split; assumption).
        destruct (objectDefinitionsNamed name ast); [contradiction | discriminate].
Qed.

Lemma turnExtensions_extensions (ast : DocumentNode) (name : string) :
  objectExtensionsNamed name (turnExtensionsIntoObjectTypes ast)
  = if JS.nonEmpty (objectDefinitionsNamed name ast)
    then objectExtensionsNamed name ast
    else [].
Proof.
  unfold objectExtensionsNamed at 1. unfold turnExtensionsIntoObjectTypes.
  cbn [definitions]. rewrite filter_map_swap.
  destruct (JS.nonEmpty (objectDefinitionsNamed name ast)) eqn:Hd.
  - unfold objectExtensionsNamed.
    rewrite (filter_ext_In _ (fun d => isObjectTypeExtension (def_kind d) && (def_name d =? name))).
    + apply map_fixed. intros d Hin. apply filter_In in Hin. destruct Hin as [_ Hp].
      apply andb_true_iff in Hp. destruct Hp as [Hk Hn]. rewrite Hk. cbn [negb].
      apply String.eqb_eq in Hn. rewrite isDefined_objectDefinitionsNamed, Hn, Hd. reflexivity.
    + intros d _. destruct (isObjectTypeExtension (def_kind d)) eqn:He; cbn [negb];
        [|rewrite He; reflexivity].
      rewrite isDefined_objectDefinitionsNamed.
      destruct (JS.nonEmpty (objectDefinitionsNamed (def_name d) ast)) eqn:Hdd;
        [rewrite He; reflexivity|].
      cbn [withKind def_kind def_name isObjectTypeExtension andb].
      destruct (def_name d =? name) eqn:En; [|reflexivity].
      apply String.eqb_eq in En. rewrite En, Hd in Hdd. discriminate.
  - apply (f_equal (map _)) with (y := []). apply filter_none. intros d _.
    destruct (isObjectTypeExtension (def_kind d)) eqn:He; cbn [negb]; [|rewrite He; reflexivity].
    rewrite isDefined_objectDefinitionsNamed.
    destruct (JS.nonEmpty (objectDefinitionsNamed (def_name d) ast)) eqn:Hdd.
    + rewrite He. cbn [andb]. destruct (def_name d =? name) eqn:En; [|reflexivity].
      apply String.eqb_eq in En. rewrite En, Hd in Hdd. discriminate.
    + reflexivity.
Qed.

(** X8.  [turnExtensionsIntoObjectTypes] changes nothing but kinds, and
    keeps the definitions in their places.  For a name that the document
    defines as an object type, the definitions and the extensions of
    that name stay as they are.  For a name that it does not define,
    every object type extension of that name becomes a definition, so
    that two extensions of one undefined type give two definitions of
    it, and no extension of the name is left.  Doing it again changes
    nothing. *)
Theorem turnExtensionsIntoObjectTypes_defines_orphans (ast : DocumentNode) :
  let out := turnExtensionsIntoObjectTypes ast in
  map (fun d => withKind d OBJECT_TYPE_DEFINITION) (definitions out)
  = map (fun d => withKind d OBJECT_TYPE_DEFINITION) (definitions ast)
  /\ (forall name,
        objectDefinitionsNamed name ast <> [] ->
        objectDefinitionsNamed name out = objectDefinitionsNamed name ast
        /\ objectExtensionsNamed name out = objectExtensionsNamed name ast)
  /\ (forall name,
        objectDefinitionsNamed name ast = [] ->
        objectDefinitionsNamed name out
        = map (fun d => withKind d OBJECT_TYPE_DEFINITION) (objectExtensionsNamed name ast)
        /\ objectExtensionsNamed name out = [])
  /\ turnExtensionsIntoObjectTypes out = out.
Proof.
  intros out. split; [|split; [|split]].
  - unfold out, turnExtensionsIntoObjectTypes. cbn [definitions]. rewrite map_map.
    apply map_ext. intros d.
    destruct (negb (isObjectTypeExtension (def_kind d))); [reflexivity|].
    destruct (existsb _ _); reflexivity.
  - intros name Hne. unfold out.
    rewrite turnExtensions_definitions, turnExtensions_extensions.
    destruct (objectDefinitionsNamed name ast); [contradiction|]. split; reflexivity.
  - intros name He. unfold out.
    rewrite turnExtensions_definitions, turnExtensions_extensions, He. split; reflexivity.
  - unfold turnExtensionsIntoObjectTypes at 1. destruct out as [defs] eqn:Eout. f_equal.
    cbn [definitions]. apply map_fixed. intros d Hin.
    destruct (isObjectTypeExtension (def_kind d)) eqn:Hk; cbn [negb]; [|reflexivity].
    change defs with (definitions {| definitions := defs |}). rewrite <- Eout.
    rewrite isDefined_objectDefinitionsNamed.
    destruct (JS.nonEmpty (objectDefinitionsNamed (def_name d) out)) eqn:Hd; [reflexivity|].
    exfalso.
    assert (Hext : In d (objectExtensionsNamed (def_name d) out)).
    { unfold objectExtensionsNamed. apply filter_In. rewrite Eout. cbn [definitions].
      split; [exact Hin|]. rewrite Hk, String.eqb_refl. reflexivity. }
    unfold out in Hext, Hd.
    rewrite turnExtensions_extensions in Hext. rewrite turnExtensions_definitions in Hd.
    destruct (JS.nonEmpty (objectDefinitionsNamed (def_name d) ast)) eqn:Hd0;
      [|exact Hext].
    rewrite Hd0 in Hd. discriminate.
Qed.

Lemma turnExtensionsIntoObjectTypes_defines_orphans_witness :
  definitions (turnExtensionsIntoObjectTypes extensionsDocument)
  = [objectDefinition OBJECT_TYPE_DEFINITION "User" [] ["age"];
     objectDefinition OBJECT_TYPE_DEFINITION "User" [] ["email"];
     objectDefinition OBJECT_TYPE_DEFINITION "Query" [] ["me"];
     objectDefinition OBJECT_TYPE_EXTENSION "Query" [] ["you"]]
  /\ objectDefinitionsNamed "User" (turnExtensionsIntoObjectTypes extensionsDocument)
     = [objectDefinition OBJECT_TYPE_DEFINITION "User" [] ["age"];
        objectDefinition OBJECT_TYPE_DEFINITION "User" [] ["email"]]
  /\ objectExtensionsNamed "Query" (turnExtensionsIntoObjectTypes extensionsDocument)
     = [objectDefinition OBJECT_TYPE_EXTENSION "Query" [] ["you"]].
Proof.
  destruct (turnExtensionsIntoObjectTypes_defines_orphans extensionsDocument)
    as [_ [H1 [H2 _]]].
  split; [reflexivity|]. split.
  - destruct (H2 "User" eq_refl) as [H _]. rewrite H. reflexivity.
  - destruct (H1 "Query") as [_ H]; [discriminate|]. rewrite H. reflexivity.
Defined.

(** ** The reference resolver added to federation types *)

Lemma visit_total (visitor : TypeDefinitionNode -> option TypeDefinitionNode) (doc : DocumentNode) :
  visit (fun d => Ok (visitor d)) doc
  = Ok {| definitions := flat_map (fun d => match visitor d with Some n => [n] | None => [] end)
                                  (definitions doc) |}.
Proof.
  unfold visit. destruct doc as [defs]. cbn [definitions].
  assert (H : mapM (fun d => Ok (visitor d)) defs = Ok (map visitor defs)).
  { induction defs as [|d defs IH]; cbn [mapM map]; [reflexivity|].
    cbn [bind]. rewrite IH. reflexivity. }
  rewrite H. cbn [bind]. f_equal. f_equal. rewrite flat_map_concat_map, map_map.
  rewrite <- flat_map_concat_map. reflexivity.
Qed.

Lemma isFederationObjectType_withFields (d : TypeDefinitionNode)
  (fields : list FieldDefinitionNode) :
  isFederationObjectType (inl (nameAndDirectives (withFields d fields)))
  = isFederationObjectType (inl (nameAndDirectives d)).
Proof. reflexivity. Qed.

(** X9.  The visitor of [addFederationReferencesToSchema] keeps the
    definitions in their places; an object type definition that is a
    federation type gets the field [__resolveReference], of the type
    itself and without arguments, before its own fields, and every
    other definition is left as it is; [filterFieldNames] of an enabled
    federation component gives the same field names after as before.
    The visitor does not look for a resolver that is already there:
    visiting its own result adds the field once more, so that the second
    result is the first only when the document has no federation
    type. *)
Theorem addFederationReferences_prepends_resolver (fed : ApolloFederation)
  (doc out : DocumentNode) :
  addFederationReferences doc = Ok out ->
  Forall2 (fun d d' =>
             (def_kind d = OBJECT_TYPE_DEFINITION
              /\ isFederationObjectType (inl (nameAndDirectives d)) = Ok true
              /\ d' = withFields d (resolveReferenceField (def_name d) :: def_fields d))
             \/ (d' = d
                 /\ (def_kind d = OBJECT_TYPE_DEFINITION ->
                     isFederationObjectType (inl (nameAndDirectives d)) = Ok false)))
          (definitions doc) (definitions out)
  /\ (enabled fed = true ->
      map (fun d => filterFieldNames fed (map fd_name (def_fields d))) (definitions out)
      = map (fun d => filterFieldNames fed (map fd_name (def_fields d))) (definitions doc))
  /\ exists again,
       addFederationReferences out = Ok again
       /\ (again = out <-> out = doc).
Proof.
  unfold addFederationReferences, visit. destruct doc as [defs]. cbn [definitions].
  intros H. apply bind_Ok in H. destruct H as [edits [Hm H]]. injection H as <-.
  cbn [definitions]. apply mapM_Forall2 in Hm.
  assert (Hstep : forall d edit,
             addFederationReferencesVisitor d = Ok edit ->
             exists d', edit = Some d'
               /\ ((def_kind d = OBJECT_TYPE_DEFINITION
                    /\ isFederationObjectType (inl (nameAndDirectives d)) = Ok true
                    /\ d' = withFields d (resolveReferenceField (def_name d) :: def_fields d))
                   \/ (d' = d
                       /\ (def_kind d = OBJECT_TYPE_DEFINITION ->
                           isFederationObjectType (inl (nameAndDirectives d)) = Ok false)))).
  { intros d edit. unfold addFederationReferencesVisitor.
    destruct (def_kind d) eqn:Hk;
      try (intros E; injection E as <-; exists d; split; [reflexivity|];
           right; split; [reflexivity | discriminate]).
    destruct (isFederationObjectType (inl (nameAndDirectives d))) as [[|]|e]; cbn [bind negb];
      intros E; [| |discriminate]; injection E as <-; eexists; (split; [reflexivity|]).
    - left. split; [reflexivity|]. split; reflexivity.
    - right. split; reflexivity. }
  induction Hm as [|d edit defs edits Hd Hm IH].
  - cbn [flat_map map]. split; [constructor|]. split; [reflexivity|].
    exists {| definitions := [] |}. split; [reflexivity|]. tauto.
  - destruct (Hstep d edit Hd) as [d' [-> Hd']].
    destruct IH as [IH1 [IH2 [again [IH3 IH4]]]].
    cbn [flat_map List.app map]. split; [|split].
    + constructor; [exact Hd' | exact IH1].
    + intros He. rewrite (IH2 He). f_equal.
      destruct Hd' as [[_ [_ ->]]|[-> _]]; [|reflexivity].
      unfold filterFieldNames. rewrite He. reflexivity.
    + apply bind_Ok in IH3. destruct IH3 as [edits2 [Hm2 E2]]. injection E2 as <-.
      cbn [definitions] in Hm2. cbn [definitions mapM].
      destruct Hd' as [[Hk [Hf ->]]|[-> Hf]].
      * unfold addFederationReferencesVisitor at 1. cbn [withFields def_kind].
        rewrite Hk, isFederationObjectType_withFields, Hf. cbn [bind negb]. rewrite Hm2.
        cbn [bind]. eexists. split; [reflexivity|]. cbn [flat_map List.app]. split.
        -- intros E. injection E as E _. exfalso.
           apply (f_equal (@List.length _)) in E. cbn in E. lia.
        -- intros E. injection E as E _. exfalso.
           apply (f_equal (fun n => List.length (def_fields n))) in E. cbn in E. lia.
      * rewrite Hd. cbn [bind]. rewrite Hm2. cbn [bind]. eexists. split; [reflexivity|].
        cbn [flat_map List.app]. split.
        -- intros E. injection E as E. f_equal. f_equal.
           assert (E' : {| definitions := flat_map (fun edit => match edit with
                                                                | Some n => [n]
                                                                | None => []
                                                                end) edits2 |}
                        = {| definitions := flat_map (fun edit => match edit with
                                                                  | Some n => [n]
                                                                  | None => []
                                                                  end) edits |})
             by (f_equal; exact E).
           apply IH4 in E'. injection E' as E'. exact E'.
        -- intros E. injection E as E. f_equal. f_equal.
           assert (E' : {| definitions := flat_map (fun edit => match edit with
                                                                | Some n => [n]
                                                                | None => []
                                                                end) edits |}
                        = {| definitions := defs |})
             by (f_equal; exact E).
           apply IH4 in E'. injection E' as E'. exact E'.
Qed.

Lemma addFederationReferences_prepends_resolver_witness :
  exists out,
    addFederationReferences serviceDocument = Ok out
    /\ map (fun d => map fd_name (def_fields d)) (definitions out)
       = [[]; []; ["sdl"]; ["_entities"; "me"; "_service"]; ["__resolveReference"; "id"]]
    /\ map (fun d => filterFieldNames federationOn (map fd_name (def_fields d))) (definitions out)
       = [[]; []; ["sdl"]; ["_entities"; "me"; "_service"]; ["id"]].
Proof.
  destruct (addFederationReferences serviceDocument) as [out|e] eqn:E; [|discriminate].
  exists out. split; [reflexivity|].
  destruct (addFederationReferences_prepends_resolver federationOn serviceDocument out E)
    as [_ [H _]].
  split.
  - vm_compute in E. injection E as <-. reflexivity.
  - rewrite (H eq_refl). reflexivity.
Defined.

(** ** What [removeFederation] takes out *)

Lemma removeFederationVisitor_spec (queryTypeName : string) (d : TypeDefinitionNode) :
  removeFederationVisitor queryTypeName d
  = Ok (if isFederationDefinition d then None
        else Some (withoutFederationFields queryTypeName d)).
Proof.
  unfold removeFederationVisitor, isFederationDefinition, withoutFederationFields,
    isFederationQueryField.
  destruct (def_kind d); cbn [isObjectTypeDefinition andb]; try reflexivity.
  - destruct (def_name d =? "_Any"); reflexivity.
  - destruct (def_name d =? "_Service"); [reflexivity|].
    destruct (def_name d =? queryTypeName); reflexivity.
  - destruct (def_name d =? "_Entity"); reflexivity.
Qed.

Lemma removeFederation_definitions (queryTypeName : string) (doc : DocumentNode) :
  removeFederationFromDocument queryTypeName doc
  = Ok {| definitions :=
            map (withoutFederationFields queryTypeName)
                (filter (fun d => negb (isFederationDefinition d)) (definitions doc)) |}.
Proof.
  unfold removeFederationFromDocument.
  transitivity (visit (fun d => Ok (if isFederationDefinition d then None
                                    else Some (withoutFederationFields queryTypeName d))) doc).
  - unfold visit. f_equal. induction (definitions doc) as [|d l IH]; cbn [mapM]; [reflexivity|].
    rewrite removeFederationVisitor_spec, IH. reflexivity.
  - rewrite visit_total. f_equal. f_equal.
    induction (definitions doc) as [|d l IH]; simpl; [reflexivity|].
    destruct (isFederationDefinition d); simpl; rewrite IH; reflexivity.
Qed.

Lemma withoutFederationFields_kind_name (q : string) (d : TypeDefinitionNode) :
  def_kind (withoutFederationFields q d) = def_kind d
  /\ def_name (withoutFederationFields q d) = def_name d.
Proof.
  unfold withoutFederationFields.
  destruct (isObjectTypeDefinition (def_kind d) && (def_name d =? q)); split; reflexivity.
Qed.

Lemma isFederationDefinition_withoutFederationFields (q : string) (d : TypeDefinitionNode) :
  isFederationDefinition (withoutFederationFields q d) = isFederationDefinition d.
Proof.
  unfold isFederationDefinition.
  destruct (withoutFederationFields_kind_name q d) as [-> ->]. reflexivity.
Qed.

Lemma withoutFederationFields_idempotent (q : string) (d : TypeDefinitionNode) :
  withoutFederationFields q (withoutFederationFields q d) = withoutFederationFields q d.
Proof.
  unfold withoutFederationFields at 1.
  destruct (withoutFederationFields_kind_name q d) as [-> ->].
  unfold withoutFederationFields.
  destruct (isObjectTypeDefinition (def_kind d) && (def_name d =? q)); [|reflexivity].
  unfold withFields. cbn [def_kind def_name def_directives def_fields].
  rewrite filter_idempotent. reflexivity.
Qed.

(** X10.  The visitor of [removeFederation] never fails.  Its result is
    the document without the scalar [_Any], the union [_Entity] and the
    object type [_Service], the other definitions in their order, the
    definition of the query type without its fields [_entities] and
    [_service] and everything else as it was; a query type named
    [_Service] is deleted like any object type of that name.  Nothing
    of federation is left, so that visiting the result again, or
    visiting a document that had nothing of it, changes nothing. *)
Theorem removeFederation_takes_out_the_service_types (queryTypeName : string)
  (doc : DocumentNode) :
  exists out,
    removeFederationFromDocument queryTypeName doc = Ok out
    /\ definitions out
       = map (withoutFederationFields queryTypeName)
             (filter (fun d => negb (isFederationDefinition d)) (definitions doc))
    /\ (forall d,
          In d (definitions out) ->
          isFederationDefinition d = false
          /\ (def_kind d = OBJECT_TYPE_DEFINITION ->
              def_name d = queryTypeName ->
              forall field, In field (def_fields d) ->
                            fd_name field <> "_entities" /\ fd_name field <> "_service"))
    /\ removeFederationFromDocument queryTypeName out = Ok out
    /\ ((forall d, In d (definitions doc) ->
                   isFederationDefinition d = false
                   /\ forall field, In field (def_fields d) -> isFederationQueryField field = false) ->
        out = doc).
Proof.
  eexists. split; [apply removeFederation_definitions|]. cbn [definitions].
  split; [reflexivity|]. split; [|split].
  - intros d Hin. apply in_map_iff in Hin. destruct Hin as [d0 [<- Hin]].
    apply filter_In in Hin. destruct Hin as [_ Hf]. apply negb_true_iff in Hf.
    split; [rewrite isFederationDefinition_withoutFederationFields; exact Hf|].
    destruct (withoutFederationFields_kind_name queryTypeName d0) as [Hk Hn].
    rewrite Hk, Hn. intros Hkind Hname field. unfold withoutFederationFields.
    rewrite Hkind, Hname, String.eqb_refl. cbn [isObjectTypeDefinition andb withFields def_fields].
    intros Hfield. apply filter_In in Hfield. destruct Hfield as [_ Hq].
    apply negb_true_iff in Hq. unfold isFederationQueryField in Hq.
    split; intros E; rewrite E in Hq; discriminate.
  - rewrite removeFederation_definitions. cbn [definitions]. f_equal. f_equal.
    rewrite filter_map_swap, map_map.
    rewrite (filter_ext_In _ (fun d => negb (isFederationDefinition d)))
      by (intros d _; rewrite isFederationDefinition_withoutFederationFields; reflexivity).
    rewrite filter_idempotent. apply map_ext. intros d.
    apply withoutFederationFields_idempotent.
  - intros H. destruct doc as [defs]. cbn [definitions] in *. f_equal.
    rewrite (filter_ext_In _ (fun _ => true))
      by (intros d Hd; destruct (H d Hd) as [-> _]; reflexivity).
    rewrite filter_all by reflexivity. apply map_fixed. intros d Hd.
    unfold withoutFederationFields.
    destruct (isObjectTypeDefinition (def_kind d) && (def_name d =? queryTypeName));
      [|reflexivity].
    rewrite (filter_ext_In _ (fun _ => true))
      by (intros f Hf; destruct (H d Hd) as [_ H2]; rewrite (H2 f Hf); reflexivity).
    rewrite filter_all by reflexivity. destruct d; reflexivity.
Qed.

Lemma removeFederation_takes_out_the_service_types_witness :
  exists out,
    removeFederationFromDocument "Query" serviceDocument = Ok out
    /\ map (fun d => (def_name d, map fd_name (def_fields d))) (definitions out)
       = [("Query", ["me"]); ("User", ["id"])]
    /\ removeFederationFromDocument "Query" out = Ok out.
Proof.
  destruct (removeFederation_takes_out_the_service_types "Query" serviceDocument)
    as [out [E [Hd [_ [Hi _]]]]].
  exists out. split; [exact E|]. split; [rewrite Hd; reflexivity | exact Hi].
Defined.

(** ** The per-type collection *)

Lemma keys_ensure {V : Type} (d : JS.dict (list V)) (k : string) :
  JS.keys (JS.ensure d k) = if JS.has d k then JS.keys d else (JS.keys d ++ [k])%list.
Proof.
  unfold JS.ensure. destruct (JS.has d k) eqn:E; [reflexivity|]. rewrite keys_set, E. reflexivity.
Qed.

Lemma keys_push {V : Type} (d : JS.dict (list V)) (k : string) (vs : list V) :
  JS.keys (JS.push d k vs) = JS.keys d.
Proof.
  unfold JS.push. destruct (JS.get d k) as [l|] eqn:E; [|reflexivity].
  rewrite keys_set. unfold JS.has. rewrite E. reflexivity.
Qed.

Lemma get_push_nil {V : Type} (d : JS.dict (list V)) (k k' : string) :
  JS.get (JS.push d k []) k' = JS.get d k'.
Proof.
  rewrite get_push. destruct (JS.get d k) as [l|] eqn:E; [|reflexivity].
  destruct (k =? k') eqn:Ek; [|reflexivity].
  apply String.eqb_eq in Ek. subst k'. rewrite E, app_nil_r. reflexivity.
Qed.

(** X11.  [_appendToTypeMap] as insertion and lookup.  After it the type
    has an entry, also when there was nothing to append (no array, or an
    empty one); the entry of the type is what it was, the empty array
    when it was not there, with the nodes after it; the entries of the
    other types are untouched; a new type goes after the types that were
    there, and a type that was there keeps its place. *)
Theorem appendToTypeMap_lookup {T : Type} (types : JS.dict (list T)) (typeName : string)
  (nodes : option (list T)) :
  let appended := _appendToTypeMap types typeName nodes in
  JS.has appended typeName = true
  /\ entry appended typeName
     = (entry types typeName ++ match nodes with Some l => l | None => [] end)%list
  /\ (forall other, other <> typeName -> JS.get appended other = JS.get types other)
  /\ JS.keys appended
     = if JS.has types typeName then JS.keys types else (JS.keys types ++ [typeName])%list.
Proof.
  intros appended. unfold appended, _appendToTypeMap.
  assert (Hget : forall k,
             JS.get (JS.push (JS.ensure types typeName) typeName
                             (match nodes with Some l => l | None => [] end)) k
             = JS.get (match nodes with
                       | Some (n :: nodes') => JS.push (JS.ensure types typeName) typeName (n :: nodes')
                       | _ => JS.ensure types typeName
                       end) k).
  { intros k. destruct nodes as [[|n l]|]; try reflexivity; apply get_push_nil. }
  split; [|split; [|split]].
  - unfold JS.has. rewrite <- Hget, get_push, get_ensure, String.eqb_refl.
    destruct (JS.get types typeName); reflexivity.
  - unfold entry. rewrite <- Hget, get_push, get_ensure, String.eqb_refl.
    destruct (JS.get types typeName); reflexivity.
  - intros other Hne. rewrite <- Hget, get_push, !get_ensure, String.eqb_refl.
    apply not_eq_sym in Hne. apply String.eqb_neq in Hne. rewrite Hne.
    destruct (JS.get types typeName); destruct (JS.get types other); reflexivity.
  - destruct nodes as [[|n l]|]; rewrite ?keys_push; apply keys_ensure.
Qed.

(** ** Plain fields under an abstract parent *)

Lemma splitKinds_only_fields (fs : list FieldNode) :
  splitKinds (map Field fs)
  = {| fieldNodes := fs; inlineFragmentSelections := []; fragmentSpreads := [] |}.
Proof.
  unfold splitKinds.
  assert (H : forall k,
             fold_left
               (fun k selection =>
                  match selection with
                  | Field f =>
                      {| fieldNodes := (fieldNodes k ++ [f])%list;
                         inlineFragmentSelections := inlineFragmentSelections k;
                         fragmentSpreads := fragmentSpreads k |}
                  | InlineFragment i =>
                      {| fieldNodes := fieldNodes k;
                         inlineFragmentSelections := (inlineFragmentSelections k ++ [i])%list;
                         fragmentSpreads := fragmentSpreads k |}
                  | FragmentSpread sp =>
                      {| fieldNodes := fieldNodes k;
                         inlineFragmentSelections := inlineFragmentSelections k;
                         fragmentSpreads := (fragmentSpreads k ++ [sp])%list |}
                  end)
               (map Field fs) k
             = {| fieldNodes := (fieldNodes k ++ fs)%list;
                  inlineFragmentSelections := inlineFragmentSelections k;
                  fragmentSpreads := fragmentSpreads k |}).
  { induction fs as [|f fs IH]; intros k; cbn [map fold_left].
    - rewrite app_nil_r. destruct k; reflexivity.
    - rewrite IH. cbn [fieldNodes inlineFragmentSelections fragmentSpreads].
      rewrite <- app_assoc. reflexivity. }
  rewrite H. reflexivity.
Qed.

Lemma separate_only_fields (fs : list FieldNode) :
  separateSelectionSet (map Field fs) = {| fields := fs; inlines := []; spreads := [] |}.
Proof.
  induction fs as [|f fs IH]; cbn [map separateSelectionSet]; [reflexivity|].
  rewrite IH. reflexivity.
Qed.

Lemma appendToTypeMap_fresh {T : Type} (types : JS.dict (list T)) (typeName : string)
  (n : T) (l : list T) :
  ~ In typeName (JS.keys types) ->
  _appendToTypeMap types typeName (Some (n :: l)) = (types ++ [(typeName, n :: l)])%list.
Proof.
  intros Hk. unfold _appendToTypeMap, JS.ensure.
  destruct (JS.has types typeName) eqn:Eh; [apply has_In in Eh; contradiction|].
  rewrite (set_fresh types typeName [] Hk). unfold JS.push.
  rewrite (get_last types typeName [] Hk). apply set_last. exact Hk.
Qed.

Lemma appendToTypeMap_nothing {T : Type} (types : JS.dict (list T)) (typeName : string) :
  In typeName (JS.keys types) -> _appendToTypeMap types typeName None = types.
Proof.
  intros Hk. unfold _appendToTypeMap, JS.ensure. apply has_In in Hk. rewrite Hk. reflexivity.
Qed.

Lemma fan_out (items : list SelectionItem) (n : SelectionItem) (possible : list GraphQLObjectType)
  (types : TypeMap) :
  NoDup (map object_name possible) ->
  (forall p, In p possible -> ~ In (object_name p) (JS.keys types)) ->
  foldM (fun types possibleType =>
           Ok (_appendToTypeMap
                 (_appendToTypeMap types (object_name possibleType) (Some (n :: items)))
                 (object_name possibleType) None))
        possible types
  = Ok (types ++ map (fun p => (object_name p, n :: items)) possible)%list.
Proof.
  revert types. induction possible as [|p possible IH]; intros types Hnd Hfresh.
  - cbn [foldM map]. rewrite app_nil_r. reflexivity.
  - cbn [foldM map bind]. inversion Hnd as [|x xs Hp Hnd']; subst.
    rewrite (appendToTypeMap_fresh types (object_name p) n items)
      by (apply Hfresh; left; reflexivity).
    rewrite appendToTypeMap_nothing
      by (unfold JS.keys; rewrite map_app, in_app_iff; right; left; reflexivity).
    rewrite IH; [rewrite <- app_assoc; reflexivity | exact Hnd' |].
    intros q Hq. unfold JS.keys. rewrite map_app, in_app_iff. cbn [map fst].
    intros [Hin|[Heq|[]]].
    + apply (Hfresh q); [right; exact Hq | exact Hin].
    + apply Hp. rewrite Heq. apply in_map. exact Hq.
Qed.

(** X12.  Plain fields selected on a parent type the schema knows by its
    name, with nothing else in the selection and ordinary names for the
    types.  The flattening wraps them in one inline fragment on the
    parent; on an object type the fields are the entry of that type; on
    an interface every possible type gets the very same fields, in the
    order of the possible types; on a union (and on every type that has
    no fields) nothing is collected, so that a [__typename] selected on
    a union itself is lost.  Without a parent type the flattening
    throws. *)
Theorem plain_fields_reach_every_possible_type (this : SelectionSetToObject)
  (first : FieldNode) (rest : list FieldNode) (fuel : nat) :
  ordinaryTypes this ->
  let items := map (fun f => ItemNode (Field f)) (first :: rest) in
  (forall t,
     _parentSchemaType this = Some t ->
     getType (_schema this) (typeName t) = Some t ->
     flattenSelectionSet (2 + fuel) this (map Field (first :: rest))
     = match t with
       | ObjectType o => Ok [(object_name o, items)]
       | InterfaceType _ _ =>
           possible <- getPossibleTypes (_schema this) (Some t) ;;
           Ok (map (fun p => (object_name p, items)) possible)
       | _ => Ok []
       end)
  /\ (_parentSchemaType this = None ->
      exists e, flattenSelectionSet (2 + fuel) this (map Field (first :: rest)) = Throw e).
Proof.
  intros _ items. split.
  - intros t Hparent Hknown. unfold flattenSelectionSet.
    rewrite splitKinds_only_fields. cbn [fieldNodes inlineFragmentSelections fragmentSpreads JS.nonEmpty].
    rewrite Hparent. cbn [_createInlineFragmentForFieldNodes bind List.app].
    change (buildFragmentSpreadsUsage this []) with (@Ok (JS.dict (list string)) []).
    assert (Hcollect :
              _collectInlineFragments (2 + fuel) this (Some t)
                [mkInline (Some (typeName t)) (map Field (first :: rest))] []
              = match t with
                | ObjectType o => Ok [(object_name o, items)]
                | InterfaceType _ _ =>
                    possible <- getPossibleTypes (_schema this) (Some t) ;;
                    Ok (map (fun p => (object_name p, items)) possible)
                | _ => Ok []
                end).
    { change (2 + fuel) with (S (S fuel)). remember (S fuel) as fuel1 eqn:Ef.
      cbn [_collectInlineFragments].
      destruct t as [o|n fs|n members|n|n|n]; try reflexivity.
      - cbn [foldM mkInline typeCondition selections]. rewrite Hknown.
        rewrite separate_only_fields. cbn [fields inlines spreads].
        change (buildFragmentSpreadsUsage this []) with (@Ok (JS.dict (list string)) []).
        cbn [bind JS.get usageItems option_map foldM]. unfold fieldItems. cbn [map].
        rewrite (appendToTypeMap_fresh [] (object_name o)) by (intros []).
        rewrite appendToTypeMap_nothing by (left; reflexivity).
        subst fuel1. reflexivity.
      - destruct (getPossibleTypes (_schema this) (Some (InterfaceType n fs)))
          as [possible|e] eqn:Ep; cbn [bind]; [|reflexivity].
        cbn [foldM mkInline typeCondition selections]. rewrite Hknown.
        rewrite separate_only_fields. cbn [fields inlines spreads].
        change (buildFragmentSpreadsUsage this []) with (@Ok (JS.dict (list string)) []).
        cbn [bind typeName]. rewrite String.eqb_refl.
        cbn [bind JS.get usageItems option_map]. unfold fieldItems. cbn [map].
        rewrite (foldM_ext _
                   (fun types possibleType =>
                      Ok (_appendToTypeMap
                            (_appendToTypeMap types (object_name possibleType)
                               (Some (ItemNode (Field first)
                                      :: map (fun f => ItemNode (Field f)) rest)))
                            (object_name possibleType) None)))
          by (intros types p; subst fuel1; cbn [_collectInlineFragments]; rewrite Ep;
              reflexivity).
        rewrite (fan_out _ _ possible []); [reflexivity | |intros p _ []].
        apply (getPossibleTypes_NoDup _ _ _ Ep).
      - cbn [foldM mkInline typeCondition selections]. rewrite Hknown.
        rewrite separate_only_fields. cbn [spreads].
        change (buildFragmentSpreadsUsage this []) with (@Ok (JS.dict (list string)) []).
        reflexivity. }
    rewrite Hcollect.
    destruct t as [o|n fs|n members|n|n|n]; reflexivity.
  - intros Hparent. unfold flattenSelectionSet.
    rewrite splitKinds_only_fields. cbn [fieldNodes JS.nonEmpty]. rewrite Hparent.
    eexists. reflexivity.
Qed.

Lemma plain_fields_reach_every_possible_type_witness :
  flattenSelectionSet 2 (instance [] (Some Node) None) [leaf "id"; leaf "name"]
  = Ok [("Dog", [ItemNode (leaf "id"); ItemNode (leaf "name")]);
        ("Cat", [ItemNode (leaf "id"); ItemNode (leaf "name")])].
Proof.
  destruct (plain_fields_reach_every_possible_type (instance [] (Some Node) None)
              (mkField None "id" None) [mkField None "name" None] 0
              (instance_ordinary _ Node _ eq_refl)) as [H _].
  apply (H Node eq_refl eq_refl).
Defined.

(** ** The leaves of one concrete type *)

Lemma firstOccurrences_seen (seen seen' l : list string) :
  (forall x, In x seen <-> In x seen') -> firstOccurrences seen l = firstOccurrences seen' l.
Proof.
  revert seen seen'. induction l as [|a l IH]; intros seen seen' H; simpl; [reflexivity|].
  assert (Hi : JS.includes seen a = JS.includes seen' a).
  { destruct (JS.includes seen a) eqn:E1; destruct (JS.includes seen' a) eqn:E2; try reflexivity.
    - apply includes_In in E1. apply H in E1. apply includes_In in E1. congruence.
    - apply includes_In in E2. apply H in E2. apply includes_In in E2. congruence. }
  rewrite Hi.
  rewrite (IH (seen ++ [a])%list (seen' ++ [a])%list);
    [reflexivity|]. intros x. rewrite !in_app_iff, H. tauto.
Qed.

Lemma keys_fold_set {V : Type} (kvs : list (string * V)) (d : JS.dict V) :
  JS.keys (fold_left (fun d kv => JS.set d (fst kv) (snd kv)) kvs d)
  = (JS.keys d ++ firstOccurrences (JS.keys d) (map fst kvs))%list.
Proof.
  revert d. induction kvs as [|[k v] kvs IH]; intros d; cbn [fold_left map fst snd].
  - cbn [firstOccurrences]. rewrite app_nil_r. reflexivity.
  - rewrite IH, keys_set. cbn [firstOccurrences].
    destruct (JS.has d k) eqn:E.
    + assert (Hin : JS.includes (JS.keys d) k = true)
        by (apply includes_In; apply has_In; exact E).
      rewrite Hin. f_equal. apply firstOccurrences_seen. intros x. rewrite in_app_iff.
      apply includes_In in Hin. split; [tauto|]. intros [H|[<-|[]]]; assumption.
    + assert (Hin : JS.includes (JS.keys d) k = false).
      { destruct (JS.includes (JS.keys d) k) eqn:Ei; [|reflexivity].
        apply includes_In in Ei. apply has_In in Ei. rewrite E in Ei. discriminate. }
      rewrite Hin, <- app_assoc. reflexivity.
Qed.

Lemma find_append {A : Type} (p : A -> bool) (l1 l2 : list A) :
  find p (l1 ++ l2) = match find p l1 with Some a => Some a | None => find p l2 end.
Proof.
  induction l1 as [|a l1 IH]; simpl; [reflexivity|]. destruct (p a); [reflexivity | exact IH].
Qed.

Lemma get_fold_set {V : Type} (kvs : list (string * V)) (d : JS.dict V) (k : string) :
  JS.get (fold_left (fun d kv => JS.set d (fst kv) (snd kv)) kvs d) k
  = match lastUnder k kvs with
    | Some v => Some v
    | None => JS.get d k
    end.
Proof.
  revert d. induction kvs as [|[k0 v0] kvs IH]; intros d; cbn [fold_left fst snd].
  - reflexivity.
  - rewrite IH, get_set. unfold lastUnder. cbn [rev]. rewrite find_append.
    destruct (find (fun kv => fst kv =? k) (rev kvs)) as [[k1 v1]|]; [reflexivity|].
    cbn [find fst option_map snd]. destruct (k0 =? k); reflexivity.
Qed.

Lemma named_fold_set (kvs : list (string * FieldNode)) (d : JS.dict FieldNode) :
  Forall (fun kv => fieldName (snd kv) = fst kv) kvs ->
  Forall (fun kv => fieldName (snd kv) = fst kv) d ->
  Forall (fun kv => fieldName (snd kv) = fst kv)
         (fold_left (fun d kv => JS.set d (fst kv) (snd kv)) kvs d).
Proof.
  intros Hkvs. revert d. induction Hkvs as [|[k v] kvs Hkv Hkvs IH]; intros d Hd;
    cbn [fold_left fst snd]; [exact Hd|].
  apply IH. clear IH. induction Hd as [|[k1 v1] d Hkv1 Hd IHd]; cbn [JS.set].
  - constructor; [exact Hkv | constructor].
  - destruct (k1 =? k) eqn:E.
    + constructor; [|exact Hd]. apply String.eqb_eq in E. cbn [fst snd] in *. congruence.
    + constructor; [exact Hkv1 | exact IHd].
Qed.

Lemma classifyNode_leaf (parentSchemaType : GraphQLObjectType) (item : SelectionItem)
  (c0 c : Classified) :
  classifyNode parentSchemaType c0 item = Ok c ->
  primitiveFields c
  = fold_left (fun d kv => JS.set d (fst kv) (snd kv)) (plainLeaves [item]) (primitiveFields c0)
  /\ primitiveAliasFields c
     = fold_left (fun d kv => JS.set d (fst kv) (snd kv)) (aliasedLeaves [item])
                 (primitiveAliasFields c0)
  /\ requireTypename c = requireTypename c0 || asksTypename item
  /\ fragmentsSpreadUsages c = (fragmentsSpreadUsages c0 ++ usageTokens [item])%list.
Proof.
  unfold classifyNode, plainLeaves, aliasedLeaves, asksTypename, usageTokens. cbn [flat_map].
  destruct item as [[f|sp|i]|usage].
  - destruct (fieldSelectionSet f) as [ss|].
    + destruct (if isMetadataFieldName (fieldName f) then metadataFieldMap (fieldName f)
                else option_map field_type
                       (getField (object_fields parentSchemaType) (fieldName f)));
        [|discriminate].
      intros H. injection H as <-.
      cbn [primitiveFields primitiveAliasFields requireTypename fragmentsSpreadUsages
           fold_left List.app].
      rewrite orb_false_r, app_nil_r. repeat split; reflexivity.
    + destruct (fieldAlias f) as [alias|].
      * intros H. injection H as <-.
        cbn [primitiveFields primitiveAliasFields requireTypename fragmentsSpreadUsages
             fold_left List.app fst snd].
        rewrite orb_false_r, app_nil_r. repeat split; reflexivity.
      * destruct (fieldName f =? "__typename"); intros H; injection H as <-;
          cbn [primitiveFields primitiveAliasFields requireTypename fragmentsSpreadUsages
               fold_left List.app fst snd];
          rewrite ?orb_false_r, ?orb_true_r, app_nil_r; repeat split; reflexivity.
  - intros H. injection H as <-. cbn [fold_left List.app].
    rewrite orb_false_r, app_nil_r. repeat split; reflexivity.
  - intros H. injection H as <-. cbn [fold_left List.app].
    rewrite orb_false_r, app_nil_r. repeat split; reflexivity.
  - intros H. injection H as <-.
    cbn [primitiveFields primitiveAliasFields requireTypename fragmentsSpreadUsages
         fold_left List.app].
    rewrite orb_false_r. repeat split; reflexivity.
Qed.

Lemma flat_map_single_cons {A B : Type} (f : A -> list B) (a : A) (l : list A) :
  flat_map f (a :: l) = (flat_map f [a] ++ flat_map f l)%list.
Proof. cbn [flat_map]. rewrite app_nil_r. reflexivity. Qed.

Lemma classify_fold (parentSchemaType : GraphQLObjectType) (items : list SelectionItem)
  (c0 c : Classified) :
  foldM (classifyNode parentSchemaType) items c0 = Ok c ->
  primitiveFields c
  = fold_left (fun d kv => JS.set d (fst kv) (snd kv)) (plainLeaves items) (primitiveFields c0)
  /\ primitiveAliasFields c
     = fold_left (fun d kv => JS.set d (fst kv) (snd kv)) (aliasedLeaves items)
                 (primitiveAliasFields c0)
  /\ requireTypename c = requireTypename c0 || existsb asksTypename items
  /\ fragmentsSpreadUsages c = (fragmentsSpreadUsages c0 ++ usageTokens items)%list.
Proof.
  revert c0. induction items as [|item items IH]; intros c0 H.
  - injection H as <-. cbn [plainLeaves aliasedLeaves usageTokens flat_map fold_left existsb].
    rewrite orb_false_r, app_nil_r. repeat split; reflexivity.
  - cbn [foldM] in H. apply bind_Ok in H. destruct H as [c1 [H1 H]].
    destruct (IH c1 H) as [Hp [Ha [Ht Hu]]]. clear IH H.
    destruct (classifyNode_leaf parentSchemaType item c0 c1 H1) as [Hp1 [Ha1 [Ht1 Hu1]]].
    rewrite Hp, Ha, Ht, Hu, Hp1, Ha1, Ht1, Hu1.
    unfold plainLeaves, aliasedLeaves, usageTokens.
    rewrite !(flat_map_single_cons _ item items).
    rewrite !fold_left_app, <- app_assoc, <- orb_assoc. repeat split; reflexivity.
Qed.

Lemma plainLeaves_named (items : list SelectionItem) :
  Forall (fun kv => fieldName (snd kv) = fst kv) (plainLeaves items)
  /\ ~ In "__typename" (map fst (plainLeaves items)).
Proof.
  induction items as [|item items [IH1 IH2]]; [split; [constructor | intros []]|].
  unfold plainLeaves. cbn [flat_map]. fold (plainLeaves items).
  destruct item as [[f|sp|i]|usage]; try (split; assumption).
  destruct (fieldSelectionSet f); [split; assumption|].
  destruct (fieldAlias f); [split; assumption|].
  destruct (fieldName f =? "__typename") eqn:E; [split; assumption|].
  split.
  - constructor; [reflexivity | exact IH1].
  - cbn [List.app map fst]. intros [H|H]; [|exact (IH2 H)].
    rewrite H in E. discriminate.
Qed.

(** X13.  What the first loop of [buildSelectionSetString] keeps of the
    leaf fields of a type.  The names handed to
    [transformPrimitiveFields] are the names of the leaf fields without
    alias, each once, at its first place, and never [__typename]; the
    leaf [__typename] without alias raises the flag and nothing else,
    while an aliased [__typename] is an aliased field like another and
    does not raise it; of two leaf fields under one alias the later one
    is kept, at the place of the first; the usage tokens are kept in
    their order, with their repetitions. *)
Theorem classify_leaves (parentSchemaType : GraphQLObjectType) (items : list SelectionItem)
  (c : Classified) :
  classify parentSchemaType items = Ok c ->
  map fieldName (JS.values (primitiveFields c))
  = firstOccurrences [] (map fst (plainLeaves items))
  /\ ~ In "__typename" (map fieldName (JS.values (primitiveFields c)))
  /\ requireTypename c = existsb asksTypename items
  /\ JS.keys (primitiveAliasFields c) = firstOccurrences [] (map fst (aliasedLeaves items))
  /\ (forall alias, JS.get (primitiveAliasFields c) alias = lastUnder alias (aliasedLeaves items))
  /\ fragmentsSpreadUsages c = usageTokens items.
Proof.
  unfold classify. intros H. apply classify_fold in H. destruct H as [Hp [Ha [Ht Hu]]].
  cbn [emptyClassified primitiveFields primitiveAliasFields requireTypename
       fragmentsSpreadUsages orb List.app] in *.
  destruct (plainLeaves_named items) as [Hnamed Hno].
  assert (Hvalues : map fieldName (JS.values (primitiveFields c)) = JS.keys (primitiveFields c)).
  { assert (Hn := named_fold_set (plainLeaves items) [] Hnamed (Forall_nil _)).
    rewrite <- Hp in Hn. unfold JS.values, JS.keys. rewrite map_map.
    clear - Hn. induction Hn as [|kv d Hkv Hn IH]; cbn [map]; [reflexivity|].
    f_equal; [exact Hkv | exact IH]. }
  assert (Hkeys : JS.keys (primitiveFields c) = firstOccurrences [] (map fst (plainLeaves items))).
  { rewrite Hp, keys_fold_set. reflexivity. }
  split; [rewrite Hvalues; exact Hkeys|]. split.
  { rewrite Hvalues, Hkeys, firstOccurrences_In. tauto. }
  split; [exact Ht|]. split; [rewrite Ha, keys_fold_set; reflexivity|].
  split; [|exact Hu].
  intros alias. rewrite Ha, get_fold_set. destruct (lastUnder alias (aliasedLeaves items));
    reflexivity.
Qed.

Lemma classify_leaves_witness :
  exists c,
    classify Dog [ItemNode (leaf "name"); ItemNode (leaf "__typename"); ItemNode (leaf "name");
                  ItemNode (Field (mkField (Some "t") "__typename" None));
                  ItemNode (Field (mkField (Some "t") "bark" None))] = Ok c
    /\ map fieldName (JS.values (primitiveFields c)) = ["name"]
    /\ requireTypename c = true
    /\ JS.get (primitiveAliasFields c) "t" = Some (mkField (Some "t") "bark" None).
Proof.
  eexists. split; [reflexivity|].
  match goal with
  | |- context [primitiveFields ?c] =>
      destruct (classify_leaves Dog
                  [ItemNode (leaf "name"); ItemNode (leaf "__typename"); ItemNode (leaf "name");
                   ItemNode (Field (mkField (Some "t") "__typename" None));
                   ItemNode (Field (mkField (Some "t") "bark" None))] c eq_refl)
        as [H1 [_ [H3 [_ [H5 _]]]]]
  end.
  split; [rewrite H1; reflexivity|]. split; [rewrite H3; reflexivity|].
  rewrite H5. reflexivity.
Defined.

(** ** A parent type the schema does not know *)

(** X15.  The edges of [_buildGroupedSelections] as [transformSelectionSet]
    shows them.  An absent or empty selection set gives the empty
    string, whatever the parent type is, even none.  For a selection
    that is not empty on an object type whose name the schema does not
    resolve to an object type, the transformation throws the
    "Invalid state" [TypeError] once the flattening went through. *)
Theorem transformSelectionSet_edges (this : SelectionSetToObject) (fuel : nat) :
  (_selectionSet this = None \/ _selectionSet this = Some [] ->
   transformSelectionSet (S fuel) this = Ok "")
  /\ (forall o first rest types,
        _selectionSet this = Some (first :: rest) ->
        _parentSchemaType this = Some (ObjectType o) ->
        (forall known, getType (_schema this) (object_name o) <> Some (ObjectType known)) ->
        flattenSelectionSet (S fuel) this (first :: rest) = Ok types ->
        transformSelectionSet (S fuel) this
        = Throw (TypeError ("Invalid state! Schema type " ++ object_name o
                            ++ " is not a valid GraphQL object!"))).
Proof.
  split.
  - intros [H|H]; cbn [transformSelectionSet]; unfold _buildGroupedSelectionsWith;
      rewrite H; reflexivity.
  - intros o first rest types Hsel Hparent Hunknown Hflat.
    cbn [transformSelectionSet]. unfold _buildGroupedSelectionsWith.
    rewrite Hsel, Hflat, Hparent. cbn [bind getPossibleTypes foldM].
    unfold groupPossibleType.
    destruct (getType (_schema this) (object_name o)) as [[known| | | | |]|] eqn:E;
      try reflexivity.
    exfalso. exact (Hunknown known eq_refl).
Qed.

Lemma transformSelectionSet_edges_witness :
  transformSelectionSet 2 (instance [] (Some (ObjectType Ghost)) (Some [leaf "id"]))
  = Throw (TypeError "Invalid state! Schema type Ghost is not a valid GraphQL object!")
  /\ transformSelectionSet 1 (instance [] None (Some [])) = Ok "".
Proof.
  split.
  - destruct (transformSelectionSet_edges
                (instance [] (Some (ObjectType Ghost)) (Some [leaf "id"])) 1) as [_ H].
    apply (H Ghost (leaf "id") [] []); try reflexivity.
    intros known. discriminate.
  - destruct (transformSelectionSet_edges (instance [] None (Some [])) 0) as [H _].
    apply H. right. reflexivity.
Defined.

(** ** The modifiers of the Flow visitor *)

Lemma substring_all (s : string) : substring 0 (String.length s) s = s.
Proof. induction s as [|c s IH]; simpl; [reflexivity | rewrite IH; reflexivity]. Qed.

Lemma startsWith_marked (s : string) : JS.startsWith (String "?" s) "?" = true.
Proof.
  unfold JS.startsWith. cbn [append String.prefix].
  destruct (Ascii.ascii_dec "?" "?") as [_|H]; [destruct s; reflexivity | contradiction].
Qed.

Lemma clearOptional_marked (s : string) : clearOptional (String "?" s) = s.
Proof.
  unfold clearOptional. cbn [append JS.startsWith String.prefix String.length].
  destruct (Ascii.ascii_dec "?" "?") as [_|H]; [|contradiction].
  destruct s as [|c s]; cbn [substring Nat.sub]; [reflexivity|].
  rewrite Nat.sub_0_r. apply (substring_all (String c s)).
Qed.

Lemma clearOptional_unmarked (s : string) :
  JS.startsWith s "?" = false -> clearOptional s = s.
Proof. unfold clearOptional. intros ->. reflexivity. Qed.

(** X16.  The type modifiers of the Flow documents visitor.  For a base
    type that does not begin with a question mark, the wrapped type
    begins with the question mark exactly when the GraphQL type is not
    non-null; a type that is not non-null is wrapped as the question
    mark before what its non-null version is wrapped as; making a
    non-null type non-null once more changes nothing. *)
Theorem flow_optional_marker (baseType : string) (type : GraphQLOutputType) :
  JS.startsWith baseType "?" = false ->
  JS.startsWith (flowWrapTypeWithModifiers baseType type) "?" = negb (isNonNullType type)
  /\ (isNonNullType type = false ->
      flowWrapTypeWithModifiers baseType type
      = "?" ++ flowWrapTypeWithModifiers baseType (GraphQLNonNull type))
  /\ flowWrapTypeWithModifiers baseType (GraphQLNonNull (GraphQLNonNull type))
     = flowWrapTypeWithModifiers baseType (GraphQLNonNull type).
Proof.
  intros Hbase.
  assert (Hmark : forall t,
             JS.startsWith (flowWrapTypeWithModifiers baseType t) "?" = negb (isNonNullType t)).
  { induction t as [n|t IH|t IH];
      [apply startsWith_marked | apply startsWith_marked |].
    cbn [flowWrapTypeWithModifiers isNonNullType negb].
    destruct t as [n|t'|t']; cbn [flowWrapTypeWithModifiers append].
    - rewrite clearOptional_marked. exact Hbase.
    - rewrite clearOptional_marked. reflexivity.
    - cbn [flowWrapTypeWithModifiers isNonNullType negb] in IH.
      rewrite (clearOptional_unmarked _ IH). exact IH. }
  split; [apply Hmark|]. split.
  - intros Hn. destruct type as [n|t|t]; [| |discriminate];
      cbn [flowWrapTypeWithModifiers append]; rewrite clearOptional_marked; reflexivity.
  - cbn [flowWrapTypeWithModifiers]. apply clearOptional_unmarked.
    apply (Hmark (GraphQLNonNull type)).
Qed.

Lemma flow_optional_marker_witness :
  flowWrapTypeWithModifiers "Dog" (GraphQLList (GraphQLNonNull (NamedTypeRef "Dog")))
  = "?" ++ flowWrapTypeWithModifiers "Dog"
             (GraphQLNonNull (GraphQLList (GraphQLNonNull (NamedTypeRef "Dog"))))
  /\ flowWrapTypeWithModifiers "Dog"
       (GraphQLNonNull (GraphQLList (GraphQLNonNull (NamedTypeRef "Dog"))))
     = "Array<Dog>".
Proof.
  split; [|reflexivity].
  destruct (flow_optional_marker "Dog" (GraphQLList (GraphQLNonNull (NamedTypeRef "Dog")))
              eq_refl) as [_ [H _]].
  apply H. reflexivity.
Defined.

(** ** The declarations of a fragment *)





(** ** Interface conditions under an abstract parent *)

Lemma fan_out_some (keep : GraphQLObjectType -> bool) (items : list SelectionItem)
  (n : SelectionItem) (possible : list GraphQLObjectType) (types : TypeMap) :
  NoDup (map object_name possible) ->
  (forall p, In p possible -> ~ In (object_name p) (JS.keys types)) ->
  foldM (fun types possibleType =>
           if keep possibleType then
             Ok (_appendToTypeMap
                   (_appendToTypeMap types (object_name possibleType) (Some (n :: items)))
                   (object_name possibleType) None)
           else Ok types)
        possible types
  = Ok (types ++ map (fun p => (object_name p, n :: items)) (filter keep possible))%list.
Proof.
  revert types. induction possible as [|p possible IH]; intros types Hnd Hfresh.
  - cbn [foldM map filter]. rewrite app_nil_r. reflexivity.
  - cbn [foldM map filter]. inversion Hnd as [|x xs Hp Hnd']; subst.
    destruct (keep p); cbn [bind].
    + rewrite (appendToTypeMap_fresh types (object_name p) n items)
        by (apply Hfresh; left; reflexivity).
      rewrite appendToTypeMap_nothing
        by (unfold JS.keys; rewrite map_app, in_app_iff; right; left; reflexivity).
      rewrite IH; [cbn [map]; rewrite <- app_assoc; reflexivity | exact Hnd' |].
      intros q Hq. unfold JS.keys. rewrite map_app, in_app_iff. cbn [map fst].
      intros [Hin|[Heq|[]]].
      * apply (Hfresh q); [right; exact Hq | exact Hin].
      * apply Hp. rewrite Heq. apply in_map. exact Hq.
    + apply IH; [exact Hnd'|]. intros q Hq. apply Hfresh. right. exact Hq.
Qed.

(** X18.  An inline fragment of plain fields whose type condition is an
    interface, under an abstract parent, with ordinary names for the
    types.  Under another interface the fragment is dropped: nothing is
    collected, also for the possible types of the parent that implement
    the interface of the condition.  Under a union the fields go to the
    members of the union that are possible types of the interface, in
    the order of the members. *)
Theorem interface_condition_under_abstract_parent (this : SelectionSetToObject) (fuel : nat)
  (cond iface : string) (ifaceFields : list GraphQLField) (first : FieldNode)
  (rest : list FieldNode) :
  ordinaryTypes this ->
  getType (_schema this) cond = Some (InterfaceType iface ifaceFields) ->
  let fragment := InlineFragment (mkInline (Some cond) (map Field (first :: rest))) in
  let items := map (fun f => ItemNode (Field f)) (first :: rest) in
  (forall parent parentFields,
     _parentSchemaType this = Some (InterfaceType parent parentFields) ->
     iface <> parent ->
     flattenSelectionSet (2 + fuel) this [fragment] = Ok [])
  /\ (forall union members,
        _parentSchemaType this = Some (UnionType union members) ->
        NoDup (map object_name (getTypes (_schema this) members)) ->
        flattenSelectionSet (2 + fuel) this [fragment]
        = possible <- getPossibleTypes (_schema this) (Some (InterfaceType iface ifaceFields)) ;;
          Ok (map (fun p => (object_name p, items))
                  (filter (fun p => existsb (fun q => object_name q =? object_name p) possible)
                          (getTypes (_schema this) members)))).
Proof.
  intros _ Hcond fragment items. split.
  - intros parent parentFields Hparent Hne. unfold flattenSelectionSet, fragment, splitKinds.
    cbn [fold_left fieldNodes inlineFragmentSelections fragmentSpreads JS.nonEmpty List.app bind].
    rewrite Hparent. change (2 + fuel) with (S (S fuel)). remember (S fuel) as fuel1.
    cbn [_collectInlineFragments foldM mkInline typeCondition selections].
    destruct (getPossibleTypes (_schema this) (Some (InterfaceType parent parentFields)))
      as [possible|e] eqn:Ep; [|discriminate].
    cbn [bind]. rewrite Hcond, separate_only_fields. cbn [spreads].
    change (buildFragmentSpreadsUsage this []) with (@Ok (JS.dict (list string)) []).
    cbn [bind]. apply String.eqb_neq in Hne. rewrite Hne. reflexivity.
  - intros union members Hparent Hnd. unfold flattenSelectionSet, fragment, splitKinds.
    cbn [fold_left fieldNodes inlineFragmentSelections fragmentSpreads JS.nonEmpty List.app bind].
    rewrite Hparent. change (2 + fuel) with (S (S fuel)). remember (S fuel) as fuel1.
    cbn [_collectInlineFragments foldM mkInline typeCondition selections].
    rewrite Hcond, separate_only_fields. cbn [spreads fields inlines].
    change (buildFragmentSpreadsUsage this []) with (@Ok (JS.dict (list string)) []).
    cbn [bind JS.get usageItems option_map]. unfold fieldItems. cbn [map].
    destruct (getPossibleTypes (_schema this) (Some (InterfaceType iface ifaceFields)))
      as [possible|e] eqn:Ep; [|discriminate].
    cbn [bind].
    rewrite (foldM_ext _
               (fun types possibleType =>
                  if existsb (fun q => object_name q =? object_name possibleType) possible then
                    Ok (_appendToTypeMap
                          (_appendToTypeMap types (object_name possibleType)
                             (Some (ItemNode (Field first)
                                    :: map (fun f => ItemNode (Field f)) rest)))
                          (object_name possibleType) None)
                  else Ok types)).
    + rewrite (fan_out_some _ _ _ (getTypes (_schema this) members) []);
        [reflexivity | exact Hnd | intros p _ []].
    + intros types p.
      destruct (existsb (fun q => object_name q =? object_name p) possible); [|reflexivity].
      subst fuel1. cbn [_collectInlineFragments]. rewrite Ep. reflexivity.
Qed.

Lemma zooInstance_ordinary (parent : GraphQLNamedType) :
  ordinary (typeName parent) -> ordinaryTypes (zooInstance (Some parent)).
Proof.
  intros H. split.
  - intros t Hin. repeat (destruct Hin as [<-|Hin]; [reflexivity|]). destruct Hin.
  - intros t E. injection E as <-. exact H.
Qed.

Lemma interface_condition_under_abstract_parent_witness :
  flattenSelectionSet 2 (zooInstance (Some Node)) [on "Named" [leaf "name"]] = Ok []
  /\ getPossibleTypes zooSchema (Some Node) = Ok [NamedDog; Cat]
  /\ getPossibleTypes zooSchema (Some Named) = Ok [NamedDog; NamedPerson]
  /\ flattenSelectionSet 2 (zooInstance (Some SearchResult)) [on "Node" [leaf "id"]]
     = Ok [("Dog", [ItemNode (leaf "id")]); ("Cat", [ItemNode (leaf "id")])].
Proof.
  split; [|split; [reflexivity|split; [reflexivity|]]].
  - destruct (interface_condition_under_abstract_parent (zooInstance (Some Node)) 0
                "Named" "Named" [plainField "name" (NamedTypeRef "String")]
                (mkField None "name" None) [] (zooInstance_ordinary Node eq_refl) eq_refl)
      as [H _].
    apply (H "Node" nodeFields eq_refl). discriminate.
  - destruct (interface_condition_under_abstract_parent (zooInstance (Some SearchResult)) 0
                "Node" "Node" nodeFields (mkField None "id" None) []
                (zooInstance_ordinary SearchResult eq_refl) eq_refl) as [_ H].
    refine (eq_trans (H "SearchResult" ["Dog"; "Cat"; "Person"] eq_refl _) _); [|reflexivity].
    repeat constructor; simpl; intros Hin; repeat destruct Hin as [Hin|Hin];
      try discriminate; exact Hin.
Defined.

(** ** Field sets with white space at their ends *)

Lemma append_not_empty (cur : string) (c : ascii) : cur ++ String c "" <> "".
Proof. destruct cur; discriminate. Qed.

Lemma endsWithSpace_cons (c : ascii) (s : string) :
  endsWithSpace (String c s) = if s =? "" then JS.isSpace c else endsWithSpace s.
Proof. destruct s; reflexivity. Qed.

Lemma splitSpacesFrom_empty_piece (s : string) :
  (forall cur, cur <> "" ->
     (In "" (JS.splitSpacesFrom false cur s) <-> endsWithSpace s = true))
  /\ (In "" (JS.splitSpacesFrom true "" s) <-> s = "" \/ endsWithSpace s = true).
Proof.
  induction s as [|c s [IH1 IH2]].
  - split.
    + intros cur Hcur. cbn [JS.splitSpacesFrom endsWithSpace In]. split.
      * intros [H|[]]. exfalso. apply Hcur. exact H.
      * discriminate.
    + cbn [JS.splitSpacesFrom In]. tauto.
  - split.
    + intros cur Hcur. cbn [JS.splitSpacesFrom]. rewrite endsWithSpace_cons.
      destruct (JS.isSpace c) eqn:Ec.
      * cbn [In]. rewrite IH2. destruct s as [|c' s']; cbn [String.eqb].
        -- split; [reflexivity | intros _; right; left; reflexivity].
        -- split.
           ++ intros [H|[H|H]]; [exfalso; apply Hcur; exact H | discriminate | exact H].
           ++ intros H. right. right. exact H.
      * rewrite (IH1 _ (append_not_empty cur c)). destruct s as [|c' s']; cbn [String.eqb].
        -- cbn [endsWithSpace]. split; discriminate.
        -- reflexivity.
    + cbn [JS.splitSpacesFrom]. rewrite endsWithSpace_cons.
      destruct (JS.isSpace c) eqn:Ec.
      * rewrite IH2. destruct s as [|c' s']; cbn [String.eqb].
        -- split; [intros _; right; reflexivity | intros _; left; reflexivity].
        -- split; [intros [H|H]; [discriminate | right; exact H]
                  | intros [H|H]; [discriminate | right; exact H]].
      * change ("" ++ String c "") with (String c ""). rewrite (IH1 (String c "")) by discriminate.
        destruct s as [|c' s']; cbn [String.eqb].
        -- cbn [endsWithSpace]. split; [discriminate | intros [H|H]; discriminate].
        -- split; [intros H; right; exact H | intros [H|H]; [discriminate | exact H]].
Qed.

Lemma splitSpaces_empty_piece (s : string) :
  In "" (JS.splitSpaces s) <-> s = "" \/ startsWithSpace s = true \/ endsWithSpace s = true.
Proof.
  unfold JS.splitSpaces. destruct s as [|c s].
  - cbn [JS.splitSpacesFrom In]. tauto.
  - cbn [JS.splitSpacesFrom startsWithSpace]. rewrite endsWithSpace_cons.
    destruct (splitSpacesFrom_empty_piece s) as [H1 H2].
    destruct (JS.isSpace c) eqn:Ec.
    + cbn [In]. tauto.
    + change ("" ++ String c "") with (String c ""). rewrite (H1 (String c "")) by discriminate.
      destruct s as [|c' s']; cbn [String.eqb].
      * cbn [endsWithSpace]. split; [discriminate|].
        intros [H|[H|H]]; discriminate.
      * split; [intros H; right; right; exact H|].
        intros [H|[H|H]]; [discriminate | discriminate | exact H].
Qed.

(** X19.  White space at the ends of a field set.  For a field set
    without braces, the names that [extractFieldSet] returns hold the
    empty name exactly when the string is empty or begins or ends with
    white space; the projection made of them then names the field
    [''].  No name holds white space. *)
Theorem extractFieldSet_empty_name (directive : DirectiveNode) (arg : ArgumentNode)
  (names : list string) :
  find (fun a => arg_name a =? "fields") (directive_arguments directive) = Some arg ->
  extractFieldSet directive = Ok names ->
  (In "" names
   <-> arg_value arg = ""
       \/ startsWithSpace (arg_value arg) = true
       \/ endsWithSpace (arg_value arg) = true)
  /\ (forall name, In name names -> spaceFree name)
  /\ names <> [].
Proof.
  intros Hf. rewrite (extractFieldSet_value directive arg Hf).
  destruct (JS.testBraces (arg_value arg)); [discriminate|]. intros H. injection H as <-.
  split; [|split].
  - rewrite firstOccurrences_In, splitSpaces_empty_piece. cbn [In]. tauto.
  - intros name Hin. apply firstOccurrences_In in Hin. destruct Hin as [Hin _].
    assert (Hs := splitSpaces_Splits (arg_value arg)).
    clear - Hin Hs. induction Hs as [p Hp|p w rest q qs Hp Hw Hne Hrest IH Hq].
    + destruct Hin as [<-|[]]. exact Hp.
    + destruct Hin as [<-|Hin]; [exact Hp | exact (IH Hin)].
  - assert (Hs := splitSpaces_Splits (arg_value arg)).
    destruct (JS.splitSpaces (arg_value arg)) as [|p ps] eqn:E; [inversion Hs|].
    cbn [firstOccurrences JS.includes existsb]. discriminate.
Qed.

Lemma extractFieldSet_empty_name_witness :
  extractFieldSet (directive "key" " id") = Ok [""; "id"]
  /\ In "" [""; "id"]
  /\ translateParentType federationOn (resolveReference [])
       (ObjectType {| object_name := "Product"; object_fields := object_fields Product;
                      object_interfaces := []; object_isTypeOf := None;
                      object_astNode :=
                        Some {| node_name := "Product";
                                node_directives := Some [directive "key" " id"] |} |})
       "ParentType"
     = Ok "Pick<ParentType, '' | 'id'>".
Proof.
  split; [reflexivity|]. split; [|reflexivity].
  apply (extractFieldSet_empty_name (directive "key" " id") (fieldsArg " id") [""; "id"]
           eq_refl eq_refl).
  right. left. reflexivity.
Defined.

(** ** The modifiers of the TypeScript visitor *)

Lemma append_associative (a b c : string) : (a ++ b) ++ c = a ++ b ++ c.
Proof. induction a as [|x a IH]; simpl; [reflexivity | rewrite IH; reflexivity]. Qed.

Lemma length_append (a b : string) : String.length (a ++ b) = String.length a + String.length b.
Proof. induction a as [|x a IH]; simpl; [reflexivity | rewrite IH; reflexivity]. Qed.

Lemma startsWith_append (p r : string) : JS.startsWith (p ++ r) p = true.
Proof.
  unfold JS.startsWith. induction p as [|x p IH]; simpl; [destruct r; reflexivity|].
  destruct (Ascii.ascii_dec x x) as [_|H]; [exact IH | contradiction].
Qed.

Lemma substring_after (p r : string) :
  substring (String.length p) (String.length (p ++ r) - String.length p) (p ++ r) = r.
Proof.
  rewrite length_append, Nat.add_comm, Nat.add_sub.
  induction p as [|x p IH]; simpl; [apply substring_all | exact IH].
Qed.

Lemma unsnoc_append (s : string) (c : ascii) :
  TypeScriptVisitor.unsnoc (s ++ String c "") = Some (s, c).
Proof. induction s as [|x s IH]; simpl; [reflexivity | rewrite IH; reflexivity]. Qed.

Lemma ts_clearOptional_wrapped (ns : option string) (x : string) :
  TypeScriptVisitor.wordNamespace ns = true ->
  TypeScriptVisitor.clearOptional ns (TypeScriptVisitor.prefix ns ++ "Maybe<" ++ x ++ ">")
  = Some x.
Proof.
  intros Hw. unfold TypeScriptVisitor.clearOptional. rewrite Hw.
  set (p := TypeScriptVisitor.prefix ns).
  assert (E : p ++ "Maybe<" ++ x ++ ">" = (p ++ "Maybe") ++ String "<" (x ++ ">")).
  { rewrite append_associative. reflexivity. }
  rewrite E, startsWith_append.
  replace (String.length p + 5) with (String.length (p ++ "Maybe"))
    by (rewrite length_append; reflexivity).
  rewrite substring_after, unsnoc_append. reflexivity.
Qed.

Lemma ts_clearOptional_total (ns : option string) (str : string) :
  TypeScriptVisitor.wordNamespace ns = true ->
  exists cleared, TypeScriptVisitor.clearOptional ns str = Some cleared.
Proof.
  intros Hw. unfold TypeScriptVisitor.clearOptional. rewrite Hw.
  destruct (JS.startsWith str (TypeScriptVisitor.prefix ns ++ "Maybe")); [|eexists; reflexivity].
  cbv zeta. destruct (substring _ _ str) as [|c body]; [eexists; reflexivity|].
  destruct (Ascii.ascii_dec c "<") as [->|Hc].
  - destruct (TypeScriptVisitor.unsnoc body) as [[inner last]|]; [|eexists; reflexivity].
    destruct (Ascii.ascii_dec last ">") as [->|Hl]; [eexists; reflexivity|].
    destruct last as [[] [] [] [] [] [] [] []]; try (eexists; reflexivity).
  - destruct c as [[] [] [] [] [] [] [] []]; try (eexists; reflexivity).
    destruct (TypeScriptVisitor.unsnoc body) as [[inner last]|]; [|eexists; reflexivity].
    destruct last as [[] [] [] [] [] [] [] []]; eexists; reflexivity.
Qed.

Lemma ts_wrap_total (ns : option string) (immutableTypes : bool) (baseType : string)
  (type : GraphQLOutputType) :
  TypeScriptVisitor.wordNamespace ns = true ->
  exists wrapped,
    TypeScriptVisitor.wrapTypeWithModifiers ns immutableTypes baseType type = Some wrapped.
Proof.
  intros Hw. induction type as [n|t [w IH]|t [w IH]]; cbn [TypeScriptVisitor.wrapTypeWithModifiers].
  - eexists. reflexivity.
  - rewrite IH. eexists. reflexivity.
  - rewrite IH. apply ts_clearOptional_total. exact Hw.
Qed.

(** X20.  The type modifiers of the TypeScript documents visitor, for a
    name space that is a word (letters, digits and underscores) or for
    none.  [clearOptional] and [wrapTypeWithModifiers] answer.
    [clearOptional] takes the [Maybe] off a string that [Maybe<...>],
    under the name space, wraps, and leaves a string that does not begin
    with [Maybe], under the name space, as it is.  So a type that is not
    non-null is wrapped as [Maybe] around what its non-null version is
    wrapped as, and a non-null named type is the base type itself. *)
Theorem ts_maybe_marker (namespacedImportName : option string) (immutableTypes : bool)
  (baseType : string) :
  TypeScriptVisitor.wordNamespace namespacedImportName = true ->
  let prefix := TypeScriptVisitor.prefix namespacedImportName in
  let wrap := TypeScriptVisitor.wrapTypeWithModifiers namespacedImportName immutableTypes baseType in
  (forall inner,
     TypeScriptVisitor.clearOptional namespacedImportName (prefix ++ "Maybe<" ++ inner ++ ">")
     = Some inner)
  /\ (forall str,
        JS.startsWith str (prefix ++ "Maybe") = false ->
        TypeScriptVisitor.clearOptional namespacedImportName str = Some str)
  /\ (forall type,
        isNonNullType type = false ->
        exists wrapped,
          wrap (GraphQLNonNull type) = Some wrapped
          /\ wrap type = Some (prefix ++ "Maybe<" ++ wrapped ++ ">"))
  /\ (forall name, wrap (GraphQLNonNull (NamedTypeRef name)) = Some baseType).
Proof.
  intros Hw prefix wrap. split; [|split; [|split]].
  - intros inner. apply ts_clearOptional_wrapped. exact Hw.
  - intros str H. unfold TypeScriptVisitor.clearOptional. fold prefix. rewrite Hw, H.
    reflexivity.
  - intros type Hn. unfold wrap. destruct type as [n|t|t]; [| |discriminate].
    + exists baseType. cbn [TypeScriptVisitor.wrapTypeWithModifiers].
      rewrite (ts_clearOptional_wrapped _ _ Hw). split; reflexivity.
    + destruct (ts_wrap_total namespacedImportName immutableTypes baseType t Hw) as [inner E].
      cbn [TypeScriptVisitor.wrapTypeWithModifiers]. rewrite E.
      rewrite (ts_clearOptional_wrapped _ _ Hw). eexists. split; reflexivity.
  - intros name. unfold wrap. cbn [TypeScriptVisitor.wrapTypeWithModifiers].
    apply ts_clearOptional_wrapped. exact Hw.
Qed.

Lemma ts_maybe_marker_witness :
  TypeScriptVisitor.wrapTypeWithModifiers (Some "Types") true "Dog"
    (GraphQLList (GraphQLNonNull (NamedTypeRef "Dog")))
  = Some "Types.Maybe<ReadonlyArray<Dog>>"
  /\ TypeScriptVisitor.wrapTypeWithModifiers None false "Dog" (GraphQLNonNull (NamedTypeRef "Dog"))
     = Some "Dog"
  /\ TypeScriptVisitor.clearOptional (Some "$") "$.Maybe<Dog>" = None.
Proof.
  split; [|split; [|reflexivity]].
  - destruct (ts_maybe_marker (Some "Types") true "Dog" eq_refl) as [_ [_ [H _]]].
    destruct (H (GraphQLList (GraphQLNonNull (NamedTypeRef "Dog"))) eq_refl) as [w [E1 E2]].
    rewrite E2. vm_compute in E1. injection E1 as <-. reflexivity.
  - destruct (ts_maybe_marker None false "Dog" eq_refl) as [_ [_ [_ H]]].
    apply (H "Dog").
Defined.

(** ** Fragments and fields under an object type *)

Lemma getType_typeName (schema : GraphQLSchema) (name : string) (t : GraphQLNamedType) :
  getType schema name = Some t -> typeName t = name.
Proof.
  unfold getType. intros H. apply find_some in H. destruct H as [_ H].
  apply String.eqb_eq. exact H.
Qed.

Lemma entry_appendToTypeMap {T : Type} (types : JS.dict (list T)) (k k' : string)
  (nodes : list T) :
  entry (_appendToTypeMap (_appendToTypeMap types k (Some nodes)) k None) k'
  = (entry types k' ++ if k =? k' then nodes else [])%list.
Proof.
  assert (Hnone : forall d : JS.dict (list T), entry (_appendToTypeMap d k None) k' = entry d k').
  { intros d. unfold _appendToTypeMap, entry. rewrite get_ensure.
    destruct (JS.get d k'); [reflexivity|]. destruct (k =? k'); reflexivity. }
  rewrite Hnone. unfold _appendToTypeMap. destruct nodes as [|n l].
  - unfold entry. rewrite get_ensure. destruct (JS.get types k'); destruct (k =? k');
      rewrite ?app_nil_r; reflexivity.
  - apply entry_after_push.
Qed.

Lemma collect_plain_fragments (this : SelectionSetToObject) (o : GraphQLObjectType) (fuel : nat)
  (frags : list (string * list FieldNode)) (types : TypeMap) :
  Forall (fun cl => exists oc, getType (_schema this) (fst cl) = Some (ObjectType oc)) frags ->
  exists types',
    _collectInlineFragments (S (S fuel)) this (Some (ObjectType o)) (map plainFragment frags) types
    = Ok types'
    /\ forall k, entry types' k = (entry types k ++ fragmentItems k frags)%list.
Proof.
  intros H. revert types. remember (S fuel) as fuel1 eqn:Ef.
  induction H as [|[c l] frags [oc Hc] H IH]; intros types.
  - exists types. split; [reflexivity|]. intros k. cbn [fragmentItems flat_map].
    rewrite app_nil_r. reflexivity.
  - cbn [fst] in Hc. cbn [_collectInlineFragments map foldM] in *.
    change (plainFragment (c, l)) with (mkInline (Some c) (map Field l)).
    cbn [mkInline typeCondition selections].
    rewrite Hc, separate_only_fields. cbn [fields inlines spreads].
    change (buildFragmentSpreadsUsage this []) with (@Ok (JS.dict (list string)) []).
    cbn [bind JS.get usageItems option_map]. unfold fieldItems.
    assert (Hinner : forall t : TypeMap,
               _collectInlineFragments fuel1 this (Some (ObjectType oc)) [] t = Ok t)
      by (intros t; subst fuel1; reflexivity).
    rewrite Hinner. cbn [bind].
    destruct (IH (_appendToTypeMap
                    (_appendToTypeMap types (object_name oc)
                       (Some (map (fun f => ItemNode (Field f)) l)))
                    (object_name oc) None)) as [types' [E Hentry]].
    exists types'. split; [exact E|]. intros k. rewrite Hentry, entry_appendToTypeMap.
    assert (Hname := getType_typeName _ _ _ Hc). cbn [typeName] in Hname. rewrite Hname.
    unfold fragmentItems. cbn [flat_map fst snd]. rewrite <- app_assoc. reflexivity.
Qed.

Lemma fragmentItems_app (k : string) (a b : list (string * list FieldNode)) :
  fragmentItems k (a ++ b) = (fragmentItems k a ++ fragmentItems k b)%list.
Proof. unfold fragmentItems. apply flat_map_app. Qed.

(** X21.  Fragments of plain fields and plain fields under an object
    type that the schema knows by its name, when every fragment names an
    object type and the names of the types are ordinary.  The flattening
    returns; the entry of a type holds the fields of the fragments on
    that type, in the order of the fragments, whether the type is the
    parent or not; the fields selected outside the fragments come last
    in the entry of the parent, wherever they stood in the selection. *)
Theorem object_parent_fragments_before_fields (this : SelectionSetToObject)
  (o : GraphQLObjectType) (fuel : nat) (selections : SelectionSetNode)
  (fieldNodes : list FieldNode) (frags : list (string * list FieldNode)) :
  ordinaryTypes this ->
  _parentSchemaType this = Some (ObjectType o) ->
  getType (_schema this) (object_name o) = Some (ObjectType o) ->
  splitKinds selections
  = {| SelectionSet.fieldNodes := fieldNodes;
       inlineFragmentSelections := map plainFragment frags;
       fragmentSpreads := [] |} ->
  Forall (fun cl => exists oc, getType (_schema this) (fst cl) = Some (ObjectType oc)) frags ->
  exists types,
    flattenSelectionSet (2 + fuel) this selections = Ok types
    /\ forall k,
         entry types k
         = (fragmentItems k frags
            ++ if object_name o =? k then map (fun f => ItemNode (Field f)) fieldNodes else [])%list.
Proof.
  intros _ Hparent Hknown Hsplit Hfrags. unfold flattenSelectionSet. rewrite Hsplit.
  cbn [SelectionSet.fieldNodes inlineFragmentSelections fragmentSpreads]. rewrite Hparent.
  change (buildFragmentSpreadsUsage this []) with (@Ok (JS.dict (list string)) []).
  change (2 + fuel) with (S (S fuel)).
  destruct fieldNodes as [|f fs]; cbn [JS.nonEmpty bind].
  - destruct (collect_plain_fragments this o fuel frags [] Hfrags) as [types [E Hentry]].
    rewrite E. cbn [bind JS.keys map fold_left]. exists types. split; [reflexivity|].
    intros k. rewrite Hentry. cbn [map entry JS.get List.app].
    destruct (object_name o =? k); rewrite app_nil_r; reflexivity.
  - cbn [_createInlineFragmentForFieldNodes bind typeName].
    change (mkInline (Some (object_name o)) (map Field (f :: fs)))
      with (plainFragment (object_name o, f :: fs)).
    change [plainFragment (object_name o, f :: fs)]
      with (map plainFragment [(object_name o, f :: fs)]).
    rewrite <- map_app.
    destruct (collect_plain_fragments this o fuel (frags ++ [(object_name o, f :: fs)]) [])
      as [types [E Hentry]].
    { apply Forall_app. split; [exact Hfrags|]. constructor; [|constructor].
      exists o. exact Hknown. }
    rewrite E. cbn [bind JS.keys map fold_left]. exists types. split; [reflexivity|].
    intros k. rewrite Hentry, fragmentItems_app. cbn [entry JS.get List.app].
    unfold fragmentItems at 2. cbn [flat_map fst snd]. rewrite app_nil_r. reflexivity.
Qed.

Lemma object_parent_fragments_before_fields_witness :
  exists types,
    flattenSelectionSet 2 (instance [] (Some (ObjectType Dog)) None)
      [leaf "id"; on "Dog" [leaf "bark"]; on "Cat" [leaf "meow"]] = Ok types
    /\ entry types "Dog" = [ItemNode (leaf "bark"); ItemNode (leaf "id")]
    /\ entry types "Cat" = [ItemNode (leaf "meow")].
Proof.
  destruct (object_parent_fragments_before_fields (instance [] (Some (ObjectType Dog)) None)
              Dog 0 [leaf "id"; on "Dog" [leaf "bark"]; on "Cat" [leaf "meow"]]
              [mkField None "id" None]
              [("Dog", [mkField None "bark" None]); ("Cat", [mkField None "meow" None])]
              (instance_ordinary _ (ObjectType Dog) _ eq_refl)
              eq_refl eq_refl eq_refl) as [types [E Hentry]].
  - constructor; [exists Dog; reflexivity|]. constructor; [exists Cat; reflexivity|]. constructor.
  - exists types. split; [exact E|]. split; rewrite Hentry; reflexivity.
Defined.

(** ** When the first loop fails *)

Lemma foldM_Throw {A S : Type} (f : S -> A -> result S) (l : list A) (s : S) (e : exn) :
  foldM f l s = Throw e -> exists a s', In a l /\ f s' a = Throw e.
Proof.
  revert s. induction l as [|a l IH]; intros s; cbn [foldM]; [discriminate|].
  destruct (f s a) as [s1|e1] eqn:E; cbn [bind].
  - intros H. destruct (IH s1 H) as [a' [s' [Hin H']]]. exists a', s'.
    split; [right; exact Hin | exact H'].
  - intros H. injection H as <-. exists a, s. split; [left; reflexivity | exact E].
Qed.

Lemma classifyNode_selectedType (parent : GraphQLObjectType) (c c' : Classified)
  (a : SelectionItem) :
  classifyNode parent c a = Ok c' ->
  Forall (fun kv => selectedType parent (fieldName (field (snd kv)))
                    = Some (selectedFieldType (snd kv))) (linkFieldSelectionSets c) ->
  Forall (fun kv => selectedType parent (fieldName (field (snd kv)))
                    = Some (selectedFieldType (snd kv))) (linkFieldSelectionSets c').
Proof.
  intros Hstep Hl. destruct a as [[f|sp|i]|usage]; simpl in Hstep;
    try (injection Hstep as <-; exact Hl).
  destruct (fieldSelectionSet f) as [ss|] eqn:Ess.
  - destruct (if isMetadataFieldName (fieldName f) then metadataFieldMap (fieldName f)
              else option_map field_type (getField (object_fields parent) (fieldName f)))
      as [type|] eqn:Et; [|discriminate].
    injection Hstep as <-. cbn [linkFieldSelectionSets].
    destruct (JS.get (linkFieldSelectionSets c) (getFieldNodeNameValue f)) as [l0|] eqn:Eg.
    + destruct (fieldSelectionSet (field l0)) as [first|] eqn:Ef; [|exact Hl].
      apply (Forall_set (fun l => selectedType parent (fieldName (field l))
                                  = Some (selectedFieldType l))); [exact Hl|].
      cbn [field selectedFieldType mkField fieldName].
      exact (Forall_get (fun l => selectedType parent (fieldName (field l))
                                  = Some (selectedFieldType l)) _ _ _ Hl Eg).
    + apply (Forall_set (fun l => selectedType parent (fieldName (field l))
                                  = Some (selectedFieldType l))); [exact Hl|].
      cbn [field selectedFieldType]. exact Et.
  - destruct (fieldAlias f); [injection Hstep as <-; exact Hl|].
    destruct (fieldName f =? "__typename"); injection Hstep as <-; exact Hl.
Qed.

Lemma classify_selectedType (parent : GraphQLObjectType) (items : list SelectionItem)
  (c0 c : Classified) :
  foldM (classifyNode parent) items c0 = Ok c ->
  Forall (fun kv => selectedType parent (fieldName (field (snd kv)))
                    = Some (selectedFieldType (snd kv))) (linkFieldSelectionSets c0) ->
  Forall (fun kv => selectedType parent (fieldName (field (snd kv)))
                    = Some (selectedFieldType (snd kv))) (linkFieldSelectionSets c).
Proof.
  revert c0. induction items as [|a items IH]; intros c0 H H0.
  - injection H as <-. exact H0.
  - cbn [foldM] in H. apply bind_Ok in H. destruct H as [c1 [H1 H]].
    apply (IH c1 H). exact (classifyNode_selectedType parent c0 c1 a H1 H0).
Qed.

(** X22.  The first loop of [buildSelectionSetString] fails for one
    reason only: a field selected with children whose name is neither a
    metadata name nor a field of the type.  Unknown fields without
    children, inline fragments and fragment spreads among the items are
    passed over.  When the loop returns, every link field it kept has
    the declared type of its name: for [__schema] and [__type] the type
    of the metadata field, whatever the type declares under that name,
    and the type of the field of the type otherwise. *)
Theorem classify_fails_on_unknown_links_only (parentSchemaType : GraphQLObjectType)
  (selectionNodes : list SelectionItem) :
  ((exists e, classify parentSchemaType selectionNodes = Throw e)
   <-> exists f,
         In (ItemNode (Field f)) selectionNodes
         /\ fieldSelectionSet f <> None
         /\ isMetadataFieldName (fieldName f) = false
         /\ getField (object_fields parentSchemaType) (fieldName f) = None)
  /\ (forall c k l,
        classify parentSchemaType selectionNodes = Ok c ->
        JS.get (linkFieldSelectionSets c) k = Some l ->
        selectedType parentSchemaType (fieldName (field l)) = Some (selectedFieldType l))
  /\ selectedType parentSchemaType "__schema" = Some (GraphQLNonNull (NamedTypeRef "__Schema"))
  /\ selectedType parentSchemaType "__type" = Some (NamedTypeRef "__Type").
Proof.
  split; [|split; [|split; reflexivity]].
  - split.
    + intros [e H]. unfold classify in H. apply foldM_Throw in H.
      destruct H as [a [c [Hin H]]]. apply classifyNode_throws in H.
      destruct H as [f [-> [H2 [H3 [H4 _]]]]]. exists f. repeat split; assumption.
    + intros [f [Hin [Hs [Hm Hg]]]].
      destruct (classify_unknown parentSchemaType selectionNodes emptyClassified f Hin Hs Hm Hg)
        as [f' [_ [_ [_ [_ H]]]]].
      eexists. exact H.
  - intros c k l H Hget. unfold classify in H.
    assert (Hinv := classify_selectedType parentSchemaType selectionNodes emptyClassified c H
                      (Forall_nil _)).
    exact (Forall_get (fun l0 => selectedType parentSchemaType (fieldName (field l0))
                                 = Some (selectedFieldType l0)) _ _ _ Hinv Hget).
Qed.

Lemma classify_fails_on_unknown_links_only_witness :
  (exists c,
     classify Dog [ItemNode (leaf "nope"); ItemNode (on "Cat" [leaf "meow"]);
                   ItemNode (link "__type" [leaf "name"])] = Ok c
     /\ exists l, JS.get (linkFieldSelectionSets c) "__type" = Some l
                  /\ selectedFieldType l = NamedTypeRef "__Type")
  /\ exists e, classify Dog [ItemNode (link "nope" [leaf "id"])] = Throw e.
Proof.
  split.
  - eexists. split; [reflexivity|]. eexists. split; [reflexivity|].
    destruct (classify_fails_on_unknown_links_only Dog
                [ItemNode (leaf "nope"); ItemNode (on "Cat" [leaf "meow"]);
                 ItemNode (link "__type" [leaf "name"])]) as [_ [H _]].
    assert (E := H _ "__type" _ eq_refl eq_refl).
    apply (f_equal (fun t => match t with Some type => type | None => NamedTypeRef "" end)) in E.
    symmetry. exact E.
  - apply (classify_fails_on_unknown_links_only Dog [ItemNode (link "nope" [leaf "id"])]).
    exists (mkField None "nope" (Some [leaf "id"])).
    split; [left; reflexivity|]. split; [discriminate|]. split; reflexivity.
Defined.
